(** * Sitemap generator API: crawl engine, robots policy, URL normaliser
      and sitemap renderer of [server.js], request validation of
      [security.js].

    The development is a shallow embedding.  JavaScript strings are lists
    of characters, [Set]s are insertion-ordered lists without repetition,
    [Map]s and plain objects used as dictionaries are association lists.
    Everything the program obtains from its runtime (the WHATWG [URL]
    class, [String.prototype.localeCompare], SHA-256, the HTML parser,
    number printing) is collected in the class [Platform]; the network is
    the record [Network].  The functions of [server.js] and [security.js]
    are written once, against these interfaces, the way the source calls
    them. *)

From Stdlib Require Import String Ascii List Bool Arith ZArith QArith Lia.
From Stdlib Require Import Permutation.
From Equations Require Import Equations.
Import ListNotations.

Close Scope Q_scope.
Open Scope string_scope.
Open Scope list_scope.
Open Scope nat_scope.

(* ------------------------------------------------------------------ *)
(** ** JavaScript strings *)
(* ------------------------------------------------------------------ *)

Definition str := list ascii.

(** String literals are read as character lists. *)
Coercion list_ascii_of_string : string >-> list.

Definition str_eq_dec : forall a b : str, {a = b} + {a <> b} :=
  list_eq_dec ascii_dec.

Definition str_eqb (a b : str) : bool :=
  if str_eq_dec a b then true else false.

(** JavaScript truthiness of a value that is either [null] or a string:
    [null] and the empty string are falsy. *)
Definition truthy (o : option str) : option str :=
  match o with
  | Some [] => None
  | Some s => Some s
  | None => None
  end.

Definition nonEmpty (s : str) : bool :=
  match s with [] => false | _ => true end.

(** [s.startsWith(p)] *)
Fixpoint startsWith (s p : str) {struct p} : bool :=
  match p, s with
  | [], _ => true
  | c :: p', d :: s' => Ascii.eqb c d && startsWith s' p'
  | _ :: _, [] => false
  end.

(** [s.endsWith(p)] *)
Definition endsWith (s p : str) : bool := startsWith (rev s) (rev p).

Definition is_upper (c : ascii) : bool :=
  let n := N_of_ascii c in (65 <=? n)%N && (n <=? 90)%N.

Definition lower_char (c : ascii) : ascii :=
  if is_upper c then ascii_of_N (N_of_ascii c + 32) else c.

(** [s.toLowerCase()] on ASCII text. *)
Definition toLowerCase (s : str) : str := map lower_char s.

(** White space removed by [String.prototype.trim] (ASCII part):
    TAB, LF, VT, FF, CR and SPACE. *)
Definition is_space (c : ascii) : bool :=
  let n := N_of_ascii c in
  ((9 <=? n)%N && (n <=? 13)%N) || (n =? 32)%N.

Fixpoint trimStart (s : str) : str :=
  match s with
  | c :: s' => if is_space c then trimStart s' else s
  | [] => []
  end.

Definition trimEnd (s : str) : str := rev (trimStart (rev s)).

(** [s.trim()] *)
Definition trim (s : str) : str := trimEnd (trimStart s).

(** Puts one more character in front of the first piece of a split. *)
Definition push_head (x : ascii) (l : list str) : list str :=
  match l with
  | h :: t => (x :: h) :: t
  | [] => [[x]]
  end.

(** [s.split(c)] for a one-character separator. *)
Fixpoint split_on (c : ascii) (s : str) : list str :=
  match s with
  | [] => [[]]
  | x :: s' =>
      if Ascii.eqb x c then [] :: split_on c s'
      else push_head x (split_on c s')
  end.

(** [s.split(/\r?\n/)] *)
Fixpoint split_lines (s : str) : list str :=
  match s with
  | [] => [[]]
  | x :: s' =>
      if Ascii.eqb x "010" then [] :: split_lines s'
      else if Ascii.eqb x "013" then
        match s' with
        | y :: s'' =>
            if Ascii.eqb y "010" then [] :: split_lines s''
            else push_head x (split_lines s')
        | [] => [[x]]
        end
      else push_head x (split_lines s')
  end.

(** [l.join(sep)] *)
Fixpoint join (sep : str) (l : list str) : str :=
  match l with
  | [] => []
  | [x] => x
  | x :: rest => x ++ sep ++ join sep rest
  end.

(** [arr.includes(x)] on an array of strings. *)
Definition includes (arr : list str) (x : str) : bool :=
  existsb (str_eqb x) arr.

(** [s.slice(0, -1)] *)
Definition slice_0_m1 (s : str) : str := removelast s.

(** [s.replace(/\/+/g, '/')]: every maximal run of slashes becomes one
    slash. *)
Fixpoint collapse_slashes (s : str) : str :=
  match s with
  | [] => []
  | c :: s' =>
      if Ascii.eqb c "/" then
        match s' with
        | d :: _ => if Ascii.eqb d "/" then collapse_slashes s'
                    else c :: collapse_slashes s'
        | [] => [c]
        end
      else c :: collapse_slashes s'
  end.

(** Number of occurrences of the pattern [pat] in [s] (one per start
    position). *)
Fixpoint occurrences (pat s : str) : nat :=
  match s with
  | [] => 0
  | _ :: s' => (if startsWith s pat then 1 else 0) + occurrences pat s'
  end.

(* ------------------------------------------------------------------ *)
(** ** [Set], [Map], [Array.prototype.sort] *)
(* ------------------------------------------------------------------ *)

(** [set.has(x)] *)
Definition set_has (x : str) (s : list str) : bool :=
  if in_dec str_eq_dec x s then true else false.

(** [set.add(x)]: insertion order is kept, a member is not added twice. *)
Definition set_add (x : str) (s : list str) : list str :=
  if set_has x s then s else s ++ [x].

(** [map.get(k)], also [obj[k]] on an object used as a dictionary. *)
Fixpoint map_get {V : Type} (k : str) (m : list (str * V)) : option V :=
  match m with
  | [] => None
  | (k', v) :: m' => if str_eq_dec k k' then Some v else map_get k m'
  end.

Definition map_has {V : Type} (k : str) (m : list (str * V)) : bool :=
  match map_get k m with Some _ => true | None => false end.

(** [map.set(k, v)], also [obj[k] = v]: an existing key keeps its place. *)
Fixpoint map_set {V : Type} (k : str) (v : V) (m : list (str * V))
  : list (str * V) :=
  match m with
  | [] => [(k, v)]
  | (k', v') :: m' =>
      if str_eq_dec k k' then (k, v) :: m' else (k', v') :: map_set k v m'
  end.

(** [Object.keys(obj)] *)
Definition map_keys {V : Type} (m : list (str * V)) : list str := map fst m.

(** [arr.sort(cmp)]: the sort is stable; [cmp a b] is negative, zero or
    positive. *)
Section Sort.
Context {A : Type} (cmp : A -> A -> Z).

Fixpoint sort_insert (x : A) (l : list A) : list A :=
  match l with
  | [] => [x]
  | y :: l' => if (cmp x y <=? 0)%Z then x :: l else y :: sort_insert x l'
  end.

Definition js_sort (l : list A) : list A := fold_right sort_insert [] l.

End Sort.

(* ------------------------------------------------------------------ *)
(** ** The runtime *)
(* ------------------------------------------------------------------ *)

(** What the program uses of its runtime.  [new_URL] and [new_URL_base]
    are [new URL(u)] and [new URL(href, base)], [None] when they throw;
    the accessors are the getters and setters of the URL object, a setter
    returning the updated object.  [cheerio_hrefs html] lists the [href]
    attribute of the elements selected by [a[href]], in document order.
    [numberToString] is the conversion of a number in a template
    literal; it never produces the character [<]. *)
Class Platform := {
  URL : Type;
  new_URL : str -> option URL;
  new_URL_base : str -> str -> option URL;
  url_protocol : URL -> str;
  url_hostname : URL -> str;
  url_port : URL -> str;
  url_pathname : URL -> str;
  url_search : URL -> str;
  url_set_hash : str -> URL -> URL;
  url_set_protocol : str -> URL -> URL;
  url_set_hostname : str -> URL -> URL;
  url_set_port : str -> URL -> URL;
  url_set_search : str -> URL -> URL;
  url_set_pathname : str -> URL -> URL;
  searchParams_entries : URL -> list (str * str);
  searchParams_append : str -> str -> URL -> URL;
  url_toString : URL -> str;
  localeCompare : str -> str -> Z;
  sha256_hex : str -> str;
  cheerio_hrefs : str -> list str;
  numberToString : Q -> str;
  numberToString_no_lt : forall q, ~ In "<"%char (numberToString q)
}.

(** Outcome of an [axios] request: a response with its status and body,
    or a rejected promise (time-out, network failure, refused status). *)
Inductive AxiosResult :=
| Resolved (status : Z) (data : str)
| Rejected.

(** The network as one crawl sees it: [axios_get] is the default client
    (used for robots.txt), [axiosInstance_get] the crawler's client with
    its own user agent and time-out.  A crawl requests a URL string at
    most once, so a function of the URL loses no generality.  [now_iso]
    is [new Date().toISOString()] at rendering time, a text of digits
    and punctuation without [<]. *)
Record Network := {
  axios_get : str -> AxiosResult;
  axiosInstance_get : str -> AxiosResult;
  now_iso : str;
  now_iso_no_lt : ~ In "<"%char now_iso
}.

(* ------------------------------------------------------------------ *)
(** ** [server.js]: helper utilities *)
(* ------------------------------------------------------------------ *)

Section Server.
Context {P : Platform}.

Definition trackingKeys : list str :=
  [ "fbclid" : str; "gclid" : str; "utm_source" : str; "utm_medium" : str;
    "utm_campaign" : str; "utm_term" : str; "utm_content" : str ].

(** [normalizeUrl(u)] *)
Definition normalizeUrl (u : str) : option str :=
  match new_URL u with
  | None => None
  | Some urlObj =>
      let urlObj := url_set_hash [] urlObj in
      let urlObj := url_set_protocol (toLowerCase (url_protocol urlObj)) urlObj in
      let urlObj := url_set_hostname (toLowerCase (url_hostname urlObj)) urlObj in
      let urlObj :=
        if (str_eqb (url_protocol urlObj) "http:" && str_eqb (url_port urlObj) "80")
           || (str_eqb (url_protocol urlObj) "https:" && str_eqb (url_port urlObj) "443")
        then url_set_port [] urlObj else urlObj in
      let params :=
        filter (fun kv => negb (includes trackingKeys (fst kv)))
               (searchParams_entries urlObj) in
      let params := js_sort (fun a b => localeCompare (fst a) (fst b)) params in
      let urlObj := url_set_search [] urlObj in
      let urlObj :=
        fold_left (fun o kv => searchParams_append (fst kv) (snd kv) o)
                  params urlObj in
      let urlObj :=
        url_set_pathname (collapse_slashes (url_pathname urlObj)) urlObj in
      let urlObj :=
        if (1 <? length (url_pathname urlObj))
           && endsWith (url_pathname urlObj) "/"
        then url_set_pathname (slice_0_m1 (url_pathname urlObj)) urlObj
        else urlObj in
      Some (url_toString urlObj)
  end.

(** [isInternalLink(link, startHost)] *)
Definition isInternalLink (link startHost : str) : bool :=
  match new_URL link with
  | Some u => str_eqb (url_hostname u) startHost
  | None => false
  end.

(** [resolveLink(href, base)] *)
Definition resolveLink (href base : str) : option str :=
  if negb (nonEmpty href) then None else
  let href := trim href in
  if startsWith href "#" || startsWith href "javascript:"
     || startsWith href "mailto:" || startsWith href "tel:"
  then None
  else match new_URL_base href base with
       | Some u => Some (url_toString u)
       | None => None
       end.

(** The extensions of the regular expression of [isSkippableResource];
    [woff2?] stands for the two entries [woff] and [woff2]. *)
Definition resourceExtensions : list str :=
  [ "jpg" : str; "jpeg" : str; "png" : str; "gif" : str; "svg" : str;
    "webp" : str; "bmp" : str; "pdf" : str; "zip" : str; "rar" : str;
    "7z" : str; "tar" : str; "gz" : str; "exe" : str; "dmg" : str;
    "iso" : str; "mp4" : str; "mp3" : str; "ogg" : str; "woff" : str;
    "woff2" : str; "ttf" : str; "ico" : str ].

(** [s] starts, ignoring case, with [ext] followed by the end of the
    input or by a question mark: the part [(ext)(?:$|\?)] with flag [i]. *)
Fixpoint ext_here (ext s : str) {struct ext} : bool :=
  match ext, s with
  | [], [] => true
  | [], c :: _ => Ascii.eqb c "?"
  | e :: ext', c :: s' => Ascii.eqb e (lower_char c) && ext_here ext' s'
  | _ :: _, [] => false
  end.

(** [/\.(jpg|...|ico)(?:$|\?)/i.test(s)] *)
Fixpoint resource_regex_test (s : str) : bool :=
  match s with
  | [] => false
  | c :: s' =>
      (Ascii.eqb c "." && existsb (fun e => ext_here e s') resourceExtensions)
      || resource_regex_test s'
  end.

(** [isSkippableResource(url)] *)
Definition isSkippableResource (url : str) : bool :=
  match new_URL url with
  | Some u => resource_regex_test (url_pathname u ++ url_search u)
  | None => true
  end.

(* ------------------------------------------------------------------ *)
(** ** [server.js]: robots.txt *)
(* ------------------------------------------------------------------ *)

(** The object [agents]: for each user agent the list of its [Disallow]
    values.  It is used as a dictionary of its own properties. *)
Definition Agents := list (str * list str).

(** The result object [{ disallow: new Set() }]. *)
Record Robots := { disallow : list str }.

(** [const [rawKey, ...rest] = line.split(':')]: the text before the
    first colon and, when the line has a colon, [rest.join(':')]. *)
Fixpoint cut_colon (line : str) : str * option str :=
  match line with
  | [] => ([], None)
  | c :: s' =>
      if Ascii.eqb c ":" then ([], Some s')
      else let (k, r) := cut_colon s' in (c :: k, r)
  end.

(** [agents[a] = agents[a] || []; agents[a].push(value)] *)
Definition push_rule (a value : str) (agents : Agents) : Agents :=
  let rules := match map_get a agents with Some l => l | None => [] end in
  map_set a (rules ++ [value]) agents.

(** One turn of [for (const line of lines)], on the pair of [agents] and
    [currentAgents]. *)
Definition robots_line (st : Agents * list str) (line : str)
  : Agents * list str :=
  let (agents, currentAgents) := st in
  if negb (nonEmpty line) || startsWith line "#" then st else
  match cut_colon line with
  | (_, None) => st
  | (rawKey, Some rest) =>
      if negb (nonEmpty rawKey) then st else
      let key := toLowerCase (trim rawKey) in
      let value := trim rest in
      if str_eqb key "user-agent" then
        let currentAgents := [toLowerCase value] in
        let agents :=
          match map_get (toLowerCase value) agents with
          | Some _ => agents
          | None => map_set (toLowerCase value) [] agents
          end in
        (agents, currentAgents)
      else if str_eqb key "disallow" then
        match currentAgents with
        | [] => (push_rule "*" value agents, currentAgents)
        | _ :: _ =>
            (fold_left (fun ag a => push_rule a value ag) currentAgents agents,
             currentAgents)
        end
      else st
  end.

(** The parsing loop of [fetchRobots] on the trimmed lines. *)
Definition parse_lines (lines : list str) : Agents :=
  fst (fold_left robots_line lines ([], [])).

(** The lines of the text of robots.txt, parsed. *)
Definition parse_robots (text : str) : Agents :=
  let lines := map trim (split_lines text) in
  parse_lines lines.

(** [if (agentKeys.includes(name)) agents[name].forEach(p =>
    result.disallow.add(p))]; [None] stands for the [TypeError] of a
    missing property. *)
Definition add_rules_of (name : str) (agents : Agents) (result : list str)
  : option (list str) :=
  let agentKeys := map toLowerCase (map_keys agents) in
  if includes agentKeys name then
    match map_get name agents with
    | Some rules => Some (fold_left (fun acc p => set_add p acc) rules result)
    | None => None
    end
  else Some result.

(** The selection of the rules at the end of [fetchRobots]. *)
Definition robots_of_agents (agents : Agents) : Robots :=
  match add_rules_of "sitemap-generator" agents [] with
  | None => {| disallow := [] |}
  | Some result =>
      match add_rules_of "*" agents result with
      | None => {| disallow := [] |}
      | Some result => {| disallow := result |}
      end
  end.

(** The part of [fetchRobots] after the response has arrived. *)
Definition robots_of_text (text : str) : Robots :=
  robots_of_agents (parse_robots text).

(** [fetchRobots(baseUrl)] *)
Definition fetchRobots (net : Network) (baseUrl : str) : Robots :=
  match new_URL_base "/robots.txt" baseUrl with
  | None => {| disallow := [] |}
  | Some u =>
      match axios_get net (url_toString u) with
      | Rejected => {| disallow := [] |}
      | Resolved _ data => robots_of_text data
      end
  end.

(** The loop of [isPathAllowed] over the patterns of the set. *)
Fixpoint path_allowed_loop (path : str) (patterns : list str) : bool :=
  match patterns with
  | [] => true
  | pattern :: rest =>
      if negb (nonEmpty pattern) then path_allowed_loop path rest
      else if startsWith path pattern then false
      else path_allowed_loop path rest
  end.

(** [isPathAllowed(path, robots)] *)
Definition isPathAllowed (path : str) (robots : Robots) : bool :=
  path_allowed_loop path (disallow robots).

End Server.

(* ------------------------------------------------------------------ *)
(** ** [server.js]: CORS origins *)
(* ------------------------------------------------------------------ *)

(** [ALLOWED_ORIGINS], from the value of the environment variable
    ([None] when it is not set). *)
Definition allowedOrigins (env : option str) : list str :=
  let value := match truthy env with Some s => s | None => [] end in
  filter nonEmpty (map trim (split_on "," value)).

(** The class [[a-z0-9-]] under the flag [i]. *)
Definition origin_label_char (c : ascii) : bool :=
  let n := N_of_ascii c in
  ((97 <=? n)%N && (n <=? 122)%N) || ((65 <=? n)%N && (n <=? 90)%N)
  || ((48 <=? n)%N && (n <=? 57)%N) || Ascii.eqb c "-".

(** The longest prefix matched by [[a-z0-9-]*], and the rest. *)
Fixpoint span_label (s : str) : str * str :=
  match s with
  | c :: s' =>
      if origin_label_char c
      then let (label, rest) := span_label s' in (c :: label, rest)
      else ([], s)
  | [] => ([], [])
  end.

(** [/^https:\/\/[a-z0-9-]+\.vercel\.app$/i.test(origin)] *)
Definition vercel_preview_test (origin : str) : bool :=
  str_eqb (toLowerCase (firstn 8 origin)) "https://"
  && (let (label, rest) := span_label (skipn 8 origin) in
      nonEmpty label && str_eqb (toLowerCase rest) ".vercel.app").

(** [isAllowedOrigin(origin)]; [None] is a request without [Origin]
    header. *)
Definition isAllowedOrigin (ALLOWED_ORIGINS : list str) (origin : option str)
  : bool :=
  match truthy origin with
  | None => true
  | Some o =>
      if includes ALLOWED_ORIGINS o then true
      else if vercel_preview_test o then true
      else false
  end.

(* ------------------------------------------------------------------ *)
(** ** [server.js]: the crawler *)
(* ------------------------------------------------------------------ *)

(** The [action] of a debug record, with the extra fields it carries.
    The [message] of a [fetch-error] record is not kept. *)
Inductive DebugAction :=
| skipped_resource
| disallowed_by_robots (path : str)
| invalid_url
| fetching
| non_2xx_status (status : Z)
| duplicate_content (canonical : option str)
| fetched (contentHash : str)
| discovered_from (discoveredFrom : str)
| fetch_error.

Record DebugEntry := {
  d_url : str;
  d_normalized : str;
  d_action : DebugAction
}.

(** The local variables of [crawlWebsite] that the loop changes. *)
Record CrawlState := mkState {
  visited : list str;
  discovered : list str;
  queue : list str;
  debug : list DebugEntry;
  contentHashes : list (str * str)
}.

(** The [stats] object; [crawlTimeSeconds], a wall-clock reading, is
    left out. *)
Record CrawlStats := {
  urlsDiscovered : nat;
  urlsInSitemap : nat
}.

(** The object returned by [crawlWebsite]. *)
Record CrawlResult := {
  r_discovered : list str;
  r_visited : list str;
  r_stats : CrawlStats;
  r_debug : option (list DebugEntry)
}.

Section Crawl.
Context {P : Platform} (net : Network).

Section Loop.
Variables (startHost : str) (robots : Robots) (maxPages : nat)
          (includeDebug : bool).

(** [if (includeDebug) debug.push(e)] *)
Definition trace (url normalized : str) (a : DebugAction) (st : CrawlState)
  : CrawlState :=
  if includeDebug then
    mkState (visited st) (discovered st) (queue st)
            (debug st ++ [{| d_url := url; d_normalized := normalized;
                             d_action := a |}])
            (contentHashes st)
  else st.

(** [discovered.add(n)] *)
Definition discover (n : str) (st : CrawlState) : CrawlState :=
  mkState (visited st) (set_add n (discovered st)) (queue st) (debug st)
          (contentHashes st).

(** [queue.push(u)] *)
Definition enqueue (u : str) (st : CrawlState) : CrawlState :=
  mkState (visited st) (discovered st) (queue st ++ [u]) (debug st)
          (contentHashes st).

(** [visited.add(n)] *)
Definition visit (n : str) (st : CrawlState) : CrawlState :=
  mkState (set_add n (visited st)) (discovered st) (queue st) (debug st)
          (contentHashes st).

(** [contentHashes.set(hash, n)] *)
Definition remember (hash n : str) (st : CrawlState) : CrawlState :=
  mkState (visited st) (discovered st) (queue st) (debug st)
          (map_set hash n (contentHashes st)).

(** The callback of [$('a[href]').each], for one [href]. *)
Definition extract_link (current normalizedCurrent : str)
    (st : CrawlState) (href : str) : CrawlState :=
  match truthy (resolveLink href current) with
  | None => st
  | Some resolved =>
      if negb (isInternalLink resolved startHost) then st
      else if isSkippableResource resolved then st
      else match truthy (normalizeUrl resolved) with
           | None => st
           | Some n =>
               if negb (set_has n (discovered st)) then
                 trace resolved n (discovered_from normalizedCurrent)
                       (enqueue resolved (discover n st))
               else st
           end
  end.

(** The body of the [while] loop after [queue.shift()] has removed
    [current]. *)
Definition process (current : str) (st : CrawlState) : CrawlState :=
  match truthy (normalizeUrl current) with
  | None => st
  | Some normalizedCurrent =>
      if set_has normalizedCurrent (visited st) then st
      else if isSkippableResource current then
        trace current normalizedCurrent skipped_resource
              (discover normalizedCurrent st)
      else
        match new_URL current with
        | None =>
            trace current normalizedCurrent invalid_url
                  (discover normalizedCurrent st)
        | Some u =>
            if negb (isPathAllowed (url_pathname u) robots) then
              trace current normalizedCurrent
                    (disallowed_by_robots (url_pathname u))
                    (discover normalizedCurrent st)
            else
              let st := trace current normalizedCurrent fetching st in
              match axiosInstance_get net current with
              | Rejected =>
                  trace current normalizedCurrent fetch_error
                        (discover normalizedCurrent st)
              | Resolved status data =>
                  if (status <? 200)%Z || (300 <=? status)%Z then
                    trace current normalizedCurrent (non_2xx_status status)
                          (discover normalizedCurrent st)
                  else
                    let html := data in
                    let hash := sha256_hex html in
                    if map_has hash (contentHashes st) then
                      trace current normalizedCurrent
                            (duplicate_content
                               (map_get hash (contentHashes st)))
                            (discover normalizedCurrent st)
                    else
                      let st := remember hash normalizedCurrent st in
                      let st := trace current normalizedCurrent
                                      (fetched (firstn 8 hash)) st in
                      let st := fold_left
                                  (extract_link current normalizedCurrent)
                                  (cheerio_hrefs html) st in
                      visit normalizedCurrent st
              end
        end
  end.

(** One turn of [while (queue.length > 0 && visited.size < maxPages)];
    [None] when the condition is false. *)
Definition loop_step (st : CrawlState) : option CrawlState :=
  match queue st with
  | [] => None
  | current :: rest =>
      if length (visited st) <? maxPages then
        Some (process current
                (mkState (visited st) (discovered st) rest (debug st)
                         (contentHashes st)))
      else None
  end.

(** At most [n] turns of the loop. *)
Fixpoint run_turns (n : nat) (st : CrawlState) : CrawlState :=
  match n with
  | 0 => st
  | S k =>
      match loop_step st with
      | Some st' => run_turns k st'
      | None => st
      end
  end.

(** The loop variant: pages still allowed, then frontier length. *)
Definition variant (st : CrawlState) : nat * nat :=
  (maxPages - length (visited st), length (queue st)).

Lemma trace_visited url n a st : visited (trace url n a st) = visited st.
Proof. unfold trace; destruct includeDebug; reflexivity. Qed.

Lemma trace_queue url n a st : queue (trace url n a st) = queue st.
Proof. unfold trace; destruct includeDebug; reflexivity. Qed.

Lemma trace_discovered url n a st :
  discovered (trace url n a st) = discovered st.
Proof. unfold trace; destruct includeDebug; reflexivity. Qed.

Lemma trace_contentHashes url n a st :
  contentHashes (trace url n a st) = contentHashes st.
Proof. unfold trace; destruct includeDebug; reflexivity. Qed.

Lemma extract_link_visited current nc st href :
  visited (extract_link current nc st href) = visited st.
Proof.
  unfold extract_link.
  repeat match goal with
         | |- context [match ?x with _ => _ end] => destruct x
         end; rewrite ?trace_visited; reflexivity.
Qed.

Lemma extract_links_visited current nc hrefs st :
  visited (fold_left (extract_link current nc) hrefs st) = visited st.
Proof.
  revert st; induction hrefs as [|h hrefs IH]; intros st; simpl.
  - reflexivity.
  - rewrite IH. apply extract_link_visited.
Qed.

(** A turn either leaves [visited] and the shortened queue as they are,
    or adds one page to [visited]. *)
Lemma process_progress current st :
  (visited (process current st) = visited st /\
   queue (process current st) = queue st)
  \/ length (visited (process current st)) = S (length (visited st)).
Proof.
  unfold process.
  destruct (truthy (normalizeUrl current)) as [nc|]; [|left; split; reflexivity].
  destruct (set_has nc (visited st)) eqn:Hv; [left; split; reflexivity|].
  destruct (isSkippableResource current);
    [left; rewrite trace_visited, trace_queue; split; reflexivity|].
  destruct (new_URL current) as [u|];
    [|left; rewrite trace_visited, trace_queue; split; reflexivity].
  destruct (negb (isPathAllowed (url_pathname u) robots));
    [left; rewrite trace_visited, trace_queue; split; reflexivity|].
  destruct (axiosInstance_get net current) as [status data|];
    [|left; rewrite !trace_visited, !trace_queue; simpl;
      rewrite !trace_visited, !trace_queue; split; reflexivity].
  destruct ((status <? 200)%Z || (300 <=? status)%Z);
    [left; rewrite !trace_visited, !trace_queue; simpl;
      rewrite !trace_visited, !trace_queue; split; reflexivity|].
  rewrite trace_contentHashes.
  destruct (map_has (sha256_hex data) (contentHashes st));
    [left; rewrite !trace_visited, !trace_queue; simpl;
      rewrite !trace_visited, !trace_queue; split; reflexivity|].
  right. simpl. rewrite extract_links_visited, trace_visited. simpl.
  rewrite trace_visited. unfold set_add. rewrite Hv.
  rewrite length_app. simpl. lia.
Qed.

Lemma loop_step_decreases st st' :
  loop_step st = Some st' ->
  Subterm.lexprod _ _ lt lt (variant st') (variant st).
Proof.
  unfold loop_step, variant.
  destruct (queue st) as [|current rest] eqn:Hq; [discriminate|].
  destruct (length (visited st) <? maxPages) eqn:Hlt; [|discriminate].
  intros [= <-]. apply Nat.ltb_lt in Hlt.
  match goal with
  | |- context [process current ?s] =>
      destruct (process_progress current s) as [[Hv Hq']|Hv]
  end.
  - rewrite Hv, Hq'. simpl. apply Subterm.right_lex. lia.
  - rewrite Hv. simpl. apply Subterm.left_lex. lia.
Qed.

(** The [while] loop, run to its end. *)
Equations? crawl_loop (st : CrawlState) : CrawlState
  by wf (variant st) (Subterm.lexprod _ _ lt lt) :=
  crawl_loop st with Logic.inspect (loop_step st) := {
    | exist _ (Some st') Hstep => crawl_loop st';
    | exist _ None _ => st }.
Proof. apply loop_step_decreases; assumption. Qed.

End Loop.

(** The state when the loop is entered: the seed is queued, and recorded
    as discovered when it normalises. *)
Definition initial_state (startUrl : str) : CrawlState :=
  mkState []
          (match truthy (normalizeUrl startUrl) with
           | Some nStart => [nStart]
           | None => []
           end)
          [startUrl] [] [].

(** The states the loop goes through, from [st0]. *)
Inductive reachable (startHost : str) (robots : Robots) (maxPages : nat)
    (includeDebug : bool) (st0 : CrawlState) : CrawlState -> Prop :=
| reach_start : reachable startHost robots maxPages includeDebug st0 st0
| reach_step st st' :
    reachable startHost robots maxPages includeDebug st0 st ->
    loop_step startHost robots maxPages includeDebug st = Some st' ->
    reachable startHost robots maxPages includeDebug st0 st'.

(** [crawlWebsite(startUrl, maxPages, { includeDebug })]; [None] when
    [new URL(startUrl)] throws. *)
Definition crawlWebsite (startUrl : str) (maxPages : nat)
    (includeDebugOpt : option bool) : option CrawlResult :=
  let includeDebug :=
    match includeDebugOpt with Some b => b | None => false end in
  match new_URL startUrl with
  | None => None
  | Some u =>
      let startHost := url_hostname u in
      let st0 := initial_state startUrl in
      let robots := fetchRobots net startUrl in
      let st := crawl_loop startHost robots maxPages includeDebug st0 in
      Some {| r_discovered := filter nonEmpty (discovered st);
              r_visited := filter nonEmpty (visited st);
              r_stats := {| urlsDiscovered := length (discovered st);
                            urlsInSitemap := length (visited st) |};
              r_debug := if includeDebug then Some (debug st) else None |}
  end.

End Crawl.

(* ------------------------------------------------------------------ *)
(** ** [server.js]: the sitemap renderer *)
(* ------------------------------------------------------------------ *)

(** The line feed of the template literals, and the double quote. *)
Definition nl : str := ["010"%char].
Definition dq : str := ["034"%char].

(** The replacement function of [escapeXml], for one character. *)
Definition escape_char (c : ascii) : str :=
  if Ascii.eqb c "<" then "&lt;"
  else if Ascii.eqb c ">" then "&gt;"
  else if Ascii.eqb c "&" then "&amp;"
  else if Ascii.eqb c "034" then "&quot;"
  else if Ascii.eqb c "'" then "&apos;"
  else [c].

(** [escapeXml(unsafe)] *)
Definition escapeXml (unsafe : str) : str := flat_map escape_char unsafe.

(** The [options] argument of [generateSitemapXML]; [None] is a property
    that is [undefined]. *)
Record SitemapOptions := {
  changeFreq : option str;
  priority : option Q;
  includeLastMod : option bool
}.

Section Renderer.
Context {P : Platform} (net : Network).

(** The callback of [urls.map] in [generateSitemapXML]. *)
Definition url_entry (changeFreq : str) (priority : Q)
    (includeLastMod : bool) (lastmod : option str) (loc : str) : str :=
  let entry := "  <url>" ++ nl in
  let entry := entry ++ "    <loc>" ++ escapeXml loc ++ "</loc>" ++ nl in
  let entry :=
    match lastmod with
    | Some d =>
        if includeLastMod && nonEmpty d
        then entry ++ "    <lastmod>" ++ d ++ "</lastmod>" ++ nl
        else entry
    | None => entry
    end in
  let entry :=
    if nonEmpty changeFreq
    then entry ++ "    <changefreq>" ++ changeFreq ++ "</changefreq>" ++ nl
    else entry in
  let entry :=
    entry ++ "    <priority>" ++ numberToString priority ++ "</priority>" ++ nl in
  entry ++ "  </url>".

(** [generateSitemapXML(urls, options)] *)
Definition generateSitemapXML (urls : list str) (options : SitemapOptions)
  : str :=
  let changeFreq :=
    match changeFreq options with Some c => c | None => "weekly" : str end in
  let priority :=
    match priority options with Some p => p | None => (1 # 2)%Q end in
  let includeLastMod :=
    match includeLastMod options with Some b => b | None => false end in
  let lastmod :=
    if includeLastMod then Some (hd [] (split_on "T" (now_iso net)))
    else None in
  let urlEntries :=
    map (url_entry changeFreq priority includeLastMod lastmod) urls in
  "<?xml version=" ++ dq ++ "1.0" ++ dq
  ++ " encoding=" ++ dq ++ "UTF-8" ++ dq ++ "?>" ++ nl
  ++ "<urlset xmlns=" ++ dq
  ++ "http://www.sitemaps.org/schemas/sitemap/0.9" ++ dq ++ ">" ++ nl
  ++ join nl urlEntries
  ++ nl ++ "</urlset>".

End Renderer.

(* ------------------------------------------------------------------ *)
(** ** [security.js]: request validation *)
(* ------------------------------------------------------------------ *)

(** A parsed JSON request body. *)
#[warnings="-register-all"] Inductive JSON :=
| JNull
| JBool (b : bool)
| JNum (q : Q)
| JStr (s : str)
| JArr (items : list JSON)
| JObj (fields : list (str * JSON)).

(** A Zod (version 3) schema applied to the value of a property: the
    input is [None] when the property is [undefined], the result is
    [None] when the schema reports an issue. *)
Definition ZodType (A : Type) := option JSON -> option A.

(** [z.string()] with its chain of checks. *)
Definition z_string (checks : str -> bool) : ZodType str :=
  fun input =>
    match input with
    | Some (JStr s) => if checks s then Some s else None
    | _ => None
    end.

(** [z.enum(values)] *)
Definition z_enum (values : list str) : ZodType str :=
  fun input =>
    match input with
    | Some (JStr s) => if includes values s then Some s else None
    | _ => None
    end.

(** [z.number()] with its chain of checks. *)
Definition z_number (checks : Q -> bool) : ZodType Q :=
  fun input =>
    match input with
    | Some (JNum q) => if checks q then Some q else None
    | _ => None
    end.

(** [z.boolean()] *)
Definition z_boolean : ZodType bool :=
  fun input =>
    match input with
    | Some (JBool b) => Some b
    | _ => None
    end.

(** [inner.default(d)]: an [undefined] input is replaced by [d] before
    [inner] runs. *)
Definition z_default {A : Type} (inner : ZodType A) (d : JSON) : ZodType A :=
  fun input =>
    match input with
    | None => inner (Some d)
    | Some _ => inner input
    end.

(** [inner.optional()]: an [undefined] input is accepted as it is, and
    [inner] does not run on it. *)
Definition z_optional {A : Type} (inner : ZodType A) : ZodType (option A) :=
  fun input =>
    match input with
    | None => Some None
    | Some _ => option_map Some (inner input)
    end.

(** The validated request, [validation.data]. *)
Record SitemapRequest := {
  q_url : str;
  q_changeFreq : option str;
  q_priority : option Q;
  q_includeLastMod : option bool;
  q_includeDebug : option bool
}.

Section Security.
Context {P : Platform}.

(** The alternatives of the private-host regular expression, which is
    anchored at the start and ignores case. *)
Definition privateHostPrefixes : list str :=
  [ "localhost" : str; "127.0.0.1" : str; "192.168." : str; "10." : str;
    "172.16" : str; "172.17" : str; "172.18" : str; "172.19" : str;
    "172.20" : str; "172.21" : str; "172.22" : str; "172.23" : str;
    "172.24" : str; "172.25" : str; "172.26" : str; "172.27" : str;
    "172.28" : str; "172.29" : str; "172.30" : str; "172.31" : str ].

(** The refinement of the [url] field. *)
Definition url_refine (url : str) : bool :=
  match new_URL url with
  | None => false
  | Some parsed =>
      let disallowedProtocols : list str :=
        [ "javascript:" : str; "data:" : str; "vbscript:" : str ] in
      if includes disallowedProtocols (url_protocol parsed) then false
      else if existsb (startsWith (toLowerCase (url_hostname parsed)))
                      privateHostPrefixes
      then false
      else true
  end.

(** [.min(1).max(2048).url().refine(...)] *)
Definition url_checks (s : str) : bool :=
  (1 <=? length s) && (length s <=? 2048)
  && (match new_URL s with Some _ => true | None => false end)
  && url_refine s.

Definition changeFreqValues : list str :=
  [ "always" : str; "hourly" : str; "daily" : str; "weekly" : str;
    "monthly" : str; "yearly" : str; "never" : str ].

(** [.min(0).max(1)] *)
Definition priority_checks (q : Q) : bool :=
  Qle_bool 0 q && Qle_bool q 1.

(** The keys of [SitemapRequestSchema]. *)
Definition schemaKeys : list str :=
  [ "url" : str; "changeFreq" : str; "priority" : str;
    "includeLastMod" : str; "includeDebug" : str ].

(** [SitemapRequestSchema.parse(body)]; [None] when it throws. *)
Definition SitemapRequestSchema (body : JSON) : option SitemapRequest :=
  match body with
  | JObj fields =>
      (* .strict() *)
      if negb (forallb (includes schemaKeys) (map_keys fields)) then None
      else
        match z_string url_checks (map_get "url" fields),
              z_optional (z_default (z_enum changeFreqValues)
                                    (JStr "weekly"))
                         (map_get "changeFreq" fields),
              z_optional (z_default (z_number priority_checks)
                                    (JNum (1 # 2)))
                         (map_get "priority" fields),
              z_optional (z_default z_boolean (JBool true))
                         (map_get "includeLastMod" fields),
              z_optional (z_default z_boolean (JBool false))
                         (map_get "includeDebug" fields)
        with
        | Some url, Some changeFreq, Some priority,
          Some includeLastMod, Some includeDebug =>
            Some {| q_url := url; q_changeFreq := changeFreq;
                    q_priority := priority;
                    q_includeLastMod := includeLastMod;
                    q_includeDebug := includeDebug |}
        | _, _, _, _, _ => None
        end
  | _ => None
  end.

(** [validateSitemapRequest(body)]: [Some data] for [{ valid: true,
    data }], [None] for [{ valid: false, error }]. *)
Definition validateSitemapRequest (body : JSON) : option SitemapRequest :=
  SitemapRequestSchema body.

End Security.

(* ------------------------------------------------------------------ *)
(** ** [security.js]: input sanitization *)
(* ------------------------------------------------------------------ *)

(** [s.replace(re, '')] for a global regular expression that matches
    one character of the class [p]. *)
Definition remove_all (p : ascii -> bool) (s : str) : str :=
  filter (fun c => negb (p c)) s.

(** The class of [/\x00/]. *)
Definition is_nul (c : ascii) : bool := (N_of_ascii c =? 0)%N.

(** The class [[\x01-\x1F]]. *)
Definition is_control (c : ascii) : bool :=
  let n := N_of_ascii c in (1 <=? n)%N && (n <=? 31)%N.

(** [sanitizeString(str)]; a value that is not a string gives the empty
    string. *)
Definition sanitizeString (v : JSON) : str :=
  match v with
  | JStr s => remove_all is_control (remove_all is_nul s)
  | _ => []
  end.

(** [sanitized[key] = value] on the object literal [sanitized].  An
    object is the list of its own enumerable properties, in enumeration
    order; the key [__proto__] reaches the setter of [Object.prototype]
    and creates no property. *)
Definition obj_assign (key : str) (value : JSON) (sanitized : list (str * JSON))
  : list (str * JSON) :=
  if str_eqb key "__proto__" then sanitized else map_set key value sanitized.

(** [sanitizeObject(obj)] *)
Fixpoint sanitizeObject (obj : JSON) : JSON :=
  match obj with
  | JArr items => JArr (map sanitizeObject items)
  | JObj fields =>
      JObj (fold_left
              (fun sanitized kv =>
                 obj_assign (fst kv)
                   (match snd kv with
                    | JStr _ => JStr (sanitizeString (snd kv))
                    | _ => sanitizeObject (snd kv)
                    end)
                   sanitized)
              fields [])
  | _ => obj
  end.


(* ------------------------------------------------------------------ *)
(** ** [server.js]: POST /api/generate-sitemap *)
(* ------------------------------------------------------------------ *)

(** The responses of the route. *)
Inductive HttpResponse :=
| Ok200 (sitemapXML : str) (stats : CrawlStats)
        (debugPayload : option (list DebugEntry))
| BadRequest400
| ServerError500.

Section Routes.
Context {P : Platform} (net : Network).

(** The handler of [app.post('/api/generate-sitemap', ...)], after the
    rate limiter. *)
Definition generate_sitemap (body : JSON) : HttpResponse :=
  match validateSitemapRequest body with
  | None => BadRequest400
  | Some data =>
      match new_URL (q_url data) with
      | None => ServerError500
      | Some parsed =>
          let startUrl := url_toString parsed in
          match crawlWebsite net startUrl 50 (q_includeDebug data) with
          | None => ServerError500
          | Some result =>
              let sitemapUrls := firstn 50 (r_visited result) in
              let sitemapXML :=
                generateSitemapXML net sitemapUrls
                  {| changeFreq := q_changeFreq data;
                     priority := q_priority data;
                     includeLastMod := q_includeLastMod data |} in
              Ok200 sitemapXML (r_stats result)
                    (match q_includeDebug data with
                     | Some true => r_debug result
                     | _ => None
                     end)
          end
      end
  end.

(** The handler of [app.post('/api/download-sitemap', ...)]: on success
    the body is the sitemap and the statistics travel in headers. *)
Definition download_sitemap (body : JSON) : HttpResponse :=
  match validateSitemapRequest body with
  | None => BadRequest400
  | Some data =>
      match new_URL (q_url data) with
      | None => ServerError500
      | Some parsed =>
          let startUrl := url_toString parsed in
          match crawlWebsite net startUrl 50 None with
          | None => ServerError500
          | Some result =>
              let sitemapUrls := firstn 50 (r_visited result) in
              let sitemapXML :=
                generateSitemapXML net sitemapUrls
                  {| changeFreq := q_changeFreq data;
                     priority := q_priority data;
                     includeLastMod := q_includeLastMod data |} in
              Ok200 sitemapXML (r_stats result) None
          end
      end
  end.

End Routes.

(* ------------------------------------------------------------------ *)
(** ** A model of the WHATWG URL class *)
(* ------------------------------------------------------------------ *)

(** An executable model of the URL standard for what the crawler meets:
    [http] and [https] URLs written [scheme://host[:port][/path][?query]
    [#fragment]] with characters that the parser keeps as they are
    (letters, digits and [-._~!$&()*+,;=:@%/?#]), a host made of DNS
    labels, no credentials.  Inside this fragment the functions follow
    the standard step by step (case folding of scheme and host, removal
    of a default port, dot segments, the [application/x-www-form-
    urlencoded] parser and serialiser behind [searchParams]); every
    other input is reported as a parse failure.  A string stands for its
    UTF-8 bytes. *)
Module Whatwg.

Definition is_digit (c : ascii) : bool :=
  let n := N_of_ascii c in (48 <=? n)%N && (n <=? 57)%N.

Definition is_lower (c : ascii) : bool :=
  let n := N_of_ascii c in (97 <=? n)%N && (n <=? 122)%N.

Definition is_alnum (c : ascii) : bool :=
  is_digit c || is_lower c || is_upper c.

Definition one_of (set : str) (c : ascii) : bool := existsb (Ascii.eqb c) set.

(** The characters of the modelled fragment. *)
Definition url_char (c : ascii) : bool :=
  is_alnum c || one_of "-._~!$&()*+,;=:@%/?#" c.

(** The URL record: scheme, host, port ([[]] for null), path, query,
    the list of the [URLSearchParams] object, fragment. *)
Record url := mkUrl {
  scheme : str;
  host : str;
  port : str;
  path : str;
  query : option str;
  params : list (str * str);
  fragment : option str
}.

(** The text before the first character satisfying [stop], and the
    rest, which starts with that character. *)
Fixpoint break (stop : ascii -> bool) (s : str) : str * str :=
  match s with
  | [] => ([], [])
  | c :: s' =>
      if stop c then ([], s)
      else let (a, b) := break stop s' in (c :: a, b)
  end.

(** *** Host *)

Definition label_ok (l : str) : bool :=
  nonEmpty l
  && forallb (fun c => is_alnum c || Ascii.eqb c "-") l
  && negb (startsWith l "xn--").

(** A lower-case domain of non-empty labels, without punycode labels,
    whose last label does not start like a number. *)
Definition valid_host (h : str) : bool :=
  let labels := split_on "." h in
  forallb label_ok labels
  && negb (is_digit (hd "a"%char (last labels [])))
  && negb (existsb is_upper h).

(** *** Port *)

Definition default_port (scheme : str) : str :=
  if str_eqb scheme "http" then "80" else "443".

Definition digits_value (s : str) : N :=
  fold_left (fun acc c => (acc * 10 + (N_of_ascii c - 48))%N) s 0%N.

Fixpoint strip_zeros (s : str) : str :=
  match s with
  | c :: (_ :: _) as s' => if Ascii.eqb c "0" then strip_zeros s' else s
  | _ => s
  end.

(** The port state: digits, at most 65535, printed without leading
    zeros, null when it is the default port of the scheme. *)
Definition parse_port (scheme p : str) : option str :=
  if negb (forallb is_digit p) then None
  else if negb (nonEmpty p) then Some []
  else if (65535 <? digits_value p)%N then None
  else let c := strip_zeros p in
       if str_eqb c (default_port scheme) then Some [] else Some c.

(** *** Path *)

Definition single_dot (seg : str) : bool :=
  let l := toLowerCase seg in str_eqb l "." || str_eqb l "%2e".

Definition double_dot (seg : str) : bool :=
  let l := toLowerCase seg in
  str_eqb l ".." || str_eqb l ".%2e" || str_eqb l "%2e." || str_eqb l "%2e%2e".

(** The path state on the segments of the input; [acc] is the path built
    so far. *)
Fixpoint resolve_dots (acc segs : list str) : list str :=
  match segs with
  | [] => acc
  | s :: rest =>
      match rest with
      | [] =>
          if double_dot s then removelast acc ++ [[]]
          else if single_dot s then acc ++ [[]]
          else acc ++ [s]
      | _ :: _ =>
          if double_dot s then resolve_dots (removelast acc) rest
          else if single_dot s then resolve_dots acc rest
          else resolve_dots (acc ++ [s]) rest
      end
  end.

Definition drop_slash (s : str) : str :=
  match s with
  | c :: s' => if Ascii.eqb c "/" then s' else s
  | [] => []
  end.

Definition path_of_segments (segs : list str) : str := "/" ++ join "/" segs.

(** Path start state and path state: the pathname for the raw path
    [raw], continuing from the segments [acc]. *)
Definition parse_path_from (acc : list str) (raw : str) : str :=
  path_of_segments (resolve_dots acc (split_on "/" raw)).

Definition parse_path (raw : str) : str :=
  parse_path_from [] (drop_slash raw).

(** *** Query: application/x-www-form-urlencoded *)

Definition hex_val (c : ascii) : option N :=
  let n := N_of_ascii c in
  if is_digit c then Some (n - 48)%N
  else if (97 <=? n)%N && (n <=? 102)%N then Some (n - 87)%N
  else if (65 <=? n)%N && (n <=? 70)%N then Some (n - 55)%N
  else None.

Fixpoint percent_decode (s : str) : str :=
  match s with
  | [] => []
  | c :: s' =>
      if Ascii.eqb c "%" then
        match s' with
        | a :: b :: rest =>
            match hex_val a, hex_val b with
            | Some x, Some y => ascii_of_N (16 * x + y) :: percent_decode rest
            | _, _ => c :: percent_decode s'
            end
        | _ => c :: percent_decode s'
        end
      else c :: percent_decode s'
  end.

Definition plus_to_space (s : str) : str :=
  map (fun c => if Ascii.eqb c "+" then " "%char else c) s.

Definition parse_pair (piece : str) : str * str :=
  let (n, v) := break (fun c => Ascii.eqb c "=") piece in
  (percent_decode (plus_to_space n),
   percent_decode (plus_to_space (tl v))).

(** The urlencoded parser. *)
Definition parse_query (q : str) : list (str * str) :=
  map parse_pair (filter nonEmpty (split_on "&" q)).

Definition form_safe (c : ascii) : bool := is_alnum c || one_of "*-._" c.

Definition hex_digit (n : N) : ascii :=
  nth (N.to_nat n) ("0123456789ABCDEF" : str) "0"%char.

Definition form_encode_char (c : ascii) : str :=
  if form_safe c then [c]
  else if Ascii.eqb c " " then "+"
  else let n := N_of_ascii c in
       ["%"%char; hex_digit (n / 16); hex_digit (n mod 16)].

Definition form_encode (s : str) : str := flat_map form_encode_char s.

(** The urlencoded serialiser. *)
Definition serialize_params (l : list (str * str)) : str :=
  join "&" (map (fun kv => form_encode (fst kv) ++ "=" ++ form_encode (snd kv)) l).

(** *** Parser and serialiser *)

(** Query and fragment of the text that follows the path. *)
Definition parse_tail (rest : str) : option str * option str :=
  let (q, f) :=
    match rest with
    | c :: r =>
        if Ascii.eqb c "?" then
          let (q, f) := break (fun c => Ascii.eqb c "#") r in (Some q, f)
        else (None, rest)
    | [] => (None, rest)
    end in
  (q, match f with _ :: f' => Some f' | [] => None end).

Definition params_of (q : option str) : list (str * str) :=
  match q with Some q => parse_query q | None => [] end.

(** The text after [scheme:]: two slashes, authority, path, query and
    fragment. *)
Definition parse_after_scheme (sch rest : str) : option url :=
  match rest with
  | c1 :: c2 :: rest =>
      if negb (Ascii.eqb c1 "/" && Ascii.eqb c2 "/") then None else
      let (authority, rest) := break (one_of "/?#") rest in
      if existsb (fun c => Ascii.eqb c "@") authority then None else
      let (h, p) := break (fun c => Ascii.eqb c ":") authority in
      let h := toLowerCase h in
      if negb (valid_host h) then None else
      match parse_port sch (tl p) with
      | None => None
      | Some prt =>
          let (rawpath, rest) := break (one_of "?#") rest in
          let (q, f) := parse_tail rest in
          Some (mkUrl sch h prt (parse_path rawpath) q (params_of q) f)
      end
  | _ => None
  end.

Definition special_scheme (sch : str) : bool :=
  str_eqb sch "http" || str_eqb sch "https".

(** [new URL(input)] *)
Definition parse (input : str) : option url :=
  if negb (forallb url_char input) then None else
  let (sch, rest) := break (fun c => Ascii.eqb c ":") input in
  let sch := toLowerCase sch in
  if negb (special_scheme sch) then None else
  match rest with
  | _ :: rest => parse_after_scheme sch rest
  | [] => None
  end.

(** [url.href], [url.toString()] *)
Definition href (u : url) : str :=
  scheme u ++ "://" ++ host u
  ++ (if nonEmpty (port u) then ":" ++ port u else [])
  ++ path u
  ++ (match query u with Some q => "?" ++ q | None => [] end)
  ++ (match fragment u with Some f => "#" ++ f | None => [] end).

(** The input starts with a scheme and a colon. *)
Definition has_scheme (input : str) : bool :=
  match input with
  | c :: _ =>
      (is_lower c || is_upper c)
      && (let (s, rest) := break (fun c => Ascii.eqb c ":") input in
          forallb (fun c => is_alnum c || one_of "+-." c) s && nonEmpty rest)
  | [] => false
  end.

(** [new URL(input, base)]: an absolute input is parsed on its own; a
    relative one takes scheme, then authority, then path, then query
    from the base, as far as it does not give them. *)
Definition parse_with_base (input base : str) : option url :=
  match parse base with
  | None => None
  | Some b =>
      if negb (forallb url_char input) then None
      else if has_scheme input then parse input
      else
        match input with
        | [] => Some (mkUrl (scheme b) (host b) (port b) (path b) (query b)
                            (params b) None)
        | c :: r =>
            if Ascii.eqb c "/" then
              if startsWith r "/" then parse (scheme b ++ ":" ++ input)
              else
                let (rawpath, rest) := break (one_of "?#") input in
                let (q, f) := parse_tail rest in
                Some (mkUrl (scheme b) (host b) (port b) (parse_path rawpath)
                            q (params_of q) f)
            else if Ascii.eqb c "?" then
              let (q, f) := parse_tail input in
              Some (mkUrl (scheme b) (host b) (port b) (path b) q
                          (params_of q) f)
            else if Ascii.eqb c "#" then
              Some (mkUrl (scheme b) (host b) (port b) (path b) (query b)
                          (params b) (Some r))
            else
              let (rawpath, rest) := break (one_of "?#") input in
              let (q, f) := parse_tail rest in
              let base_segs := removelast (split_on "/" (drop_slash (path b))) in
              Some (mkUrl (scheme b) (host b) (port b)
                          (parse_path_from base_segs rawpath)
                          q (params_of q) f)
        end
  end.

(** *** Getters and setters *)

Definition protocol (u : url) : str := scheme u ++ ":".

Definition search (u : url) : str :=
  match query u with
  | Some (c :: q) => "?" ++ c :: q
  | _ => []
  end.

(** [url.hash = v] *)
Definition set_hash (v : str) (u : url) : url :=
  mkUrl (scheme u) (host u) (port u) (path u) (query u) (params u)
        (match v with
         | [] => None
         | c :: v' => Some (if Ascii.eqb c "#" then v' else v)
         end).

(** [url.protocol = v]: the scheme up to the first colon; a scheme that
    is not special is refused, a port that is the default of the new
    scheme becomes null. *)
Definition set_protocol (v : str) (u : url) : url :=
  let sch := toLowerCase (fst (break (fun c => Ascii.eqb c ":") v)) in
  if special_scheme sch then
    mkUrl sch (host u)
          (if str_eqb (port u) (default_port sch) then [] else port u)
          (path u) (query u) (params u) (fragment u)
  else u.

(** [url.hostname = v]: a value that is not a valid host is refused. *)
Definition set_hostname (v : str) (u : url) : url :=
  let h := toLowerCase v in
  if valid_host h
  then mkUrl (scheme u) h (port u) (path u) (query u) (params u) (fragment u)
  else u.

(** [url.port = v] *)
Definition set_port (v : str) (u : url) : url :=
  match v with
  | [] => mkUrl (scheme u) (host u) [] (path u) (query u) (params u)
                (fragment u)
  | _ :: _ =>
      match parse_port (scheme u) v with
      | Some p => mkUrl (scheme u) (host u) p (path u) (query u) (params u)
                        (fragment u)
      | None => u
      end
  end.

(** [url.search = v]: the empty string makes the query null and empties
    the list of [searchParams]. *)
Definition set_search (v : str) (u : url) : url :=
  match v with
  | [] => mkUrl (scheme u) (host u) (port u) (path u) None [] (fragment u)
  | c :: v' =>
      let q := if Ascii.eqb c "?" then v' else v in
      mkUrl (scheme u) (host u) (port u) (path u) (Some q) (parse_query q)
            (fragment u)
  end.

(** In a pathname given to the setter, [?] and [#] are percent-encoded. *)
Definition encode_path_char (c : ascii) : str :=
  if Ascii.eqb c "?" then "%3F"
  else if Ascii.eqb c "#" then "%23"
  else [c].

(** [url.pathname = v] *)
Definition set_pathname (v : str) (u : url) : url :=
  mkUrl (scheme u) (host u) (port u)
        (parse_path (flat_map encode_path_char v))
        (query u) (params u) (fragment u).

(** [url.searchParams.append(k, v)]: the pair joins the list and the
    query becomes the serialisation of the list. *)
Definition append (k v : str) (u : url) : url :=
  let l := params u ++ [(k, v)] in
  mkUrl (scheme u) (host u) (port u) (path u) (Some (serialize_params l)) l
        (fragment u).

(** [a.localeCompare(b)], as the order of the character codes. *)
Fixpoint compare_str (a b : str) : Z :=
  match a, b with
  | [], [] => 0
  | [], _ :: _ => -1
  | _ :: _, [] => 1
  | x :: a', y :: b' =>
      if (N_of_ascii x <? N_of_ascii y)%N then -1
      else if (N_of_ascii y <? N_of_ascii x)%N then 1
      else compare_str a' b'
  end.

(** The runtime with this URL class; hashing, HTML parsing and number
    printing stay parameters. *)
Definition platform (hash : str -> str) (hrefs : str -> list str)
    (num : Q -> str) (num_ok : forall q, ~ In "<"%char (num q)) : Platform :=
  {| URL := url;
     new_URL := parse;
     new_URL_base := parse_with_base;
     url_protocol := protocol;
     url_hostname := host;
     url_port := port;
     url_pathname := path;
     url_search := search;
     url_set_hash := set_hash;
     url_set_protocol := set_protocol;
     url_set_hostname := set_hostname;
     url_set_port := set_port;
     url_set_search := set_search;
     url_set_pathname := set_pathname;
     searchParams_entries := params;
     searchParams_append := append;
     url_toString := href;
     localeCompare := compare_str;
     sha256_hex := hash;
     cheerio_hrefs := hrefs;
     numberToString := num;
     numberToString_no_lt := num_ok |}.

End Whatwg.

(* ================================================================== *)
(** * Properties *)
(* ================================================================== *)

(* ------------------------------------------------------------------ *)
(** ** Sets and maps *)
(* ------------------------------------------------------------------ *)

Lemma set_has_true x s : set_has x s = true <-> In x s.
Proof. unfold set_has; destruct (in_dec str_eq_dec x s); split; intros; try discriminate; tauto. Qed.

Lemma set_has_false x s : set_has x s = false <-> ~ In x s.
Proof. unfold set_has; destruct (in_dec str_eq_dec x s); split; intros; try discriminate; tauto. Qed.

Lemma set_add_In x y s : In y (set_add x s) <-> y = x \/ In y s.
Proof.
  unfold set_add. destruct (set_has x s) eqn:H.
  - apply set_has_true in H. split; [tauto|]. intros [->|]; assumption.
  - rewrite in_app_iff. simpl. split; intros; intuition congruence.
Qed.

Lemma set_add_incl x s : incl s (set_add x s).
Proof. intros y Hy. apply set_add_In. tauto. Qed.

Lemma set_add_NoDup x s : NoDup s -> NoDup (set_add x s).
Proof.
  intros Hs. unfold set_add. destruct (set_has x s) eqn:H; [assumption|].
  apply set_has_false in H. apply NoDup_app; [assumption|repeat constructor; tauto|].
  intros y Hy [<-|[]]. tauto.
Qed.


(* ------------------------------------------------------------------ *)
(** ** The crawl loop, turn by turn *)
(* ------------------------------------------------------------------ *)

Section CrawlFacts.
Context {P : Platform} (net : Network).
Variables (startHost : str) (robots : Robots) (maxPages : nat)
          (includeDebug : bool).

Local Abbreviation tr := (trace includeDebug).
Local Abbreviation xlink := (extract_link startHost includeDebug).
Local Abbreviation proc := (process net startHost robots includeDebug).
Local Abbreviation step := (loop_step net startHost robots maxPages includeDebug).
Local Abbreviation loop := (crawl_loop net startHost robots maxPages includeDebug).
Local Abbreviation reach := (reachable net startHost robots maxPages includeDebug).

Lemma truthy_Some o n : truthy o = Some n -> o = Some n /\ n <> [].
Proof.
  destruct o as [[|c s]|]; simpl; intros H; try discriminate.
  injection H as <-. split; [reflexivity|discriminate].
Qed.

(** The frontier holds no two entries with the same normal form, and the
    normal form of each entry is recorded as discovered. *)
Definition frontier_ok (q d : list str) : Prop :=
  NoDup (map normalizeUrl q)
  /\ forall u n, In u q -> truthy (normalizeUrl u) = Some n -> In n d.

(** What one link does to the state. *)
Lemma extract_link_cases current nc st href :
  xlink current nc st href = st
  \/ exists resolved n,
       truthy (normalizeUrl resolved) = Some n
       /\ ~ In n (discovered st)
       /\ visited (xlink current nc st href) = visited st
       /\ contentHashes (xlink current nc st href) = contentHashes st
       /\ discovered (xlink current nc st href) = discovered st ++ [n]
       /\ queue (xlink current nc st href) = queue st ++ [resolved].
Proof.
  unfold extract_link.
  destruct (truthy (resolveLink href current)) as [resolved|]; [|left; reflexivity].
  destruct (negb (isInternalLink resolved startHost)); [left; reflexivity|].
  destruct (isSkippableResource resolved); [left; reflexivity|].
  destruct (truthy (normalizeUrl resolved)) as [n|] eqn:Hn; [|left; reflexivity].
  destruct (set_has n (discovered st)) eqn:Hd; [left; reflexivity|].
  right. exists resolved, n. apply set_has_false in Hd. cbn [negb].
  rewrite trace_visited, trace_contentHashes, trace_discovered, trace_queue.
  simpl. unfold set_add. rewrite (proj2 (set_has_false _ _) Hd). tauto.
Qed.

(** What the links of one page do to the state: [visited] and the
    content hashes stay, [discovered] grows, and the frontier receives
    entries whose normal forms were not discovered before. *)
Lemma extract_links_spec current nc hrefs st :
  let st' := fold_left (xlink current nc) hrefs st in
  visited st' = visited st
  /\ contentHashes st' = contentHashes st
  /\ incl (discovered st) (discovered st')
  /\ exists new,
       queue st' = queue st ++ new
       /\ Forall (fun u => exists n, truthy (normalizeUrl u) = Some n
                                      /\ ~ In n (discovered st)) new
       /\ (frontier_ok (queue st) (discovered st) ->
           frontier_ok (queue st') (discovered st')).
Proof.
  revert st. induction hrefs as [|h hrefs IH]; intros st; simpl.
  - split; [reflexivity|split; [reflexivity|split; [apply incl_refl|]]].
    exists []. rewrite app_nil_r.
    split; [reflexivity|split; [constructor|tauto]].
  - specialize (IH (xlink current nc st h)). simpl in IH.
    destruct IH as (Hv & Hc & Hd & new & Hq & Hnew & Hok).
    destruct (extract_link_cases current nc st h)
      as [E|(resolved & n & Hn & Hfresh & Ev & Ec & Ed & Eq)].
    + rewrite E in *.
      split; [assumption|split; [assumption|split; [assumption|]]].
      exists new. split; [assumption|split; assumption].
    + rewrite Hv, Hc, Ev, Ec.
      split; [reflexivity|split; [reflexivity|split]].
      * intros x Hx. apply Hd. rewrite Ed. apply in_or_app; tauto.
      * exists (resolved :: new). split; [|split].
        -- rewrite Hq, Eq, <- app_assoc. reflexivity.
        -- constructor; [exists n; tauto|].
           eapply Forall_impl; [|exact Hnew].
           intros u (m & Hm & Hf). exists m. split; [assumption|].
           intros Hin. apply Hf. rewrite Ed. apply in_or_app; tauto.
        -- intros [Hnd Hin]. apply Hok. rewrite Eq, Ed. split.
           ++ rewrite map_app. simpl. apply NoDup_app; [assumption| |].
              ** repeat constructor. intros [].
              ** intros o Ho [<-|[]].
                 apply in_map_iff in Ho. destruct Ho as (u & Hu & Hin').
                 apply Hfresh. apply (Hin u n Hin'). rewrite Hu. assumption.
           ++ intros u m Hu Hm. apply in_app_iff in Hu.
              apply in_or_app. destruct Hu as [Hu|[<-|[]]].
              ** left. eapply Hin; eassumption.
              ** right. left. congruence.
Qed.

(** The three outcomes of a turn for the dequeued [current]: nothing
    changes; its normal form is recorded as discovered; or the page is
    fetched, its links are followed and it is visited. *)
Lemma process_cases current st :
  proc current st = st
  \/ (exists nc,
        truthy (normalizeUrl current) = Some nc
        /\ visited (proc current st) = visited st
        /\ queue (proc current st) = queue st
        /\ contentHashes (proc current st) = contentHashes st
        /\ discovered (proc current st) = set_add nc (discovered st))
  \/ (exists nc status data st1,
        truthy (normalizeUrl current) = Some nc
        /\ ~ In nc (visited st)
        /\ axiosInstance_get net current = Resolved status data
        /\ map_has (sha256_hex data) (contentHashes st) = false
        /\ visited st1 = visited st
        /\ queue st1 = queue st
        /\ discovered st1 = discovered st
        /\ contentHashes st1 = map_set (sha256_hex data) nc (contentHashes st)
        /\ proc current st
           = visit nc (fold_left (xlink current nc)
                                 (cheerio_hrefs data) st1)).
Proof.
  unfold process.
  destruct (truthy (normalizeUrl current)) as [nc|] eqn:Hn; [|left; reflexivity].
  destruct (set_has nc (visited st)) eqn:Hv; [left; reflexivity|].
  apply set_has_false in Hv.
  assert (Hdisc : forall a st1,
             visited st1 = visited st -> queue st1 = queue st ->
             contentHashes st1 = contentHashes st ->
             discovered st1 = discovered st ->
             let r := tr current nc a (discover nc st1) in
             visited r = visited st /\ queue r = queue st
             /\ contentHashes r = contentHashes st
             /\ discovered r = set_add nc (discovered st)).
  { intros a st1 E1 E2 E3 E4. simpl.
    rewrite trace_visited, trace_queue, trace_contentHashes, trace_discovered.
    simpl. rewrite E1, E2, E3, E4. tauto. }
  destruct (isSkippableResource current);
    [right; left; exists nc; split; [reflexivity|apply Hdisc; reflexivity]|].
  destruct (new_URL current) as [u|];
    [|right; left; exists nc; split; [reflexivity|apply Hdisc; reflexivity]].
  destruct (negb (isPathAllowed (url_pathname u) robots));
    [right; left; exists nc; split; [reflexivity|apply Hdisc; reflexivity]|].
  assert (Hf : forall st0, st0 = tr current nc fetching st ->
             visited st0 = visited st /\ queue st0 = queue st
             /\ contentHashes st0 = contentHashes st
             /\ discovered st0 = discovered st).
  { intros st0 ->.
    rewrite trace_visited, trace_queue, trace_contentHashes, trace_discovered.
    tauto. }
  destruct (Hf _ eq_refl) as (F1 & F2 & F3 & F4).
  destruct (axiosInstance_get net current) as [status data|] eqn:Hget;
    [|right; left; exists nc; split; [reflexivity|apply Hdisc; assumption]].
  destruct ((status <? 200)%Z || (300 <=? status)%Z);
    [right; left; exists nc; split; [reflexivity|apply Hdisc; assumption]|].
  rewrite F3.
  destruct (map_has (sha256_hex data) (contentHashes st)) eqn:Hh;
    [right; left; exists nc; split; [reflexivity|apply Hdisc; assumption]|].
  right; right.
  exists nc, status, data.
  exists (tr current nc (fetched (firstn 8 (sha256_hex data)))
             (remember (sha256_hex data) nc (tr current nc fetching st))).
  rewrite trace_visited, trace_queue, trace_discovered, trace_contentHashes.
  simpl. rewrite F1, F2, F3, F4. tauto.
Qed.

(** The loop ends in a state that was reached turn by turn and in which
    the loop condition is false. *)
Lemma crawl_loop_spec st :
  reach st (loop st) /\ step (loop st) = None.
Proof.
  funelim (loop st).
  - destruct H as [Hr Hn]. split; [|exact Hn].
    clear Heqcall Hn.
    induction Hr as [|a b Hab IH Hs].
    + eapply reach_step; [apply reach_start|eassumption].
    + eapply reach_step; eassumption.
  - split; [apply reach_start|assumption].
Qed.

Lemma step_inv st st' :
  step st = Some st' ->
  exists current rest,
    queue st = current :: rest
    /\ length (visited st) < maxPages
    /\ st' = proc current (mkState (visited st) (discovered st) rest
                                   (debug st) (contentHashes st)).
Proof.
  unfold loop_step. destruct (queue st) as [|current rest]; [discriminate|].
  destruct (length (visited st) <? maxPages) eqn:Hlt; [|discriminate].
  intros [= <-]. exists current, rest. apply Nat.ltb_lt in Hlt. tauto.
Qed.

(** The state invariant of the loop: the page cap, the frontier
    discipline, visited pages are discovered, and no visited entry is
    the empty string. *)
Definition crawl_inv (st : CrawlState) : Prop :=
  length (visited st) <= maxPages
  /\ frontier_ok (queue st) (discovered st)
  /\ incl (visited st) (discovered st)
  /\ ~ In [] (visited st).

Lemma crawl_inv_start startUrl : crawl_inv (initial_state startUrl).
Proof.
  unfold crawl_inv, initial_state, frontier_ok; simpl.
  split; [lia|]. split; [|split; [intros x []|tauto]].
  split; [repeat constructor; tauto|].
  intros u n [<-|[]] Hn. rewrite Hn. left; reflexivity.
Qed.

Lemma frontier_ok_tail current rest d :
  frontier_ok (current :: rest) d -> frontier_ok rest d.
Proof.
  intros [Hnd Hin]. split.
  - simpl in Hnd. inversion Hnd; assumption.
  - intros u n Hu. apply Hin. right; assumption.
Qed.

Lemma frontier_ok_incl q d d' :
  incl d d' -> frontier_ok q d -> frontier_ok q d'.
Proof.
  intros Hdd [Hnd Hin]. split; [assumption|].
  intros u n Hu Hn. apply Hdd. eapply Hin; eassumption.
Qed.

Lemma crawl_inv_step st st' :
  crawl_inv st -> step st = Some st' -> crawl_inv st'.
Proof.
  intros (Hcap & Hfr & Hvd & Hne) Hs.
  destruct (step_inv _ _ Hs) as (current & rest & Hq & Hlt & ->).
  rewrite Hq in Hfr. pose proof (frontier_ok_tail _ _ _ Hfr) as Hfr'.
  match goal with |- crawl_inv (proc current ?s) => set (st1 := s) end.
  destruct (process_cases current st1)
    as [E|[(nc & Hn & Ev & Eq & Ec & Ed)
          |(nc & status & data & st2 & Hn & Hnv & Hget & Hh
             & Ev & Eq & Ed & Ec & E)]].
  - rewrite E. unfold crawl_inv, st1; simpl. tauto.
  - unfold crawl_inv. rewrite Ev, Eq, Ed. unfold st1; simpl.
    split; [assumption|]. split; [|split; [|assumption]].
    + eapply frontier_ok_incl; [apply set_add_incl|assumption].
    + intros x Hx. apply set_add_incl. apply Hvd. assumption.
  - destruct (extract_links_spec current nc (cheerio_hrefs data) st2)
      as (Fv & Fc & Fd & new & Fq & Fnew & Fok).
    apply truthy_Some in Hn as Hn'. destruct Hn' as [Hnorm Hnz].
    assert (Hncd : In nc (discovered st)).
    { destruct Hfr as [_ Hin]. apply (Hin current nc); [left; reflexivity|assumption]. }
    rewrite E. unfold crawl_inv. cbn [visit visited discovered queue].
    rewrite Fv, Ev. unfold st1; cbn [visited].
    unfold st1 in Hnv; cbn [visited] in Hnv.
    unfold set_add. rewrite (proj2 (set_has_false _ _) Hnv).
    split; [rewrite length_app; simpl; lia|].
    split; [apply Fok; rewrite Eq, Ed; exact Hfr'|].
    split.
    + intros x Hx. apply Fd. rewrite Ed. unfold st1; simpl.
      apply in_app_iff in Hx. destruct Hx as [Hx|[<-|[]]]; auto.
    + intros Hin. apply in_app_iff in Hin. destruct Hin as [Hin|[Hin|[]]]; auto.
Qed.

Lemma crawl_inv_reachable startUrl st :
  reach (initial_state startUrl) st -> crawl_inv st.
Proof.
  induction 1 as [|a b Hab IH Hs].
  - apply crawl_inv_start.
  - eapply crawl_inv_step; eassumption.
Qed.

Lemma loop_continue st st' : step st = Some st' -> loop st = loop st'.
Proof.
  intros Hs. funelim (loop st).
  - f_equal. congruence.
  - congruence.
Qed.

Lemma loop_exit st : step st = None -> loop st = st.
Proof.
  intros Hs. funelim (loop st).
  - congruence.
  - reflexivity.
Qed.

(** A turn in which the dequeued URL passes every check and its content
    is new ends with the URL visited. *)
Lemma process_fetched current st nc u status data :
  truthy (normalizeUrl current) = Some nc ->
  ~ In nc (visited st) ->
  isSkippableResource current = false ->
  new_URL current = Some u ->
  isPathAllowed (url_pathname u) robots = true ->
  axiosInstance_get net current = Resolved status data ->
  (200 <= status < 300)%Z ->
  map_has (sha256_hex data) (contentHashes st) = false ->
  visited (proc current st) = visited st ++ [nc].
Proof.
  intros Hn Hv Hsk Hu Hal Hget Hst Hh.
  unfold process. rewrite Hn, (proj2 (set_has_false _ _) Hv), Hsk, Hu, Hal.
  cbn [negb]. rewrite Hget.
  replace ((status <? 200)%Z || (300 <=? status)%Z) with false
    by (symmetry; apply orb_false_iff; split;
        [apply Z.ltb_ge|apply Z.leb_gt]; lia).
  rewrite trace_contentHashes, Hh. cbn [visit visited].
  rewrite extract_links_visited, trace_visited. cbn [remember visited].
  rewrite trace_visited. unfold set_add.
  rewrite (proj2 (set_has_false _ _) Hv). reflexivity.
Qed.





Lemma loop_run n st :
  step (run_turns net startHost robots maxPages includeDebug n st) = None ->
  loop st = run_turns net startHost robots maxPages includeDebug n st.
Proof.
  revert st. induction n as [|n IH]; intros st; simpl.
  - apply loop_exit.
  - destruct (step st) as [st'|] eqn:E.
    + intros H. rewrite (loop_continue _ _ E). apply IH. exact H.
    + intros _. apply loop_exit. exact E.
Qed.


Lemma reach_trans a b c : reach a b -> reach b c -> reach a c.
Proof.
  intros Hab Hbc. induction Hbc as [|x y Hbx IH Hs]; [exact Hab|].
  eapply reach_step; eassumption.
Qed.

(** *** Sites whose pages all have the same content *)

Section SameContent.
Variable body : str.
Hypothesis same_content :
  forall u status data,
    axiosInstance_get net u = Resolved status data -> data = body.




End SameContent.

End CrawlFacts.

(* ------------------------------------------------------------------ *)
(** ** The invariants of a crawl *)
(* ------------------------------------------------------------------ *)

Lemma filter_nonEmpty_id (l : list str) : ~ In [] l -> filter nonEmpty l = l.
Proof.
  induction l as [|x l IH]; intros H; simpl; [reflexivity|].
  destruct x as [|c x]; [exfalso; apply H; left; reflexivity|].
  simpl. f_equal. apply IH. intros Hin. apply H. right; assumption.
Qed.

(** The state in which [crawlWebsite] leaves its loop. *)
Lemma crawlWebsite_inv {P : Platform} (net : Network) startUrl maxPages dbg r :
  crawlWebsite net startUrl maxPages dbg = Some r ->
  exists startHost robots includeDebug st,
    reachable net startHost robots maxPages includeDebug
              (initial_state startUrl) st
    /\ loop_step net startHost robots maxPages includeDebug st = None
    /\ r_visited r = visited st
    /\ r_discovered r = filter nonEmpty (discovered st)
    /\ urlsInSitemap (r_stats r) = length (visited st)
    /\ urlsDiscovered (r_stats r) = length (discovered st).
Proof.
  unfold crawlWebsite. destruct (new_URL startUrl) as [u|]; [|discriminate].
  intros [= <-].
  set (b := match dbg with Some b => b | None => false end).
  exists (url_hostname u), (fetchRobots net startUrl), b.
  eexists. cbn [r_visited r_discovered r_stats urlsInSitemap urlsDiscovered].
  destruct (crawl_loop_spec net (url_hostname u) (fetchRobots net startUrl)
              maxPages b (initial_state startUrl)) as [Hr Hn].
  split; [exact Hr|]. split; [exact Hn|].
  split; [|tauto].
  apply filter_nonEmpty_id.
  apply (crawl_inv_reachable net _ _ _ _ _ _ Hr).
Qed.




(** [crawlWebsite] computed by running a number of turns after which the
    loop condition is false. *)
Lemma crawlWebsite_run {P : Platform} (net : Network) startUrl maxPages dbg u n :
  new_URL startUrl = Some u ->
  let b := match dbg with Some b => b | None => false end in
  let st := run_turns net (url_hostname u) (fetchRobots net startUrl)
                      maxPages b n (initial_state startUrl) in
  loop_step net (url_hostname u) (fetchRobots net startUrl) maxPages b st
  = None ->
  crawlWebsite net startUrl maxPages dbg
  = Some {| r_discovered := filter nonEmpty (discovered st);
            r_visited := filter nonEmpty (visited st);
            r_stats := {| urlsDiscovered := length (discovered st);
                          urlsInSitemap := length (visited st) |};
            r_debug := if b then Some (debug st) else None |}.
Proof.
  intros Hu b st Hn. unfold crawlWebsite. rewrite Hu. fold b.
  rewrite (loop_run net _ _ _ _ n _ Hn). reflexivity.
Qed.

Lemma no_lt_check (s : str) :
  existsb (Ascii.eqb "<") s = false -> ~ In "<"%char s.
Proof.
  intros H Hin. assert (existsb (Ascii.eqb "<") s = true); [|congruence].
  apply existsb_exists. exists "<"%char. split; [exact Hin|reflexivity].
Qed.

(** *** A small site, for the examples *)

Module Demo.

(** A printer of the numbers 0, 1/2 and 1, enough for the examples. *)
Definition printNumber (q : Q) : str :=
  if Qeq_bool q 0 then "0" else if Qeq_bool q 1 then "1" else "0.5".

Lemma printNumber_no_lt q : ~ In "<"%char (printNumber q).
Proof.
  unfold printNumber.
  destruct (Qeq_bool q 0); [|destruct (Qeq_bool q 1)];
    apply no_lt_check; reflexivity.
Qed.

(** The links of the seed page of claim C1. *)
Definition seed_links : list str :=
  [ "https://example.com/a" : str; "https://example.com/a#section" : str;
    "http://other.com/b" : str; "https://example.com/logo.png" : str ].

Definition hrefs (html : str) : list str :=
  if str_eqb html "seed page" then seed_links else [].

(** The runtime of the examples: the hash is the identity, which has no
    collisions. *)
Definition runtime : Platform :=
  Whatwg.platform (fun s => s) hrefs printNumber printNumber_no_lt.

Definition clock : str := "2024-05-01T12:00:00.000Z".

Lemma clock_no_lt : ~ In "<"%char clock.
Proof. apply no_lt_check; reflexivity. Qed.

(** A site with a seed page and a page [/a], without robots.txt. *)
Definition site : Network :=
  {| axios_get := fun _ => Rejected;
     axiosInstance_get := fun u =>
       if str_eqb u "https://example.com/" then Resolved 200 "seed page"
       else if str_eqb u "https://example.com/a" then Resolved 200 "page a"
       else Rejected;
     now_iso := clock;
     now_iso_no_lt := clock_no_lt |}.



End Demo.







(* ------------------------------------------------------------------ *)
(** ** The sitemap document *)
(* ------------------------------------------------------------------ *)

(** A text without the character [<]. *)
Definition plain (s : str) : Prop := ~ In "<"%char s.

Lemma plain_app a b : plain a -> plain b -> plain (a ++ b).
Proof. unfold plain. intros Ha Hb Hin. apply in_app_iff in Hin. tauto. Qed.

Lemma plain_escapeXml s : plain (escapeXml s).
Proof.
  unfold plain, escapeXml. intros Hin. apply in_flat_map in Hin.
  destruct Hin as (c & _ & Hc). unfold escape_char in Hc.
  destruct (Ascii.eqb c "<") eqn:E1;
    [revert Hc; apply no_lt_check; reflexivity|].
  destruct (Ascii.eqb c ">");
    [revert Hc; apply no_lt_check; reflexivity|].
  destruct (Ascii.eqb c "&");
    [revert Hc; apply no_lt_check; reflexivity|].
  destruct (Ascii.eqb c "034");
    [revert Hc; apply no_lt_check; reflexivity|].
  destruct (Ascii.eqb c "'");
    [revert Hc; apply no_lt_check; reflexivity|].
  destruct Hc as [Hc|[]]. subst c. discriminate E1.
Qed.

Lemma includes_In arr x : includes arr x = true -> In x arr.
Proof.
  unfold includes. intros H. apply existsb_exists in H.
  destruct H as (y & Hy & E). unfold str_eqb in E.
  destruct (str_eq_dec x y); [subst; assumption|discriminate].
Qed.

Lemma plain_changeFreq c : includes changeFreqValues c = true -> plain c.
Proof.
  intros H. apply includes_In in H. unfold changeFreqValues in H.
  repeat (destruct H as [<-|H]; [apply no_lt_check; reflexivity|]).
  destruct H.
Qed.

Lemma split_on_chars c s piece x :
  In piece (split_on c s) -> In x piece -> In x s.
Proof.
  revert piece. induction s as [|y s IH]; intros piece; simpl.
  - intros [<-|[]] [].
  - destruct (Ascii.eqb y c).
    + intros [<-|Hp] Hx; [destruct Hx|]. right. eapply IH; eassumption.
    + unfold push_head. destruct (split_on c s) as [|h t] eqn:E.
      * intros [<-|[]] [<-|[]]. left; reflexivity.
      * intros [<-|Hp] Hx.
        -- destruct Hx as [<-|Hx]; [left; reflexivity|].
           right. apply (IH h); [left; reflexivity|assumption].
        -- right. apply (IH piece); [right; assumption|assumption].
Qed.

Lemma plain_hd_split c s : plain s -> plain (hd [] (split_on c s)).
Proof.
  intros Hs Hin. apply Hs.
  destruct (split_on c s) as [|h t] eqn:E; [destruct Hin|].
  apply (split_on_chars c s h); [rewrite E; left; reflexivity|exact Hin].
Qed.

Lemma occurrences_plain pat a s :
  plain a ->
  occurrences ("<"%char :: pat) (a ++ s) = occurrences ("<"%char :: pat) s.
Proof.
  induction a as [|c a IH]; intros Ha; [reflexivity|].
  cbn [app occurrences startsWith].
  destruct (Ascii.eqb "<" c) eqn:E.
  - apply Ascii.eqb_eq in E. subst c. exfalso. apply Ha. left; reflexivity.
  - cbn [andb]. apply IH. intros Hin. apply Ha. right; assumption.
Qed.

(** Counts the occurrences of a tag through the literal parts of the
    document and skips the parts that are known to be plain. *)
Ltac count_tags :=
  unfold nl, dq; repeat rewrite <- app_assoc;
  repeat (simpl; try (rewrite occurrences_plain by assumption)).

Section Document.
Context {P : Platform} (net : Network).

(** An entry holds the tag [<url>] once, whatever follows it. *)
Lemma occurrences_url_entry cf pr ilm lastmod loc s :
  plain cf ->
  (forall d, lastmod = Some d -> plain d) ->
  occurrences "<url>" (url_entry cf pr ilm lastmod loc ++ s)
  = S (occurrences "<url>" s).
Proof.
  intros Hcf Hd. pose proof (plain_escapeXml loc) as Hloc.
  pose proof (numberToString_no_lt pr) as Hpr. fold (plain (numberToString pr)) in Hpr.
  unfold url_entry.
  destruct lastmod as [d|]; [pose proof (Hd d eq_refl) as Hd'|];
    try destruct (ilm && nonEmpty d); destruct (nonEmpty cf);
    count_tags; reflexivity.
Qed.


Lemma occurrences_join pat (f : str -> str) k urls s :
  (forall loc t, occurrences ("<"%char :: pat) (f loc ++ t)
                 = k + occurrences ("<"%char :: pat) t) ->
  occurrences ("<"%char :: pat) (join nl (map f urls) ++ s)
  = k * length urls + occurrences ("<"%char :: pat) s.
Proof.
  intros Hf. induction urls as [|x urls IH]; [simpl; lia|].
  cbn [map join length]. destruct (map f urls) as [|y rest] eqn:E.
  - destruct urls; [|discriminate]. rewrite Hf. simpl. lia.
  - rewrite <- !app_assoc, Hf.
    rewrite (occurrences_plain pat nl) by (apply no_lt_check; reflexivity).
    rewrite IH. destruct urls; [discriminate|]. simpl. lia.
Qed.

(** The effective change frequency of a rendering. *)
Definition effective_changeFreq (options : SitemapOptions) : str :=
  match changeFreq options with Some c => c | None => "weekly" : str end.

(** The document holds one [<url>] tag per URL. *)
Lemma occurrences_url_document urls options :
  plain (effective_changeFreq options) ->
  occurrences "<url>" (generateSitemapXML net urls options) = length urls.
Proof.
  intros Hcf. unfold generateSitemapXML. fold (effective_changeFreq options).
  set (f := url_entry _ _ _ _).
  assert (Hf : forall loc t, occurrences "<url>" (f loc ++ t)
                             = 1 + occurrences "<url>" t).
  { intros loc t. unfold f. apply occurrences_url_entry; [exact Hcf|].
    intros d Hd. destruct (match includeLastMod options with
                           | Some b => b | None => false end);
      [|discriminate].
    injection Hd as <-. apply plain_hd_split. exact (now_iso_no_lt net). }
  unfold nl at 1 2, dq. repeat rewrite <- app_assoc. simpl.
  rewrite (occurrences_join _ f 1 urls _ Hf). simpl. lia.
Qed.


End Document.

(* ------------------------------------------------------------------ *)
(** ** Validation and the routes *)
(* ------------------------------------------------------------------ *)

Section RoutesFacts.
Context {P : Platform} (net : Network).

(** What a validated request holds: a change frequency of the
    enumeration when there is one, and no [includeLastMod] when the body
    has none. *)
Lemma validate_spec body data :
  validateSitemapRequest body = Some data ->
  exists fields,
    body = JObj fields
    /\ (forall c, q_changeFreq data = Some c ->
                  includes changeFreqValues c = true)
    /\ (map_get "includeLastMod" fields = None ->
        q_includeLastMod data = None).
Proof.
  unfold validateSitemapRequest, SitemapRequestSchema.
  destruct body as [| | | | |fields]; try discriminate.
  destruct (negb (forallb (includes schemaKeys) (map_keys fields)));
    [discriminate|].
  destruct (z_string url_checks (map_get "url" fields)) as [url|];
    [|discriminate].
  destruct (z_optional _ (map_get "changeFreq" fields)) as [cf|] eqn:Ecf;
    [|discriminate].
  destruct (z_optional _ (map_get "priority" fields)) as [pr|];
    [|discriminate].
  destruct (z_optional _ (map_get "includeLastMod" fields)) as [lm|] eqn:Elm;
    [|discriminate].
  destruct (z_optional _ (map_get "includeDebug" fields)) as [db|];
    [|discriminate].
  intros [= <-]. exists fields. split; [reflexivity|].
  cbn [q_changeFreq q_includeLastMod]. split.
  - intros c ->. unfold z_optional, z_default, z_enum in Ecf.
    destruct (map_get "changeFreq" fields) as [j|]; [|discriminate].
    destruct j; try discriminate.
    destruct (includes changeFreqValues s) eqn:E; [|discriminate].
    injection Ecf as <-. exact E.
  - intros Hnone. rewrite Hnone in Elm. injection Elm as <-. reflexivity.
Qed.

Lemma generate_sitemap_ok body xml stats dbg :
  generate_sitemap net body = Ok200 xml stats dbg ->
  exists data u r,
    validateSitemapRequest body = Some data
    /\ crawlWebsite net (url_toString u) 50 (q_includeDebug data) = Some r
    /\ xml = generateSitemapXML net (firstn 50 (r_visited r))
               {| changeFreq := q_changeFreq data;
                  priority := q_priority data;
                  includeLastMod := q_includeLastMod data |}
    /\ stats = r_stats r.
Proof.
  unfold generate_sitemap.
  destruct (validateSitemapRequest body) as [data|]; [|discriminate].
  destruct (new_URL (q_url data)) as [u|]; [|discriminate].
  destruct (crawlWebsite net (url_toString u) 50 (q_includeDebug data))
    as [r|] eqn:Hr; [|discriminate].
  intros [= <- <- _]. exists data, u, r. tauto.
Qed.


Lemma validated_changeFreq_plain body data :
  validateSitemapRequest body = Some data ->
  plain (effective_changeFreq
           {| changeFreq := q_changeFreq data; priority := q_priority data;
              includeLastMod := q_includeLastMod data |}).
Proof.
  intros Hv. destruct (validate_spec _ _ Hv) as (fields & _ & Hcf & _).
  unfold effective_changeFreq. cbn [changeFreq].
  destruct (q_changeFreq data) as [c|].
  - apply plain_changeFreq. apply Hcf. reflexivity.
  - apply no_lt_check. reflexivity.
Qed.

End RoutesFacts.

(** C10. In every successful response of POST /api/generate-sitemap the
    number of [<url>] entries of [sitemapXML] is [stats.urlsInSitemap],
    which is at most 50: the list rendered is the whole Visited set. *)
Theorem sitemap_entries_match_stats {P : Platform} (net : Network)
    (body : JSON) (xml : str) (stats : CrawlStats)
    (dbg : option (list DebugEntry)) :
  generate_sitemap net body = Ok200 xml stats dbg ->
  occurrences "<url>" xml = urlsInSitemap stats
  /\ urlsInSitemap stats <= 50.
Proof.
  intros H. destruct (generate_sitemap_ok net _ _ _ _ H)
    as (data & u & r & Hv & Hr & -> & ->).
  destruct (crawlWebsite_inv net _ _ _ _ Hr)
    as (h & rb & b & st & Hreach & _ & Ev & _ & Es & _).
  pose proof (crawl_inv_reachable net _ _ _ _ _ _ Hreach) as [Hcap _].
  rewrite occurrences_url_document
    by (apply (validated_changeFreq_plain _ _ Hv)).
  rewrite Es, Ev. rewrite firstn_all2 by exact Hcap. split; [reflexivity|exact Hcap].
Qed.


(** The response of the small site to a request that only gives the
    seed URL. *)
Lemma demo_generate_sitemap :
  exists xml,
    generate_sitemap (P := Demo.runtime) Demo.site
      (JObj [("url" : str, JStr "https://example.com")])
    = Ok200 xml {| urlsDiscovered := 2; urlsInSitemap := 2 |} None.
Proof.
  unfold generate_sitemap.
  destruct (validateSitemapRequest _) as [data|] eqn:E;
    vm_compute in E; [|discriminate].
  injection E as <-. cbn [q_url q_changeFreq q_priority q_includeLastMod q_includeDebug].
  destruct (new_URL _) as [u|] eqn:E2; vm_compute in E2; [|discriminate].
  injection E2 as <-.
  erewrite (crawlWebsite_run (P := Demo.runtime) Demo.site _ 50 None _ 2);
    [|vm_compute; reflexivity|vm_compute; reflexivity].
  eexists. f_equal.
Defined.

(** C10, at the small site: two pages visited, two entries. *)
Lemma sitemap_entries_match_stats_witness :
  exists xml,
    generate_sitemap (P := Demo.runtime) Demo.site
      (JObj [("url" : str, JStr "https://example.com")])
    = Ok200 xml {| urlsDiscovered := 2; urlsInSitemap := 2 |} None
    /\ occurrences "<url>" xml = 2.
Proof.
  destruct demo_generate_sitemap as [xml E]. exists xml.
  split; [exact E|].
  exact (proj1 (sitemap_entries_match_stats (P := Demo.runtime) Demo.site
                  _ _ _ _ E)).
Defined.


(* ------------------------------------------------------------------ *)
(** ** robots.txt *)
(* ------------------------------------------------------------------ *)







Lemma map_get_set_eq {V} k (v : V) m : map_get k (map_set k v m) = Some v.
Proof.
  induction m as [|[k0 v0] m IH]; simpl.
  - destruct (str_eq_dec k k); congruence.
  - destruct (str_eq_dec k k0) as [->|Hne]; simpl.
    + destruct (str_eq_dec k0 k0); congruence.
    + destruct (str_eq_dec k k0); [contradiction|exact IH].
Qed.

Lemma map_get_set_ne {V} k k' (v : V) m :
  k <> k' -> map_get k (map_set k' v m) = map_get k m.
Proof.
  intros Hne. induction m as [|[k0 v0] m IH]; simpl.
  - destruct (str_eq_dec k k'); [contradiction|reflexivity].
  - destruct (str_eq_dec k' k0) as [->|Hne']; simpl.
    + destruct (str_eq_dec k k0); [contradiction|reflexivity].
    + destruct (str_eq_dec k k0); [reflexivity|exact IH].
Qed.






Lemma str_eqb_eq a b : str_eqb a b = true <-> a = b.
Proof. unfold str_eqb. destruct (str_eq_dec a b); split; congruence. Qed.










(* ------------------------------------------------------------------ *)
(** ** The crawl of the seed page of C1 *)
(* ------------------------------------------------------------------ *)

(** C1 as stated fails: at the small site, whose seed page has the four
    links, the crawl with [maxPages = 50] ends with two discovered URLs,
    the seed and [/a]; the external link and the image are filtered out
    before they are recorded. *)
Lemma seed_crawl_discovers_two :
  Demo.hrefs "seed page" = Demo.seed_links
  /\ axiosInstance_get Demo.site "https://example.com/"
     = Resolved 200 "seed page"
  /\ exists r,
       crawlWebsite (P := Demo.runtime) Demo.site "https://example.com/"
                    50 None = Some r
       /\ r_discovered r
          = [ "https://example.com/" : str; "https://example.com/a" : str ]
       /\ urlsDiscovered (r_stats r) = 2
       /\ length (r_discovered r) <> 4.
Proof.
  split; [reflexivity|]. split; [reflexivity|].
  eexists. split.
  - eapply (crawlWebsite_run (P := Demo.runtime) Demo.site
              "https://example.com/" 50 None _ 2);
      [vm_compute; reflexivity|vm_compute; reflexivity].
  - vm_compute. repeat split; try reflexivity. discriminate.
Qed.

Section SeedPage.
Variables (hash : str -> str) (hrefs : str -> list str) (num : Q -> str)
          (num_ok : forall q, ~ In "<"%char (num q)).
Variables (net : Network) (robots : Robots) (includeDebug : bool).

Local Instance seed_runtime : Platform := Whatwg.platform hash hrefs num num_ok.

Local Abbreviation seed := ("https://example.com/" : str).
Local Abbreviation page_a := ("https://example.com/a" : str).
Local Abbreviation step50 :=
  (loop_step net "example.com" robots 50 includeDebug).
Local Abbreviation proc50 :=
  (process net "example.com" robots includeDebug).

(** The four links of the seed page, followed from a state in which only
    the seed is discovered: [/a] is discovered and queued once, the
    external link and the image leave no trace. *)
Lemma seed_links_followed st :
  discovered st = [seed] -> queue st = [] ->
  let st' := fold_left (extract_link "example.com" includeDebug seed seed)
                       Demo.seed_links st in
  visited st' = visited st
  /\ discovered st' = [seed; page_a]
  /\ queue st' = [page_a].
Proof.
  destruct st as [v d q dbg ch]. cbn [discovered queue]. intros -> ->.
  destruct includeDebug; vm_compute; repeat split; reflexivity.
Qed.

Hypothesis seed_allowed : isPathAllowed "/" robots = true.

Section Turns.
Variables (status : Z) (body : str).
Hypothesis seed_response : axiosInstance_get net seed = Resolved status body.
Hypothesis seed_status : (200 <= status < 300)%Z.
Hypothesis seed_body : hrefs body = Demo.seed_links.
Hypothesis page_a_links :
  forall status' body',
    axiosInstance_get net page_a = Resolved status' body' -> hrefs body' = [].

Lemma seed_turn :
  exists st1,
    step50 (initial_state seed) = Some st1
    /\ visited st1 = [seed]
    /\ discovered st1 = [seed; page_a]
    /\ queue st1 = [page_a].
Proof.
  assert (Hn : truthy (normalizeUrl seed) = Some seed)
    by (vm_compute; reflexivity).
  assert (Hu : exists u, new_URL seed = Some u /\ url_pathname u = "/"%string).
  { exists (Whatwg.mkUrl "https" "example.com" [] "/" None [] None).
    split; vm_compute; reflexivity. }
  destruct Hu as (u & Hu & Hpath).
  set (st0 := mkState [] [seed] [] [] []).
  assert (Hinit : initial_state seed = mkState [] [seed] [seed] [] [])
    by (vm_compute; reflexivity).
  assert (Hstep : step50 (initial_state seed) = Some (proc50 seed st0)).
  { rewrite Hinit. unfold loop_step. cbn [queue visited length]. reflexivity. }
  assert (Hv : visited (proc50 seed st0) = [] ++ [seed]).
  { apply (process_fetched net "example.com" robots includeDebug seed st0
             seed u status body); try assumption.
    - intros [].
    - vm_compute; reflexivity.
    - rewrite Hpath. exact seed_allowed.
    - reflexivity. }
  exists (proc50 seed st0). split; [exact Hstep|]. split; [exact Hv|].
  assert (Hne : visited (proc50 seed st0) <> []).
  { rewrite Hv. cbn [app]. apply not_eq_sym, nil_cons. }
  destruct (process_cases net "example.com" robots includeDebug seed st0)
    as [E|[(nc & _ & Ev & _)
          |(nc & status' & data & st2 & Hn' & _ & Hget & _
             & Ev & Eq & Ed & _ & E)]].
  - exfalso. apply Hne. rewrite E. reflexivity.
  - exfalso. apply Hne. rewrite Ev. reflexivity.
  - rewrite Hn in Hn'. injection Hn' as <-.
    rewrite seed_response in Hget. injection Hget as <- <-.
    change (cheerio_hrefs body) with (hrefs body) in E. rewrite seed_body in E.
    destruct (seed_links_followed st2 Ed Eq) as (_ & Fd & Fq).
    rewrite E. cbn [visit discovered queue]. split; assumption.
Qed.

Lemma page_a_turn st1 :
  visited st1 = [seed] -> discovered st1 = [seed; page_a] ->
  queue st1 = [page_a] ->
  exists st2,
    step50 st1 = Some st2
    /\ step50 st2 = None
    /\ discovered st2 = [seed; page_a]
    /\ (visited st2 = [seed] \/ visited st2 = [seed; page_a]).
Proof.
  intros Hv Hd Hq.
  assert (Hn : truthy (normalizeUrl page_a) = Some page_a)
    by (vm_compute; reflexivity).
  set (st1' := mkState (visited st1) (discovered st1) [] (debug st1)
                       (contentHashes st1)).
  assert (Hstep : step50 st1 = Some (proc50 page_a st1')).
  { unfold loop_step. rewrite Hq.
    replace (length (visited st1) <? 50) with true
      by (rewrite Hv; reflexivity).
    reflexivity. }
  assert (Hnone : forall st, queue st = [] -> step50 st = None).
  { intros st E. unfold loop_step. rewrite E. reflexivity. }
  assert (Hadd : set_add page_a [seed; page_a] = [seed; page_a])
    by (vm_compute; reflexivity).
  exists (proc50 page_a st1'). split; [exact Hstep|].
  destruct (process_cases net "example.com" robots includeDebug page_a st1')
    as [E|[(nc & Hn' & Ev & Eq & _ & Ed)
          |(nc & status' & data & st2 & Hn' & _ & Hget & _
             & Ev & Eq & Ed & _ & E)]].
  - rewrite E. unfold st1'. cbn [visited discovered queue].
    split; [apply Hnone; reflexivity|]. split; [exact Hd|left; exact Hv].
  - rewrite Hn in Hn'. injection Hn' as <-.
    split; [apply Hnone; rewrite Eq; reflexivity|].
    rewrite Ed, Ev. unfold st1'. cbn [visited discovered]. rewrite Hd.
    split; [exact Hadd|left; exact Hv].
  - rewrite Hn in Hn'. injection Hn' as <-.
    change (cheerio_hrefs data) with (hrefs data) in E.
    rewrite (page_a_links _ _ Hget) in E. cbn [fold_left] in E.
    rewrite E. cbn [visit visited discovered queue].
    split; [apply Hnone; cbn [visit queue]; rewrite Eq; reflexivity|].
    rewrite Ed, Ev. unfold st1'. cbn [visited discovered]. rewrite Hd, Hv.
    split; [reflexivity|right; vm_compute; reflexivity].
Qed.

End Turns.
End SeedPage.

(** C1, amended.  For a crawl seeded at [https://example.com/] whose
    seed page is fetched and links to [/a], [/a#section],
    [http://other.com/b] and [/logo.png], and whose page [/a] has no
    links, the crawl with [maxPages = 50] ends with two discovered URLs,
    the seed and [/a], and with at most two visited URLs, among them the
    seed. *)
Theorem seed_page_crawl (hash : str -> str) (hrefs : str -> list str)
    (num : Q -> str) (num_ok : forall q, ~ In "<"%char (num q))
    (net : Network) (dbg : option bool) (status : Z) (body : str) :
  let runtime := Whatwg.platform hash hrefs num num_ok in
  let seed : str := "https://example.com/" in
  let page_a : str := "https://example.com/a" in
  axiosInstance_get net seed = Resolved status body ->
  (200 <= status < 300)%Z ->
  hrefs body = Demo.seed_links ->
  isPathAllowed "/" (fetchRobots (P := runtime) net seed) = true ->
  (forall status' body',
      axiosInstance_get net page_a = Resolved status' body' ->
      hrefs body' = []) ->
  exists r,
    crawlWebsite (P := runtime) net seed 50 dbg = Some r
    /\ r_discovered r = [seed; page_a]
    /\ urlsDiscovered (r_stats r) = 2
    /\ In seed (r_visited r)
    /\ incl (r_visited r) [seed; page_a]
    /\ length (r_visited r) <= 2.
Proof.
  intros runtime seed page_a Hget Hst Hbody Hrob Ha.
  subst runtime seed page_a.
  change (Whatwg.platform hash hrefs num num_ok)
    with (seed_runtime hash hrefs num num_ok) in *.
  set (b := match dbg with Some b => b | None => false end).
  set (rb := fetchRobots (P := seed_runtime hash hrefs num num_ok) net
                         "https://example.com/") in *.
  destruct (seed_turn hash hrefs num num_ok net rb b Hrob status body
              Hget Hst Hbody) as (st1 & Hs1 & Hv1 & Hd1 & Hq1).
  destruct (page_a_turn hash hrefs num num_ok net rb b Ha st1 Hv1 Hd1 Hq1)
    as (st2 & Hs2 & Hs3 & Hd2 & Hv2).
  assert (Hloop : crawl_loop (P := seed_runtime hash hrefs num num_ok)
                             net "example.com" rb 50 b
                             (initial_state
                                (P := seed_runtime hash hrefs num num_ok)
                                "https://example.com/") = st2).
  { rewrite (loop_continue _ _ _ _ _ _ _ Hs1).
    rewrite (loop_continue _ _ _ _ _ _ _ Hs2).
    apply loop_exit. exact Hs3. }
  assert (Hu : exists u, new_URL (Platform := seed_runtime hash hrefs num num_ok)
                                 "https://example.com/" = Some u
                         /\ url_hostname u = "example.com"%string).
  { exists (Whatwg.mkUrl "https" "example.com" [] "/" None [] None).
    split; vm_compute; reflexivity. }
  destruct Hu as (u & Hu & Hhost).
  unfold crawlWebsite. rewrite Hu, Hhost. fold b. fold rb. rewrite Hloop.
  eexists. split; [reflexivity|].
  cbn [r_discovered r_visited r_stats urlsDiscovered]. rewrite Hd2.
  split; [reflexivity|]. split; [reflexivity|].
  destruct Hv2 as [-> | ->]; simpl; repeat split; auto; try lia;
    intros x Hx; simpl in Hx |- *; tauto.
Qed.

(** C1 amended, at the small site. *)
Lemma seed_page_crawl_witness :
  exists r,
    crawlWebsite (P := Demo.runtime) Demo.site "https://example.com/" 50 None
    = Some r
    /\ r_discovered r
       = [ "https://example.com/" : str; "https://example.com/a" : str ].
Proof.
  destruct (seed_page_crawl (fun s => s) Demo.hrefs Demo.printNumber
              Demo.printNumber_no_lt Demo.site None 200 "seed page")
    as (r & Hr & Hd & _).
  - reflexivity.
  - lia.
  - reflexivity.
  - reflexivity.
  - intros status' body' [= _ <-]. reflexivity.
  - exists r. split; [exact Hr|exact Hd].
Defined.


(* ------------------------------------------------------------------ *)
(** ** Strings: splitting, joining, collapsing *)
(* ------------------------------------------------------------------ *)

Lemma split_on_cons c s : exists h t, split_on c s = h :: t.
Proof.
  induction s as [|x s (h & t & E)]; simpl; [eauto|].
  destruct (Ascii.eqb x c); [eauto|]. rewrite E. simpl. eauto.
Qed.

Lemma join_split c s : join [c] (split_on c s) = s.
Proof.
  induction s as [|x s IH]; [reflexivity|]. simpl.
  destruct (split_on_cons c s) as (h & t & E).
  destruct (Ascii.eqb x c) eqn:Ex.
  - apply Ascii.eqb_eq in Ex. subst x. rewrite E in *.
    change (join [c] ([] :: h :: t)) with ([] ++ [c] ++ join [c] (h :: t)).
    rewrite IH. reflexivity.
  - rewrite E in *. cbn [push_head]. destruct t as [|q t].
    + cbn [join] in *. rewrite IH. reflexivity.
    + change (join [c] ((x :: h) :: q :: t))
        with (x :: (h ++ [c] ++ join [c] (q :: t))).
      change (join [c] (h :: q :: t)) with (h ++ [c] ++ join [c] (q :: t)) in IH.
      rewrite IH. reflexivity.
Qed.

Lemma split_on_no_sep c s piece : In piece (split_on c s) -> ~ In c piece.
Proof.
  revert piece. induction s as [|x s IH]; intros piece; simpl.
  - intros [<-|[]] [].
  - destruct (split_on_cons c s) as (h & t & E).
    destruct (Ascii.eqb x c) eqn:Ex.
    + intros [<-|Hp]; [intros []|auto].
    + rewrite E in *. cbn [push_head]. intros [<-|Hp].
      * intros [->|Hin]; [rewrite Ascii.eqb_refl in Ex; discriminate|].
        apply (IH h); [left; reflexivity|exact Hin].
      * apply IH. right; exact Hp.
Qed.

Lemma split_on_no_sep_id c s : ~ In c s -> split_on c s = [s].
Proof.
  induction s as [|x s IH]; intros H; [reflexivity|]. simpl.
  destruct (Ascii.eqb x c) eqn:Ex.
  - apply Ascii.eqb_eq in Ex. subst. exfalso. apply H. left; reflexivity.
  - rewrite IH by (intros Hin; apply H; right; exact Hin). reflexivity.
Qed.

Lemma split_on_app c a b :
  ~ In c a -> split_on c (a ++ c :: b) = a :: split_on c b.
Proof.
  induction a as [|x a IH]; intros H; simpl.
  - rewrite Ascii.eqb_refl. reflexivity.
  - destruct (Ascii.eqb x c) eqn:Ex.
    + apply Ascii.eqb_eq in Ex. subst. exfalso. apply H. left; reflexivity.
    + rewrite IH by (intros Hin; apply H; right; exact Hin). reflexivity.
Qed.

Lemma split_join c pieces :
  pieces <> [] -> (forall p, In p pieces -> ~ In c p) ->
  split_on c (join [c] pieces) = pieces.
Proof.
  induction pieces as [|p pieces IH]; intros Hne Hp; [congruence|].
  destruct pieces as [|q pieces].
  - cbn [join]. apply split_on_no_sep_id. apply Hp. left; reflexivity.
  - change (join [c] (p :: q :: pieces)) with (p ++ c :: join [c] (q :: pieces)).
    rewrite split_on_app by (apply Hp; left; reflexivity).
    rewrite IH; [reflexivity|discriminate|].
    intros x Hx. apply Hp. right; exact Hx.
Qed.

Lemma split_on_snoc c s : split_on c (s ++ [c]) = split_on c s ++ [[]].
Proof.
  induction s as [|x s IH]; simpl.
  - rewrite Ascii.eqb_refl. reflexivity.
  - destruct (Ascii.eqb x c); rewrite IH; [reflexivity|].
    destruct (split_on_cons c s) as (h & t & E). rewrite E. reflexivity.
Qed.

Lemma split_on_cover c s x :
  In x s -> x = c \/ exists piece, In piece (split_on c s) /\ In x piece.
Proof.
  induction s as [|y s IH]; [intros []|]. simpl.
  destruct (split_on_cons c s) as (h & t & E).
  destruct (Ascii.eqb y c) eqn:Ey.
  - apply Ascii.eqb_eq in Ey. subst y. intros [->|Hin]; [left; reflexivity|].
    destruct (IH Hin) as [->|(p & Hp & Hx)]; [left; reflexivity|].
    right. exists p. split; [right; exact Hp|exact Hx].
  - rewrite E in *. cbn [push_head]. intros [->|Hin].
    + right. exists (x :: h). split; left; reflexivity.
    + destruct (IH Hin) as [->|(p & [<-|Hp] & Hx)]; [left; reflexivity| |].
      * right. exists (y :: h). split; [left; reflexivity|right; exact Hx].
      * right. exists p. split; [right; exact Hp|exact Hx].
Qed.

Lemma collapse_length s : length (collapse_slashes s) <= length s.
Proof.
  induction s as [|c s IH]; [reflexivity|]. cbn [collapse_slashes].
  destruct (Ascii.eqb c "/"); [|simpl; lia].
  destruct s as [|d s]; [reflexivity|].
  destruct (Ascii.eqb d "/"); simpl in *; lia.
Qed.

Lemma collapse_chars s x : In x (collapse_slashes s) -> In x s.
Proof.
  induction s as [|c s IH]; [intros []|]. cbn [collapse_slashes].
  destruct (Ascii.eqb c "/").
  - destruct s as [|d s]; [tauto|].
    destruct (Ascii.eqb d "/").
    + intros H. right. apply IH. exact H.
    + intros [->|H]; [left; reflexivity|right; apply IH; exact H].
  - intros [->|H]; [left; reflexivity|right; apply IH; exact H].
Qed.

Lemma collapse_head t :
  exists t', collapse_slashes ("/"%char :: t) = "/"%char :: t'.
Proof.
  induction t as [|d t (t' & IH)]; [exists []; reflexivity|].
  cbn [collapse_slashes]. cbn [Ascii.eqb Bool.eqb andb].
  destruct (Ascii.eqb d "/") eqn:Ed.
  - apply Ascii.eqb_eq in Ed. subst d. exists t'. exact IH.
  - eexists. reflexivity.
Qed.

Lemma collapse_idem s :
  collapse_slashes (collapse_slashes s) = collapse_slashes s.
Proof.
  induction s as [|c s IH]; [reflexivity|]. cbn [collapse_slashes].
  destruct (Ascii.eqb c "/") eqn:Ec.
  - destruct s as [|d s]; [cbn [collapse_slashes]; rewrite Ec; reflexivity|].
    destruct (Ascii.eqb d "/") eqn:Ed; [exact IH|].
    assert (Ex : collapse_slashes (d :: s) = d :: collapse_slashes s)
      by (cbn [collapse_slashes]; rewrite Ed; reflexivity).
    rewrite Ex in *. cbn [collapse_slashes]. rewrite Ec, Ed.
    f_equal. cbn [collapse_slashes] in IH. rewrite Ed in IH. exact IH.
  - cbn [collapse_slashes]. rewrite Ec, IH. reflexivity.
Qed.

(** A collapsed text does not end with two slashes. *)
Lemma collapse_two_slashes y :
  length (collapse_slashes (y ++ ["/"%char; "/"%char]))
  < length (y ++ ["/"%char; "/"%char]).
Proof.
  induction y as [|c y IH]; [simpl; lia|].
  cbn [app collapse_slashes].
  destruct (Ascii.eqb c "/"); [|simpl; lia].
  destruct (y ++ ["/"%char; "/"%char]) as [|d rest] eqn:E.
  - destruct y; discriminate.
  - destruct (Ascii.eqb d "/"); simpl in *; lia.
Qed.

Lemma collapsed_init x :
  collapse_slashes (x ++ ["/"%char]) = x ++ ["/"%char] ->
  collapse_slashes x = x.
Proof.
  induction x as [|c x IH]; [reflexivity|]. cbn [app collapse_slashes].
  destruct (Ascii.eqb c "/") eqn:Ec.
  - destruct x as [|d x].
    + cbn. intros H. discriminate.
    + cbn [app]. destruct (Ascii.eqb d "/") eqn:Ed.
      * intros H. exfalso.
        pose proof (collapse_length (d :: x ++ ["/"%char])) as Hl.
        rewrite H in Hl. simpl in Hl. lia.
      * intros H. injection H as H. f_equal. apply IH. exact H.
  - intros H. injection H as H. f_equal. apply IH. exact H.
Qed.

Lemma endsWith_slash p :
  endsWith p "/" = true -> exists x, p = x ++ ["/"%char].
Proof.
  unfold endsWith. cbn [rev list_ascii_of_string app startsWith].
  destruct (rev p) as [|c r] eqn:E; [discriminate|].
  destruct (Ascii.eqb "/" c) eqn:Ec; [|discriminate].
  apply Ascii.eqb_eq in Ec. subst c. intros _. exists (rev r).
  rewrite <- (rev_involutive p), E. reflexivity.
Qed.

Lemma endsWith_snoc x : endsWith (x ++ ["/"%char]) "/" = true.
Proof.
  unfold endsWith. rewrite rev_app_distr. reflexivity.
Qed.

(* ------------------------------------------------------------------ *)
(** ** Sorting *)
(* ------------------------------------------------------------------ *)

Section SortFacts.
Context {A : Type} (cmp : A -> A -> Z).
Hypothesis cmp_total : forall a b, (0 < cmp a b)%Z -> (cmp b a <= 0)%Z.

Definition le_cmp (a b : A) : Prop := (cmp a b <= 0)%Z.

(** The head of a sorted list is not above its successor. *)
Inductive sorted : list A -> Prop :=
| sorted_nil : sorted []
| sorted_one x : sorted [x]
| sorted_cons x y l : le_cmp x y -> sorted (y :: l) -> sorted (x :: y :: l).

Lemma sort_insert_sorted x l : sorted l -> sorted (sort_insert cmp x l).
Proof.
  induction 1 as [|y|y z l Hyz Hs IH]; cbn [sort_insert].
  - constructor.
  - destruct (cmp x y <=? 0)%Z eqn:E.
    + constructor; [apply Z.leb_le; exact E|constructor].
    + constructor; [|constructor]. apply cmp_total. apply Z.leb_gt in E. lia.
  - destruct (cmp x y <=? 0)%Z eqn:E.
    + constructor; [apply Z.leb_le; exact E|constructor; assumption].
    + cbn [sort_insert] in IH. destruct (cmp x z <=? 0)%Z eqn:E'.
      * constructor; [|exact IH]. apply cmp_total. apply Z.leb_gt in E. lia.
      * constructor; [exact Hyz|exact IH].
Qed.

Lemma js_sort_sorted l : sorted (js_sort cmp l).
Proof.
  induction l as [|x l IH]; [constructor|]. apply sort_insert_sorted. exact IH.
Qed.

Lemma js_sort_fixed l : sorted l -> js_sort cmp l = l.
Proof.
  induction 1 as [|y|y z l Hyz Hs IH]; [reflexivity|reflexivity|].
  change (js_sort cmp (y :: z :: l)) with (sort_insert cmp y (js_sort cmp (z :: l))).
  rewrite IH. cbn [sort_insert].
  replace (cmp y z <=? 0)%Z with true by (symmetry; apply Z.leb_le; exact Hyz).
  reflexivity.
Qed.

(** Sorting is idempotent. *)
Lemma js_sort_idem l : js_sort cmp (js_sort cmp l) = js_sort cmp l.
Proof. apply js_sort_fixed. apply js_sort_sorted. Qed.

Lemma sort_insert_perm x l : Permutation (x :: l) (sort_insert cmp x l).
Proof.
  induction l as [|y l IH]; cbn [sort_insert]; [apply Permutation_refl|].
  destruct (cmp x y <=? 0)%Z; [apply Permutation_refl|].
  eapply perm_trans; [apply perm_swap|]. apply perm_skip. exact IH.
Qed.

Lemma js_sort_perm l : Permutation l (js_sort cmp l).
Proof.
  induction l as [|x l IH]; [constructor|]. cbn [js_sort fold_right].
  eapply perm_trans; [apply perm_skip; exact IH|apply sort_insert_perm].
Qed.

Hypothesis cmp_trans :
  forall a b c, le_cmp a b -> le_cmp b c -> le_cmp a c.




End SortFacts.

(* ------------------------------------------------------------------ *)
(** ** The URL model: order of keys, ports, hosts, paths, queries *)
(* ------------------------------------------------------------------ *)

Module WhatwgFacts.
Import Whatwg.

(** *** The order of the keys *)

Lemma compare_str_sym a b : compare_str b a = (- compare_str a b)%Z.
Proof.
  revert b. induction a as [|x a IH]; intros [|y b]; simpl; try reflexivity.
  destruct (N.ltb_spec (N_of_ascii x) (N_of_ascii y)),
           (N.ltb_spec (N_of_ascii y) (N_of_ascii x)); try lia; try reflexivity.
  apply IH.
Qed.




(** The comparison function given to [sort] in [normalizeUrl]. *)
Definition by_key (a b : str * str) : Z := compare_str (fst a) (fst b).

Lemma by_key_total a b : (0 < by_key a b)%Z -> (by_key b a <= 0)%Z.
Proof. unfold by_key. rewrite (compare_str_sym (fst a) (fst b)). lia. Qed.


(** The filter of [normalizeUrl]: the parameters that are not tracking
    parameters. *)
Definition untracked (l : list (str * str)) : list (str * str) :=
  filter (fun kv => negb (includes trackingKeys (fst kv))) l.

Lemma untracked_fixed l : Forall (fun kv => negb (includes trackingKeys (fst kv)) = true) l ->
  untracked l = l.
Proof.
  induction 1 as [|x l Hx _ IH]; [reflexivity|].
  unfold untracked in *. cbn [filter]. rewrite Hx, IH. reflexivity.
Qed.

Lemma untracked_Forall l :
  Forall (fun kv => negb (includes trackingKeys (fst kv)) = true) (untracked l).
Proof.
  apply Forall_forall. intros x Hx. apply filter_In in Hx. tauto.
Qed.

(** *** Ports *)

Lemma strip_zeros_digits x :
  forallb is_digit x = true -> forallb is_digit (strip_zeros x) = true.
Proof.
  induction x as [|c x IH]; [reflexivity|]. intros H. cbn [strip_zeros].
  destruct x as [|d x]; [exact H|].
  destruct (Ascii.eqb c "0"); [|exact H].
  apply IH. cbn [forallb] in H. apply andb_true_iff in H. tauto.
Qed.

Lemma strip_zeros_value x : digits_value (strip_zeros x) = digits_value x.
Proof.
  unfold digits_value.
  induction x as [|c x IH]; [reflexivity|]. cbn [strip_zeros].
  destruct x as [|d x]; [reflexivity|].
  destruct (Ascii.eqb c "0") eqn:E; [|reflexivity].
  apply Ascii.eqb_eq in E. subst c. rewrite IH. reflexivity.
Qed.

Lemma strip_zeros_idem x : strip_zeros (strip_zeros x) = strip_zeros x.
Proof.
  induction x as [|c x IH]; [reflexivity|]. cbn [strip_zeros].
  destruct x as [|d x]; [reflexivity|].
  destruct (Ascii.eqb c "0") eqn:E; [exact IH|].
  cbn [strip_zeros]. rewrite E. reflexivity.
Qed.

Lemma strip_zeros_nonEmpty x : nonEmpty (strip_zeros x) = nonEmpty x.
Proof.
  induction x as [|c x IH]; [reflexivity|]. cbn [strip_zeros].
  destruct x as [|d x]; [reflexivity|].
  destruct (Ascii.eqb c "0"); [|reflexivity]. rewrite IH. reflexivity.
Qed.

(** A port as the parser leaves it: null, or digits that the parser
    maps to themselves. *)
Definition port_ok (sch p : str) : Prop :=
  p = [] \/ (nonEmpty p = true /\ parse_port sch p = Some p).

Lemma parse_port_ok sch x p : parse_port sch x = Some p -> port_ok sch p.
Proof.
  unfold parse_port.
  destruct (forallb is_digit x) eqn:Hd; cbn [negb]; [|discriminate].
  destruct (nonEmpty x) eqn:Hne; cbn [negb]; [|intros [= <-]; left; reflexivity].
  destruct (65535 <? digits_value x)%N eqn:Hv; [discriminate|].
  destruct (str_eqb (strip_zeros x) (default_port sch)) eqn:Hdef;
    intros [= <-]; [left; reflexivity|].
  right. split; [rewrite strip_zeros_nonEmpty; exact Hne|].
  unfold parse_port.
  rewrite strip_zeros_digits by exact Hd. cbn [negb].
  rewrite strip_zeros_nonEmpty, Hne. cbn [negb].
  rewrite strip_zeros_value, Hv, strip_zeros_idem, Hdef. reflexivity.
Qed.

Lemma port_ok_not_default sch p :
  port_ok sch p -> nonEmpty p = true -> str_eqb p (default_port sch) = false.
Proof.
  intros [->|[_ H]] Hne; [discriminate|].
  unfold parse_port in H.
  destruct (forallb is_digit p); cbn [negb] in H; [|discriminate].
  rewrite Hne in H. cbn [negb] in H.
  destruct (65535 <? digits_value p)%N; [discriminate|].
  destruct (str_eqb (strip_zeros p) (default_port sch)) eqn:E.
  - injection H as <-. discriminate.
  - injection H as H. rewrite H in E. exact E.
Qed.

Lemma port_ok_digits sch p : port_ok sch p -> forallb is_digit p = true.
Proof.
  intros [->|[_ H]]; [reflexivity|]. unfold parse_port in H.
  destruct (forallb is_digit p); [reflexivity|discriminate].
Qed.

(** *** Characters *)

Definition host_char (c : ascii) : bool :=
  is_alnum c || Ascii.eqb c "-" || Ascii.eqb c ".".

(** A character of a path: a URL character other than [?] and [#]. *)
Definition path_char (c : ascii) : bool :=
  url_char c && negb (one_of "?#" c).

Lemma host_char_props c :
  host_char c = true ->
  url_char c = true /\ one_of "/?#" c = false
  /\ Ascii.eqb c ":" = false /\ Ascii.eqb c "@" = false.
Proof.
  destruct c as [[] [] [] [] [] [] [] []]; cbv; intros H;
    try discriminate H; repeat split; reflexivity.
Qed.

Lemma digit_props c :
  is_digit c = true ->
  url_char c = true /\ one_of "/?#" c = false /\ Ascii.eqb c "@" = false.
Proof.
  destruct c as [[] [] [] [] [] [] [] []]; cbv; intros H;
    try discriminate H; repeat split; reflexivity.
Qed.

Lemma form_encode_char_props c :
  forallb (fun x => url_char x
                    && negb (one_of "&=#" x)) (form_encode_char c) = true.
Proof. destruct c as [[] [] [] [] [] [] [] []]; reflexivity. Qed.

Lemma decode_encode_char c rest :
  percent_decode (plus_to_space (form_encode_char c ++ rest))
  = c :: percent_decode (plus_to_space rest).
Proof. destruct c as [[] [] [] [] [] [] [] []]; reflexivity. Qed.

Lemma path_char_props c :
  path_char c = true ->
  url_char c = true /\ one_of "?#" c = false /\ encode_path_char c = [c].
Proof.
  destruct c as [[] [] [] [] [] [] [] []]; cbv; intros H;
    try discriminate H; repeat split; reflexivity.
Qed.

Lemma lower_char_not_upper c : is_upper c = false -> lower_char c = c.
Proof. unfold lower_char. intros ->. reflexivity. Qed.

Lemma toLowerCase_not_upper h : existsb is_upper h = false -> toLowerCase h = h.
Proof.
  induction h as [|c h IH]; [reflexivity|]. cbn [existsb toLowerCase map].
  intros H. apply orb_false_iff in H. destruct H as [Hc Hh].
  rewrite (lower_char_not_upper c Hc). f_equal. apply IH. exact Hh.
Qed.

Lemma valid_host_lower h : valid_host h = true -> toLowerCase h = h.
Proof.
  unfold valid_host. intros H. apply andb_true_iff in H. destruct H as [_ H].
  apply toLowerCase_not_upper. apply negb_true_iff. exact H.
Qed.

Lemma valid_host_chars h c : valid_host h = true -> In c h -> host_char c = true.
Proof.
  unfold valid_host. intros H Hin.
  apply andb_true_iff in H. destruct H as [H _].
  apply andb_true_iff in H. destruct H as [Hl _].
  destruct (split_on_cover "." h c Hin) as [->|(piece & Hp & Hc)];
    [reflexivity|].
  rewrite forallb_forall in Hl. specialize (Hl piece Hp).
  unfold label_ok in Hl. apply andb_true_iff in Hl. destruct Hl as [Hl _].
  apply andb_true_iff in Hl. destruct Hl as [_ Hl].
  rewrite forallb_forall in Hl. specialize (Hl c Hc).
  unfold host_char. apply orb_true_iff in Hl.
  destruct Hl as [-> | ->]; [reflexivity|]. rewrite orb_true_r. reflexivity.
Qed.

(** *** Breaking a text at a delimiter *)

Lemma break_app stop a b :
  Forall (fun c => stop c = false) a ->
  (b = [] \/ exists c b', b = c :: b' /\ stop c = true) ->
  break stop (a ++ b) = (a, b).
Proof.
  induction 1 as [|x a Hx _ IH]; intros Hb.
  - destruct Hb as [->|(c & b' & -> & Hc)]; [reflexivity|].
    cbn [app break]. rewrite Hc. reflexivity.
  - cbn [app break]. rewrite Hx, (IH Hb). reflexivity.
Qed.

Lemma break_spec stop s :
  let (a, b) := break stop s in
  s = a ++ b /\ Forall (fun c => stop c = false) a
  /\ (b = [] \/ exists c b', b = c :: b' /\ stop c = true).
Proof.
  induction s as [|c s IH]; cbn [break].
  - split; [reflexivity|]. split; [constructor|left; reflexivity].
  - destruct (stop c) eqn:Hc.
    + split; [reflexivity|]. split; [constructor|].
      right. exists c, s. split; [reflexivity|exact Hc].
    + destruct (break stop s) as [a b]. destruct IH as (-> & Ha & Hb).
      split; [reflexivity|]. split; [constructor; assumption|exact Hb].
Qed.

(** *** Paths *)

Definition nodot (seg : str) : bool := negb (single_dot seg || double_dot seg).

Definition nodots (segs : list str) : Prop := Forall (fun s => nodot s = true) segs.

(** A path as the parser leaves it: it starts with a slash, has no dot
    segment and is made of path characters. *)
Definition path_ok (p : str) : Prop :=
  exists t, p = "/"%char :: t
            /\ nodots (split_on "/" t)
            /\ forallb path_char p = true.

Lemma Forall_removelast {A} (Q : A -> Prop) l :
  Forall Q l -> Forall Q (removelast l).
Proof.
  induction 1 as [|x l Hx Hl IH]; [constructor|]. cbn [removelast].
  destruct l; [constructor|]. constructor; assumption.
Qed.

Lemma In_removelast {A} (x : A) l : In x (removelast l) -> In x l.
Proof.
  induction l as [|y l IH]; [intros []|]. cbn [removelast].
  destruct l; [intros []|]. intros [->|H]; [left; reflexivity|right; auto].
Qed.

Lemma resolve_dots_nodot segs acc :
  nodots acc -> nodots (resolve_dots acc segs).
Proof.
  unfold nodots. revert acc.
  induction segs as [|s rest IH]; intros acc Hacc; cbn [resolve_dots];
    [exact Hacc|].
  assert (Hnil : Forall (fun s => nodot s = true) [([] : str)])
    by (repeat constructor).
  destruct rest as [|s' rest'].
  - destruct (double_dot s) eqn:Edd.
    + apply Forall_app. split; [apply Forall_removelast; exact Hacc|exact Hnil].
    + destruct (single_dot s) eqn:Esd.
      * apply Forall_app. split; assumption.
      * apply Forall_app. split; [exact Hacc|].
        constructor; [unfold nodot; rewrite Esd, Edd; reflexivity|constructor].
  - destruct (double_dot s) eqn:Edd.
    + apply IH. apply Forall_removelast. exact Hacc.
    + destruct (single_dot s) eqn:Esd; [apply IH; exact Hacc|].
      apply IH. apply Forall_app. split; [exact Hacc|].
      constructor; [unfold nodot; rewrite Esd, Edd; reflexivity|constructor].
Qed.

Lemma resolve_dots_id segs acc :
  nodots segs -> resolve_dots acc segs = acc ++ segs.
Proof.
  unfold nodots. revert acc.
  induction segs as [|s rest IH]; intros acc H;
    [rewrite app_nil_r; reflexivity|].
  inversion H as [|? ? Hs Hrest]; subst.
  unfold nodot in Hs. apply negb_true_iff, orb_false_iff in Hs.
  destruct Hs as [Hsd Hdd]. cbn [resolve_dots]. rewrite Hsd, Hdd.
  destruct rest as [|s' rest']; [reflexivity|].
  rewrite (IH _ Hrest), <- app_assoc. reflexivity.
Qed.

Lemma resolve_dots_In segs acc x :
  In x (resolve_dots acc segs) -> In x acc \/ In x segs \/ x = [].
Proof.
  revert acc. induction segs as [|s rest IH]; intros acc; cbn [resolve_dots];
    [tauto|].
  destruct rest as [|s' rest'].
  - destruct (double_dot s); [|destruct (single_dot s)]; intros H;
      apply in_app_iff in H; destruct H as [H|[<-|[]]];
      try (apply In_removelast in H); cbn; tauto.
  - destruct (double_dot s); [|destruct (single_dot s)]; intros H;
      apply IH in H; destruct H as [H|[H|H]];
      try (apply In_removelast in H);
      try (apply in_app_iff in H; destruct H as [H|[<-|[]]]);
      cbn in *; tauto.
Qed.

Lemma resolve_dots_nonempty segs acc : segs <> [] -> resolve_dots acc segs <> [].
Proof.
  revert acc. induction segs as [|s rest IH]; intros acc Hne; [congruence|].
  cbn [resolve_dots]. destruct rest as [|s' rest'].
  - destruct (double_dot s); [|destruct (single_dot s)];
      intros H; apply app_eq_nil in H; destruct H; discriminate.
  - destruct (double_dot s); [|destruct (single_dot s)];
      apply IH; discriminate.
Qed.

Lemma join_chars sep l x :
  In x (join sep l) -> In x sep \/ exists p, In p l /\ In x p.
Proof.
  induction l as [|p l IH]; [intros []|].
  destruct l as [|q l].
  - cbn [join]. intros H. right. exists p. split; [left; reflexivity|exact H].
  - change (join sep (p :: q :: l)) with (p ++ sep ++ join sep (q :: l)).
    intros H. apply in_app_iff in H. destruct H as [H|H].
    + right. exists p. split; [left; reflexivity|exact H].
    + apply in_app_iff in H. destruct H as [H|H]; [left; exact H|].
      destruct (IH H) as [H'|(p' & Hp' & Hx)]; [left; exact H'|].
      right. exists p'. split; [right; exact Hp'|exact Hx].
Qed.

Lemma forallb_In {A} (f : A -> bool) l x : forallb f l = true -> In x l -> f x = true.
Proof. intros H. rewrite forallb_forall in H. apply H. Qed.

Lemma parse_path_ok rp : forallb path_char rp = true -> path_ok (parse_path rp).
Proof.
  intros Hrp. unfold parse_path, parse_path_from, path_of_segments.
  set (segs := split_on "/" (drop_slash rp)).
  set (segs' := resolve_dots [] segs).
  assert (Hsub : forall x, In x (drop_slash rp) -> In x rp).
  { unfold drop_slash. destruct rp as [|c rp]; [tauto|].
    destruct (Ascii.eqb c "/"); [intros x H; right; exact H|tauto]. }
  assert (Hseg : forall p, In p segs' -> ~ In "/"%char p
                           /\ forall x, In x p -> path_char x = true).
  { intros p Hp. apply resolve_dots_In in Hp.
    destruct Hp as [[]|[Hp| ->]]; [|split; [intros []|intros x []]].
    split; [apply (split_on_no_sep "/" (drop_slash rp)); exact Hp|].
    intros x Hx. apply (forallb_In _ _ _ Hrp). apply Hsub.
    apply (split_on_chars "/" _ p); assumption. }
  exists (join "/" segs'). split; [reflexivity|]. split.
  - change (list_ascii_of_string "/") with ["/"%char].
    rewrite split_join.
    + apply resolve_dots_nodot. constructor.
    + apply resolve_dots_nonempty. unfold segs.
      destruct (split_on_cons "/" (drop_slash rp)) as (h & t & E).
      rewrite E. discriminate.
    + intros p Hp. apply Hseg. exact Hp.
  - apply forallb_forall. intros x [<-|Hx]; [reflexivity|].
    apply join_chars in Hx. destruct Hx as [[<-|[]]|(p & Hp & Hx)];
      [reflexivity|]. apply (Hseg p Hp). exact Hx.
Qed.

Lemma parse_path_id p : path_ok p -> parse_path p = p.
Proof.
  intros (t & -> & Hnd & _).
  unfold parse_path, parse_path_from, path_of_segments. cbn [drop_slash].
  change (Ascii.eqb "/" "/") with true. cbv iota.
  rewrite (resolve_dots_id _ [] Hnd). cbn [app].
  change (list_ascii_of_string "/") with ["/"%char].
  rewrite join_split. reflexivity.
Qed.

Lemma encode_path_id v :
  forallb path_char v = true -> flat_map encode_path_char v = v.
Proof.
  induction v as [|c v IH]; [reflexivity|]. cbn [forallb flat_map].
  intros H. apply andb_true_iff in H. destruct H as [Hc Hv].
  destruct (path_char_props c Hc) as (_ & _ & ->). rewrite (IH Hv). reflexivity.
Qed.

Lemma set_path_id v :
  path_ok v -> parse_path (flat_map encode_path_char v) = v.
Proof.
  intros Hv. pose proof Hv as (t & E & Hnd & Hc).
  rewrite (encode_path_id v Hc). apply parse_path_id. exact Hv.
Qed.

(** Collapsing keeps the first segment and keeps dot segments out of the
    rest. *)
Lemma collapse_segments s :
  hd [] (split_on "/" (collapse_slashes s)) = hd [] (split_on "/" s)
  /\ (nodots (tl (split_on "/" s)) ->
      nodots (tl (split_on "/" (collapse_slashes s)))).
Proof.
  unfold nodots. induction s as [|c s IH]; [split; auto|].
  destruct (split_on_cons "/" s) as (h & t & E).
  destruct (split_on_cons "/" (collapse_slashes s)) as (h' & t' & E').
  rewrite E, E' in IH. cbn [hd tl] in IH. destruct IH as [IHh IHt].
  destruct (Ascii.eqb c "/") eqn:Ec.
  - apply Ascii.eqb_eq in Ec. subst c.
    assert (Hs : forall r, split_on "/" ("/"%char :: r) = [] :: split_on "/" r)
      by reflexivity.
    destruct s as [|d s].
    + split; [reflexivity|intros _; repeat constructor].
    + destruct (Ascii.eqb d "/") eqn:Ed.
      * apply Ascii.eqb_eq in Ed. subst d.
        change (collapse_slashes ("/"%char :: "/"%char :: s))
          with (collapse_slashes ("/"%char :: s)).
        rewrite E', Hs. cbn [hd tl]. rewrite IHh. rewrite Hs in E.
        injection E as <- <-. split; [reflexivity|].
        intros H. apply IHt. rewrite Hs in H. inversion H; assumption.
      * assert (Hc : collapse_slashes ("/"%char :: d :: s)
                     = "/"%char :: collapse_slashes (d :: s)).
        { cbn [collapse_slashes]. change (Ascii.eqb "/" "/") with true.
          cbv iota. rewrite Ed. reflexivity. }
        rewrite Hc, !Hs. cbn [hd tl]. split; [reflexivity|].
        rewrite E', E. intros H. inversion H as [|? ? Hh Ht]; subst.
        constructor; [exact Hh|apply IHt; exact Ht].
  - assert (Hc : collapse_slashes (c :: s) = c :: collapse_slashes s).
    { cbn [collapse_slashes]. rewrite Ec. reflexivity. }
    rewrite Hc. cbn [split_on]. rewrite Ec, E, E'. cbn [push_head hd tl].
    subst h'. split; [reflexivity|exact IHt].
Qed.

Lemma collapse_ok p : path_ok p -> path_ok (collapse_slashes p).
Proof.
  intros (t & -> & Hnd & Hc).
  destruct (collapse_head t) as (t' & E). rewrite E.
  exists t'. split; [reflexivity|]. split.
  - destruct (collapse_segments ("/"%char :: t)) as [_ H].
    rewrite E in H. cbn [split_on] in H.
    change (Ascii.eqb "/" "/") with true in H. cbv iota in H.
    apply H. exact Hnd.
  - rewrite <- E. apply forallb_forall. intros x Hx.
    apply (forallb_In _ _ _ Hc). apply collapse_chars. exact Hx.
Qed.

Lemma strip_ok x : path_ok (x ++ ["/"%char]) -> x <> [] -> path_ok x.
Proof.
  intros (t & E & Hnd & Hc) Hne.
  destruct x as [|c x]; [congruence|]. cbn [app] in E. injection E as -> <-.
  exists x. split; [reflexivity|]. split.
  - unfold nodots in *. rewrite split_on_snoc in Hnd.
    apply Forall_app in Hnd. tauto.
  - change ("/"%char :: x ++ ["/"%char]) with (("/"%char :: x) ++ ["/"%char]) in Hc.
    rewrite forallb_app in Hc. apply andb_true_iff in Hc. tauto.
Qed.

(** The two path steps of [normalizeUrl], on the pathname. *)
Definition norm_path (p : str) : str :=
  let p1 := parse_path (flat_map encode_path_char (collapse_slashes p)) in
  if (1 <? length p1) && endsWith p1 "/"
  then parse_path (flat_map encode_path_char (slice_0_m1 p1))
  else p1.

Lemma norm_path_fixed x :
  path_ok x -> collapse_slashes x = x ->
  (1 <? length x) && endsWith x "/" = false ->
  norm_path x = x.
Proof.
  intros Hx Hxx Hcond. unfold norm_path. cbv zeta.
  rewrite Hxx, (set_path_id _ Hx), Hcond. reflexivity.
Qed.

Lemma norm_path_ok p :
  path_ok p -> path_ok (norm_path p) /\ norm_path (norm_path p) = norm_path p.
Proof.
  intros Hp. pose proof (collapse_ok p Hp) as Hq.
  assert (Hqq : collapse_slashes (collapse_slashes p) = collapse_slashes p)
    by apply collapse_idem.
  assert (Hn : exists x, norm_path p = x /\ path_ok x /\ collapse_slashes x = x
                         /\ (1 <? length x) && endsWith x "/" = false).
  { unfold norm_path. cbv zeta. rewrite (set_path_id _ Hq).
    set (q := collapse_slashes p) in *.
    destruct ((1 <? length q) && endsWith q "/") eqn:Hcond.
    - apply andb_true_iff in Hcond. destruct Hcond as [Hlen Hends].
      apply Nat.ltb_lt in Hlen.
      destruct (endsWith_slash q Hends) as (x & Ex).
      unfold slice_0_m1. rewrite Ex, removelast_last.
      assert (Hx : path_ok x).
      { apply strip_ok; [rewrite <- Ex; exact Hq|].
        intros ->. rewrite Ex in Hlen. simpl in Hlen. lia. }
      rewrite (set_path_id _ Hx). exists x.
      split; [reflexivity|]. split; [exact Hx|].
      split; [apply collapsed_init; rewrite <- Ex; exact Hqq|].
      destruct ((1 <? length x) && endsWith x "/") eqn:Hcond'; [|reflexivity].
      exfalso. apply andb_true_iff in Hcond'. destruct Hcond' as [_ Hends'].
      destruct (endsWith_slash x Hends') as (y & Ey).
      pose proof (collapse_two_slashes y) as Hlt.
      replace (y ++ ["/"%char; "/"%char]) with q in Hlt
        by (rewrite Ex, Ey, <- app_assoc; reflexivity).
      rewrite Hqq in Hlt. lia.
    - exists q. auto. }
  destruct Hn as (x & -> & Hx & Hxx & Hcond).
  split; [exact Hx|apply norm_path_fixed; assumption].
Qed.

(** *** Queries *)

(** A character of a serialised name or value. *)
Definition query_char (x : ascii) : bool :=
  url_char x && negb (one_of "&=#" x).

Lemma query_char_props c :
  query_char c = true ->
  url_char c = true /\ Ascii.eqb c "=" = false /\ c <> "&"%char
  /\ Ascii.eqb c "#" = false.
Proof.
  destruct c as [[] [] [] [] [] [] [] []]; cbv; intros H;
    try discriminate H; repeat split; try reflexivity; discriminate.
Qed.

Lemma form_encode_chars s : forallb query_char (form_encode s) = true.
Proof.
  induction s as [|c s IH]; [reflexivity|].
  unfold form_encode. cbn [flat_map]. rewrite forallb_app.
  apply andb_true_iff. split; [exact (form_encode_char_props c)|exact IH].
Qed.

Lemma decode_encode s : percent_decode (plus_to_space (form_encode s)) = s.
Proof.
  induction s as [|c s IH]; [reflexivity|].
  unfold form_encode. cbn [flat_map]. rewrite decode_encode_char.
  f_equal. exact IH.
Qed.

Definition encode_pair (kv : str * str) : str :=
  form_encode (fst kv) ++ "=" ++ form_encode (snd kv).

Lemma encode_pair_chars kv x :
  In x (encode_pair kv) -> x = "="%char \/ query_char x = true.
Proof.
  unfold encode_pair. intros H. apply in_app_iff in H.
  destruct H as [H|[H|H]]; [right|left; symmetry; exact H|right];
    eapply forallb_In; try exact H; apply form_encode_chars.
Qed.

Lemma parse_pair_encode kv : parse_pair (encode_pair kv) = kv.
Proof.
  unfold parse_pair, encode_pair. rewrite break_app.
  - cbn [tl list_ascii_of_string app]. rewrite !decode_encode.
    destruct kv; reflexivity.
  - apply Forall_forall. intros x Hx.
    apply (query_char_props x).
    exact (forallb_In _ _ _ (form_encode_chars (fst kv)) Hx).
  - right. exists "="%char, (form_encode (snd kv)). split; reflexivity.
Qed.

(** Parsing a serialised list gives the list back. *)
Lemma parse_serialize l : parse_query (serialize_params l) = l.
Proof.
  destruct l as [|kv l]; [reflexivity|].
  unfold parse_query, serialize_params.
  change (list_ascii_of_string "&") with ["&"%char].
  change (fun kv0 : str * str => form_encode (fst kv0) ++ "=" ++ form_encode (snd kv0))
    with encode_pair.
  rewrite split_join.
  - rewrite filter_nonEmpty_id.
    + rewrite map_map. rewrite <- (map_id (kv :: l)) at 2.
      apply map_ext. intros a. apply parse_pair_encode.
    + intros H. apply in_map_iff in H. destruct H as (a & Ha & _).
      unfold encode_pair in Ha. destruct (form_encode (fst a)); discriminate Ha.
  - discriminate.
  - intros p Hp Hin. apply in_map_iff in Hp. destruct Hp as (a & <- & _).
    apply encode_pair_chars in Hin. destruct Hin as [Hin|Hin];
      [discriminate Hin|]. apply query_char_props in Hin.
    destruct Hin as (_ & _ & Hne & _). apply Hne. reflexivity.
Qed.

(** A character of a query: a URL character other than [#]. *)
Definition hashless (x : ascii) : bool := url_char x && negb (Ascii.eqb x "#").

Lemma hashless_props c :
  hashless c = true -> url_char c = true /\ Ascii.eqb c "#" = false.
Proof.
  unfold hashless. intros H. apply andb_true_iff in H. destruct H as [H1 H2].
  apply negb_true_iff in H2. tauto.
Qed.

Lemma serialize_chars l : forallb hashless (serialize_params l) = true.
Proof.
  apply forallb_forall. intros x Hx. unfold serialize_params in Hx.
  apply join_chars in Hx. destruct Hx as [[<-|[]]|(p & Hp & Hx)];
    [reflexivity|].
  apply in_map_iff in Hp. destruct Hp as (a & <- & _).
  apply (encode_pair_chars a) in Hx. destruct Hx as [->|Hx]; [reflexivity|].
  apply query_char_props in Hx. destruct Hx as (Hu & _ & _ & Hh).
  unfold hashless. rewrite Hu, Hh. reflexivity.
Qed.

(** *** The normal form of a URL record *)

(** The first steps of [normalizeUrl] on the parsed record: fragment,
    protocol, host name, default port. *)
Definition prep (r : url) : url :=
  let r := set_hash [] r in
  let r := set_protocol (toLowerCase (protocol r)) r in
  let r := set_hostname (toLowerCase (host r)) r in
  if (str_eqb (protocol r) "http:" && str_eqb (port r) "80")
     || (str_eqb (protocol r) "https:" && str_eqb (port r) "443")
  then set_port [] r else r.

(** The last steps: the query is rebuilt from the list [l], the
    pathname is collapsed and loses its trailing slash. *)
Definition finish (r : url) (l : list (str * str)) : url :=
  let r := set_search [] r in
  let r := fold_left (fun o kv => append (fst kv) (snd kv) o) l r in
  let r := set_pathname (collapse_slashes (path r)) r in
  if (1 <? length (path r)) && endsWith (path r) "/"
  then set_pathname (slice_0_m1 (path r)) r else r.

Definition normal (r : url) : url :=
  finish (prep r) (js_sort by_key (untracked (params (prep r)))).

Lemma normalizeUrl_normal hash hrefs num num_ok u :
  normalizeUrl (P := platform hash hrefs num num_ok) u
  = option_map (fun r => href (normal r)) (parse u).
Proof.
  unfold normalizeUrl. cbn [new_URL platform].
  destruct (parse u); reflexivity.
Qed.

Lemma fold_append l u :
  fold_left (fun o kv => append (fst kv) (snd kv) o) l u
  = match l with
    | [] => u
    | _ :: _ =>
        mkUrl (scheme u) (host u) (port u) (path u)
              (Some (serialize_params (params u ++ l))) (params u ++ l)
              (fragment u)
    end.
Proof.
  revert u. induction l as [|x l IH]; intros u; [reflexivity|].
  cbn [fold_left]. rewrite IH. destruct x as [k v].
  destruct l as [|y l]; [reflexivity|].
  unfold append. cbn [scheme host port path params fragment].
  rewrite <- app_assoc. reflexivity.
Qed.

Definition query_of (l : list (str * str)) : option str :=
  match l with [] => None | _ :: _ => Some (serialize_params l) end.

Lemma finish_spec u l :
  finish u l
  = mkUrl (scheme u) (host u) (port u) (norm_path (path u)) (query_of l) l
          (fragment u).
Proof.
  unfold finish. rewrite fold_append. unfold norm_path, query_of.
  destruct l as [|x l];
    cbn [set_search set_pathname scheme host port path query params fragment app];
    match goal with |- context [if ?c then _ else _] => destruct c end;
    reflexivity.
Qed.

(** A record as the parser leaves it. *)
Definition wf (r : url) : Prop :=
  special_scheme (scheme r) = true
  /\ valid_host (host r) = true
  /\ port_ok (scheme r) (port r)
  /\ path_ok (path r).

Lemma special_scheme_cases s :
  special_scheme s = true -> s = "http" \/ s = "https".
Proof.
  unfold special_scheme. intros H. apply orb_true_iff in H.
  destruct H as [H|H]; apply str_eqb_eq in H; tauto.
Qed.

Lemma prep_wf r :
  wf r ->
  prep r = mkUrl (scheme r) (host r) (port r) (path r) (query r) (params r) None.
Proof.
  destruct r as [s h p pa q ps f]. unfold wf.
  cbn [scheme host port path]. intros (Hs & Hh & Hp & _).
  assert (Hdef : str_eqb p (default_port s) = false).
  { destruct p as [|c p]; [|apply (port_ok_not_default s); [exact Hp|reflexivity]].
    destruct (special_scheme_cases s Hs) as [-> | ->]; reflexivity. }
  assert (Hprot : toLowerCase (fst (break (fun c => Ascii.eqb c ":")
                                          (toLowerCase (s ++ ":")))) = s)
    by (destruct (special_scheme_cases s Hs) as [-> | ->]; reflexivity).
  assert (Hcond : (str_eqb (s ++ ":") "http:" && str_eqb p "80")
                  || (str_eqb (s ++ ":") "https:" && str_eqb p "443") = false).
  { destruct (special_scheme_cases s Hs) as [-> | ->].
    - change (default_port "http") with ("80" : str) in Hdef. rewrite Hdef.
      reflexivity.
    - change (default_port "https") with ("443" : str) in Hdef. rewrite Hdef.
      rewrite andb_false_r. reflexivity. }
  unfold prep, set_hash, set_protocol, set_hostname, protocol.
  cbn [scheme host port path query params fragment].
  rewrite Hprot, Hs. cbn [scheme host port path query params fragment].
  rewrite Hdef, !(valid_host_lower h Hh), Hh.
  cbn [scheme host port path query params fragment].
  rewrite Hcond. reflexivity.
Qed.



(** A record in normal form. *)
Definition normalized (n : url) : Prop :=
  wf n
  /\ norm_path (path n) = path n
  /\ fragment n = None
  /\ sorted by_key (params n)
  /\ untracked (params n) = params n
  /\ query n = query_of (params n).

Lemma normal_normalized r : wf r -> normalized (normal r).
Proof.
  intros Hr. pose proof Hr as (Hs & Hh & Hp & Hpa).
  unfold normal. rewrite finish_spec, (prep_wf r Hr).
  cbn [scheme host port path query params fragment].
  destruct (norm_path_ok _ Hpa) as [Hok Hfix].
  unfold normalized, wf. cbn [scheme host port path query params fragment].
  repeat split; try assumption.
  - apply js_sort_sorted. exact by_key_total.
  - apply untracked_fixed.
    apply (Permutation_Forall (js_sort_perm by_key _)).
    apply untracked_Forall.
Qed.


(** *** Parsing and printing *)

Lemma parse_wf u r : parse u = Some r -> wf r.
Proof.
  unfold parse.
  destruct (forallb url_char u) eqn:Hu; cbn [negb]; [|discriminate].
  pose proof (break_spec (fun c => Ascii.eqb c ":") u) as B0.
  destruct (break (fun c => Ascii.eqb c ":") u) as [sch rest0].
  destruct B0 as (Eu & _ & _).
  destruct (special_scheme (toLowerCase sch)) eqn:Hs; cbn [negb];
    [|discriminate].
  destruct rest0 as [|c0 rest1]; [discriminate|].
  unfold parse_after_scheme.
  destruct rest1 as [|c1 [|c2 rest2]]; try discriminate.
  destruct (negb (Ascii.eqb c1 "/" && Ascii.eqb c2 "/")); [discriminate|].
  pose proof (break_spec (one_of "/?#") rest2) as B1.
  destruct (break (one_of "/?#") rest2) as [auth rest3].
  destruct B1 as (E2 & _ & _).
  destruct (existsb (fun c => Ascii.eqb c "@") auth); [discriminate|].
  destruct (break (fun c => Ascii.eqb c ":") auth) as [h p].
  destruct (valid_host (toLowerCase h)) eqn:Hh; cbn [negb]; [|discriminate].
  destruct (parse_port (toLowerCase sch) (tl p)) as [prt|] eqn:Hp;
    [|discriminate].
  pose proof (break_spec (one_of "?#") rest3) as B2.
  destruct (break (one_of "?#") rest3) as [rawpath rest4].
  destruct B2 as (E3 & Hraw & _).
  destruct (parse_tail rest4) as [q f]. intros [= <-].
  unfold wf. cbn [scheme host port path].
  split; [exact Hs|]. split; [exact Hh|].
  split; [eapply parse_port_ok; exact Hp|].
  apply parse_path_ok. apply forallb_forall. intros x Hx.
  unfold path_char. rewrite Forall_forall in Hraw. rewrite (Hraw x Hx).
  rewrite andb_true_r. apply (forallb_In _ _ _ Hu).
  rewrite Eu. apply in_app_iff. right. do 3 right.
  rewrite E2. apply in_app_iff. right.
  rewrite E3. apply in_app_iff. left. exact Hx.
Qed.

(** Parsing the text of a record in normal form gives the record
    back. *)
Lemma parse_href n : normalized n -> parse (href n) = Some n.
Proof.
  intros (Hwf & _ & Hf & _ & _ & Hq).
  destruct n as [s h p pa q ps f].
  destruct Hwf as (Hs & Hh & Hp & Hpa).
  cbn [scheme host port path query params fragment] in *. subst f.
  assert (Hqc : match q with
                | Some q' => forallb hashless q' = true
                | None => True
                end).
  { subst q. destruct ps; [exact I|apply serialize_chars]. }
  assert (Hps : params_of q = ps).
  { subst q. destruct ps; [reflexivity|apply parse_serialize]. }
  clear Hq.
  assert (Hlow : toLowerCase s = s
                 /\ Forall (fun c => Ascii.eqb c ":" = false) s
                 /\ forallb url_char s = true).
  { destruct (special_scheme_cases s Hs) as [-> | ->];
      (split; [reflexivity|split; [repeat constructor|reflexivity]]). }
  destruct Hlow as (Hlow & Hsc & Hsu).
  unfold href. cbn [scheme host port path query params fragment].
  rewrite app_nil_r.
  set (pt := if nonEmpty p then ":" ++ p else []).
  set (qt := match q with Some q' => "?" ++ q' | None => [] end).
  change ("://" ++ h ++ pt ++ pa ++ qt)
    with (":"%char :: "/"%char :: "/"%char :: h ++ pt ++ pa ++ qt).
  assert (Hhc : forall c, In c h ->
            url_char c = true /\ one_of "/?#" c = false
            /\ Ascii.eqb c ":" = false /\ Ascii.eqb c "@" = false).
  { intros c Hc. apply host_char_props. apply (valid_host_chars h); assumption. }
  assert (Hptc : forall c, In c pt ->
            url_char c = true /\ one_of "/?#" c = false
            /\ Ascii.eqb c "@" = false).
  { intros c Hc. unfold pt in Hc. destruct (nonEmpty p); [|destruct Hc].
    destruct Hc as [<-|Hc]; [repeat split; reflexivity|].
    apply digit_props.
    eapply forallb_In; [apply (port_ok_digits s); exact Hp|exact Hc]. }
  assert (Hpac : forall c, In c pa ->
            url_char c = true /\ one_of "?#" c = false).
  { intros c Hc. destruct Hpa as (t & _ & _ & Hall).
    destruct (path_char_props c (forallb_In _ _ _ Hall Hc)) as (? & ? & _).
    tauto. }
  assert (Hqtc : forall c, In c qt -> url_char c = true).
  { intros c Hc. unfold qt in Hc. destruct q as [q'|]; [|destruct Hc].
    destruct Hc as [<-|Hc]; [reflexivity|].
    apply hashless_props. eapply forallb_In; eassumption. }
  unfold parse.
  assert (Hu : forallb url_char
                 (s ++ ":"%char :: "/"%char :: "/"%char :: h ++ pt ++ pa ++ qt)
               = true).
  { apply forallb_forall. intros c Hc. apply in_app_iff in Hc.
    destruct Hc as [Hc|[<-|[<-|[<-|Hc]]]]; try reflexivity.
    - eapply forallb_In; eassumption.
    - apply in_app_iff in Hc. destruct Hc as [Hc|Hc]; [apply Hhc; exact Hc|].
      apply in_app_iff in Hc. destruct Hc as [Hc|Hc]; [apply Hptc; exact Hc|].
      apply in_app_iff in Hc. destruct Hc as [Hc|Hc]; [apply Hpac; exact Hc|].
      apply Hqtc; exact Hc. }
  rewrite Hu. cbn [negb].
  rewrite (break_app (fun c => Ascii.eqb c ":") s _ Hsc)
    by (right; eexists _, _; split; reflexivity).
  rewrite Hlow, Hs. cbn [negb].
  unfold parse_after_scheme.
  change (Ascii.eqb "/" "/") with true. cbn [andb negb].
  rewrite (app_assoc h pt).
  rewrite (break_app (one_of "/?#") (h ++ pt) (pa ++ qt)).
  2:{ apply Forall_forall. intros c Hc. apply in_app_iff in Hc.
      destruct Hc as [Hc|Hc]; [apply Hhc|apply Hptc]; exact Hc. }
  2:{ right. destruct Hpa as (t & -> & _). exists "/"%char, (t ++ qt).
      split; reflexivity. }
  assert (Hat : existsb (fun c => Ascii.eqb c "@") (h ++ pt) = false).
  { apply not_true_iff_false. intros H. apply existsb_exists in H.
    destruct H as (c & Hc & Hc'). apply in_app_iff in Hc.
    destruct Hc as [Hc|Hc]; [apply Hhc in Hc|apply Hptc in Hc];
      intuition congruence. }
  rewrite Hat.
  rewrite (break_app (fun c => Ascii.eqb c ":") h pt).
  2:{ apply Forall_forall. intros c Hc. apply Hhc. exact Hc. }
  2:{ unfold pt. destruct (nonEmpty p);
        [right; exists ":"%char, p; split; reflexivity|left; reflexivity]. }
  rewrite (valid_host_lower h Hh), Hh. cbn [negb].
  assert (Hpp : parse_port s (tl pt) = Some p).
  { unfold pt. destruct Hp as [-> | [Hne Hp]]; [reflexivity|].
    rewrite Hne. exact Hp. }
  rewrite Hpp.
  rewrite (break_app (one_of "?#") pa qt).
  2:{ apply Forall_forall. intros c Hc. apply Hpac. exact Hc. }
  2:{ unfold qt. destruct q as [q'|];
        [right; exists "?"%char, q'; split; reflexivity|left; reflexivity]. }
  assert (Hpt : parse_tail qt = (q, None)).
  { unfold qt, parse_tail. destruct q as [q'|]; [|reflexivity].
    change ("?" ++ q') with ("?"%char :: q').
    change (Ascii.eqb "?" "?") with true. cbv iota.
    pose proof (break_app (fun c => Ascii.eqb c "#") q' []) as E.
    rewrite app_nil_r in E. rewrite E; [reflexivity| |left; reflexivity].
    apply Forall_forall. intros c Hc. apply hashless_props.
    eapply forallb_In; eassumption. }
  rewrite Hpt, (parse_path_id pa Hpa), Hps. reflexivity.
Qed.

(** *** Lists of parameters with distinct keys *)




End WhatwgFacts.

(* ------------------------------------------------------------------ *)
(** ** normalizeUrl: fixed points and insensitivity *)
(* ------------------------------------------------------------------ *)






(* ------------------------------------------------------------------ *)
(** ** The crawl: what the frontier and the result hold *)
(* ------------------------------------------------------------------ *)

Section CrawlAudit.
Context {P : Platform} (net : Network).
Variables (startUrl startHost : str) (robots : Robots) (maxPages : nat)
          (includeDebug : bool).

Local Abbreviation tr := (trace includeDebug).
Local Abbreviation xlink := (extract_link startHost includeDebug).
Local Abbreviation proc := (process net startHost robots includeDebug).
Local Abbreviation step := (loop_step net startHost robots maxPages includeDebug).
Local Abbreviation reach := (reachable net startHost robots maxPages includeDebug).

(** A URL that the crawl may dequeue: the seed, or an internal link
    that is not a resource. *)
Definition crawlable (u : str) : Prop :=
  u = startUrl
  \/ (isInternalLink u startHost = true /\ isSkippableResource u = false).

(** What is known of a visited page [n]: it is the normal form of a URL
    that passed every check of the loop, was answered with a 2xx status,
    and whose content hash is recorded for [n]. *)
Definition fetched_page (hashes : list (str * str)) (n : str) : Prop :=
  exists u pu status data,
    (u = startUrl \/ isInternalLink u startHost = true)
    /\ truthy (normalizeUrl u) = Some n
    /\ isSkippableResource u = false
    /\ new_URL u = Some pu
    /\ isPathAllowed (url_pathname pu) robots = true
    /\ axiosInstance_get net u = Resolved status data
    /\ (200 <= status < 300)%Z
    /\ map_get (sha256_hex data) hashes = Some n.

Definition audit_inv (st : CrawlState) : Prop :=
  NoDup (visited st)
  /\ NoDup (discovered st)
  /\ (forall u, In u (queue st) -> crawlable u)
  /\ (forall n, In n (discovered st) ->
                exists u, truthy (normalizeUrl u) = Some n)
  /\ (forall n, In n (visited st) -> fetched_page (contentHashes st) n).

Lemma audit_inv_ext st st' :
  visited st' = visited st -> discovered st' = discovered st ->
  queue st' = queue st -> contentHashes st' = contentHashes st ->
  audit_inv st -> audit_inv st'.
Proof. unfold audit_inv. intros -> -> -> ->. tauto. Qed.

Lemma audit_inv_start : audit_inv (initial_state startUrl).
Proof.
  unfold audit_inv, initial_state. cbn [visited discovered queue contentHashes].
  split; [constructor|]. split.
  - destruct (truthy (normalizeUrl startUrl)); repeat constructor. intros [].
  - split; [intros u [<-|[]]; left; reflexivity|].
    split; [|intros n []].
    intros n Hn. exists startUrl.
    destruct (truthy (normalizeUrl startUrl)) as [n0|]; [|destruct Hn].
    destruct Hn as [<-|[]]. reflexivity.
Qed.

Lemma extract_link_audit current nc st href :
  let st' := xlink current nc st href in
  visited st' = visited st
  /\ contentHashes st' = contentHashes st
  /\ (NoDup (discovered st) -> NoDup (discovered st'))
  /\ (forall u, In u (queue st') ->
        In u (queue st)
        \/ (isInternalLink u startHost = true
            /\ isSkippableResource u = false))
  /\ (forall n, In n (discovered st') ->
        In n (discovered st)
        \/ exists u, truthy (normalizeUrl u) = Some n).
Proof.
  cbv zeta. unfold extract_link.
  destruct (truthy (resolveLink href current)) as [resolved|];
    [|repeat split; auto].
  destruct (isInternalLink resolved startHost) eqn:Hint; cbn [negb];
    [|repeat split; auto].
  destruct (isSkippableResource resolved) eqn:Hsk; [repeat split; auto|].
  destruct (truthy (normalizeUrl resolved)) as [n|] eqn:Hn;
    [|repeat split; auto].
  destruct (set_has n (discovered st)) eqn:Hd; cbn [negb];
    [repeat split; auto|].
  rewrite trace_visited, trace_contentHashes, trace_discovered, trace_queue.
  cbn [enqueue discover visited discovered queue contentHashes].
  split; [reflexivity|]. split; [reflexivity|]. split; [|split].
  - apply set_add_NoDup.
  - intros u Hu. apply in_app_iff in Hu. destruct Hu as [Hu|[<-|[]]]; auto.
  - intros m Hm. apply set_add_In in Hm. destruct Hm as [->|Hm]; eauto.
Qed.

Lemma extract_links_audit current nc hrefs st :
  let st' := fold_left (xlink current nc) hrefs st in
  visited st' = visited st
  /\ contentHashes st' = contentHashes st
  /\ (NoDup (discovered st) -> NoDup (discovered st'))
  /\ (forall u, In u (queue st') ->
        In u (queue st)
        \/ (isInternalLink u startHost = true
            /\ isSkippableResource u = false))
  /\ (forall n, In n (discovered st') ->
        In n (discovered st)
        \/ exists u, truthy (normalizeUrl u) = Some n).
Proof.
  revert st. induction hrefs as [|h hrefs IH]; intros st; cbn [fold_left].
  - cbv zeta. repeat split; auto.
  - specialize (IH (xlink current nc st h)). cbv zeta in IH |- *.
    destruct IH as (Fv & Fc & Fnd & Fq & Fd).
    destruct (extract_link_audit current nc st h) as (Ev & Ec & End' & Eq & Ed).
    rewrite Fv, Fc, Ev, Ec.
    split; [reflexivity|]. split; [reflexivity|]. split; [auto|]. split.
    + intros u Hu. destruct (Fq u Hu) as [Hq|Hq]; [apply Eq; exact Hq|auto].
    + intros n Hn. destruct (Fd n Hn) as [Hq|Hq]; [apply Ed; exact Hq|auto].
Qed.

(** The turns that only record the dequeued URL as discovered. *)
Lemma audit_discover current nc a st st1 :
  visited st1 = visited st -> discovered st1 = discovered st ->
  queue st1 = queue st -> contentHashes st1 = contentHashes st ->
  truthy (normalizeUrl current) = Some nc ->
  audit_inv st -> audit_inv (tr current nc a (discover nc st1)).
Proof.
  intros E1 E2 E3 E4 Hn (Hv & Hd & Hq & Hdn & Hvf).
  unfold audit_inv.
  rewrite trace_visited, trace_discovered, trace_queue, trace_contentHashes.
  cbn [discover visited discovered queue contentHashes].
  rewrite E1, E2, E3, E4.
  split; [exact Hv|]. split; [apply set_add_NoDup; exact Hd|].
  split; [exact Hq|]. split; [|exact Hvf].
  intros n Hin. apply set_add_In in Hin. destruct Hin as [->|Hin]; eauto.
Qed.

Lemma process_audit current st :
  audit_inv st -> crawlable current -> audit_inv (proc current st).
Proof.
  intros Hinv Hcur. unfold process.
  destruct (truthy (normalizeUrl current)) as [nc|] eqn:Hn; [|exact Hinv].
  destruct (set_has nc (visited st)) eqn:Hvis; [exact Hinv|].
  apply set_has_false in Hvis.
  destruct (isSkippableResource current) eqn:Hsk;
    [apply (audit_discover current nc _ st); auto|].
  destruct (new_URL current) as [pu|] eqn:Hpu; [|apply (audit_discover current nc _ st); auto].
  destruct (isPathAllowed (url_pathname pu) robots) eqn:Hal; cbn [negb];
    [|apply (audit_discover current nc _ st); auto].
  assert (T : forall a s,
             visited (tr current nc a s) = visited s
             /\ discovered (tr current nc a s) = discovered s
             /\ queue (tr current nc a s) = queue s
             /\ contentHashes (tr current nc a s) = contentHashes s).
  { intros a s.
    rewrite trace_visited, trace_discovered, trace_queue, trace_contentHashes.
    tauto. }
  destruct (T fetching st) as (T1 & T2 & T3 & T4).
  destruct (axiosInstance_get net current) as [status data|] eqn:Hget;
    [|apply (audit_discover current nc _ st); auto].
  destruct ((status <? 200)%Z || (300 <=? status)%Z) eqn:Hst;
    [apply (audit_discover current nc _ st); auto|].
  rewrite T4.
  destruct (map_has (sha256_hex data) (contentHashes st)) eqn:Hh;
    [apply (audit_discover current nc _ st); auto|].
  apply orb_false_iff in Hst. destruct Hst as [Hlo Hhi].
  apply Z.ltb_ge in Hlo. apply Z.leb_gt in Hhi.
  set (h := sha256_hex data) in *.
  set (st2 := tr current nc (fetched (firstn 8 h))
                 (remember h nc (tr current nc fetching st))).
  assert (S2 : visited st2 = visited st /\ discovered st2 = discovered st
               /\ queue st2 = queue st
               /\ contentHashes st2 = map_set h nc (contentHashes st)).
  { unfold st2.
    rewrite trace_visited, trace_discovered, trace_queue, trace_contentHashes.
    cbn [remember visited discovered queue contentHashes].
    rewrite T1, T2, T3, T4. tauto. }
  destruct S2 as (S1 & S2 & S3 & S4).
  destruct (extract_links_audit current nc (cheerio_hrefs data) st2)
    as (Fv & Fc & Fnd & Fq & Fd).
  destruct Hinv as (Hv & Hd & Hq & Hdn & Hvf).
  unfold audit_inv. cbn [visit visited discovered queue contentHashes].
  rewrite Fv, Fc, S1, S4.
  split; [apply set_add_NoDup; exact Hv|].
  split; [apply Fnd; rewrite S2; exact Hd|].
  split; [|split].
  - intros u Hu. destruct (Fq u Hu) as [Hu'|Hu'].
    + apply Hq. rewrite <- S3. exact Hu'.
    + right. exact Hu'.
  - intros n Hin. destruct (Fd n Hin) as [Hin'|Hin']; [|exact Hin'].
    apply Hdn. rewrite <- S2. exact Hin'.
  - intros n Hin. apply set_add_In in Hin. destruct Hin as [->|Hin].
    + exists current, pu, status, data.
      split; [destruct Hcur as [Hc|[Hc _]]; auto|].
      split; [exact Hn|]. split; [exact Hsk|]. split; [exact Hpu|].
      split; [exact Hal|]. split; [exact Hget|]. split; [lia|].
      apply map_get_set_eq.
    + destruct (Hvf n Hin)
        as (u & pu' & s' & d' & A1 & A2 & A3 & A4 & A5 & A6 & A7 & A8).
      exists u, pu', s', d'. repeat (split; [assumption|]).
      rewrite map_get_set_ne; [exact A8|].
      intros E. unfold map_has in Hh. fold h in A8. rewrite E in A8.
      rewrite A8 in Hh. discriminate Hh.
Qed.

Lemma audit_inv_step st st' : audit_inv st -> step st = Some st' -> audit_inv st'.
Proof.
  intros Hinv Hs.
  destruct (step_inv _ _ _ _ _ _ _ Hs) as (current & rest & Hq & _ & ->).
  destruct Hinv as (Hv & Hd & Hqc & Hdn & Hvf).
  apply process_audit.
  - unfold audit_inv. cbn [visited discovered queue contentHashes].
    repeat (split; [assumption|]). split; [|split; assumption].
    intros u Hu. apply Hqc. rewrite Hq. right. exact Hu.
  - apply Hqc. rewrite Hq. left. reflexivity.
Qed.

Lemma audit_inv_reachable st : reach (initial_state startUrl) st -> audit_inv st.
Proof.
  induction 1 as [|a b Hab IH Hs].
  - apply audit_inv_start.
  - eapply audit_inv_step; eassumption.
Qed.

End CrawlAudit.

(** The state in which [crawlWebsite] leaves its loop, with the host and
    the rules it ran with. *)
Lemma crawlWebsite_final {P : Platform} (net : Network) startUrl maxPages dbg r :
  crawlWebsite net startUrl maxPages dbg = Some r ->
  exists u0 st,
    new_URL startUrl = Some u0
    /\ reachable net (url_hostname u0) (fetchRobots net startUrl) maxPages
                 (match dbg with Some b => b | None => false end)
                 (initial_state startUrl) st
    /\ r_visited r = visited st
    /\ r_discovered r = discovered st
    /\ urlsInSitemap (r_stats r) = length (visited st)
    /\ urlsDiscovered (r_stats r) = length (discovered st).
Proof.
  unfold crawlWebsite. destruct (new_URL startUrl) as [u|]; [|discriminate].
  intros [= <-].
  set (b := match dbg with Some b => b | None => false end).
  destruct (crawl_loop_spec net (url_hostname u) (fetchRobots net startUrl)
              maxPages b (initial_state startUrl)) as [Hr _].
  exists u. eexists. split; [reflexivity|]. split; [exact Hr|].
  cbn [r_visited r_discovered r_stats urlsInSitemap urlsDiscovered].
  pose proof (audit_inv_reachable net startUrl _ _ _ _ _ Hr)
    as (_ & _ & _ & Hdn & Hvf).
  split; [|split; [|tauto]].
  - apply filter_nonEmpty_id. intros Hin.
    destruct (Hvf _ Hin) as (x & _ & _ & _ & _ & Hn & _).
    apply truthy_Some in Hn. destruct Hn as [_ Hn]. congruence.
  - apply filter_nonEmpty_id. intros Hin.
    destruct (Hdn _ Hin) as (x & Hn).
    apply truthy_Some in Hn. destruct Hn as [_ Hn]. congruence.
Qed.

(** X1. The result of a crawl lists no URL twice, neither among the
    visited pages nor among the discovered ones. *)
Theorem crawl_lists_distinct {P : Platform} (net : Network)
    (startUrl : str) (maxPages : nat) (dbg : option bool) (r : CrawlResult) :
  crawlWebsite net startUrl maxPages dbg = Some r ->
  NoDup (r_visited r) /\ NoDup (r_discovered r).
Proof.
  intros Hr.
  destruct (crawlWebsite_final net _ _ _ _ Hr)
    as (u0 & st & _ & Hreach & Ev & Ed & _).
  pose proof (audit_inv_reachable net startUrl _ _ _ _ _ Hreach)
    as (Hv & Hd & _).
  rewrite Ev, Ed. split; assumption.
Qed.

(** X2. The statistics agree with the lists of the result:
    [urlsDiscovered] is the length of [discovered] (no entry is the
    empty string, so [filter(Boolean)] removes nothing), and
    [urlsInSitemap] is never larger than [urlsDiscovered]. *)
Theorem crawl_stats_consistent {P : Platform} (net : Network)
    (startUrl : str) (maxPages : nat) (dbg : option bool) (r : CrawlResult) :
  crawlWebsite net startUrl maxPages dbg = Some r ->
  urlsDiscovered (r_stats r) = length (r_discovered r)
  /\ urlsInSitemap (r_stats r) = length (r_visited r)
  /\ urlsInSitemap (r_stats r) <= urlsDiscovered (r_stats r).
Proof.
  intros Hr.
  destruct (crawlWebsite_final net _ _ _ _ Hr)
    as (u0 & st & _ & Hreach & Ev & Ed & Es & Et).
  pose proof (audit_inv_reachable net startUrl _ _ _ _ _ Hreach)
    as (Hv & _).
  pose proof (crawl_inv_reachable net _ _ _ _ _ _ Hreach) as (_ & _ & Hvd & _).
  rewrite Ev, Ed, Es, Et. split; [reflexivity|]. split; [reflexivity|].
  apply NoDup_incl_length; assumption.
Qed.

(** X3. Every page of the result's [visited] list is the normal form of
    a URL that is the seed or an internal link, is not a resource, is
    allowed by the rules of robots.txt, and was answered with a 2xx
    status. *)
Theorem visited_pages_passed_checks {P : Platform} (net : Network)
    (startUrl : str) (maxPages : nat) (dbg : option bool) (r : CrawlResult) :
  crawlWebsite net startUrl maxPages dbg = Some r ->
  exists u0,
    new_URL startUrl = Some u0
    /\ forall n, In n (r_visited r) ->
         exists u pu status data,
           (u = startUrl \/ isInternalLink u (url_hostname u0) = true)
           /\ normalizeUrl u = Some n
           /\ isSkippableResource u = false
           /\ new_URL u = Some pu
           /\ isPathAllowed (url_pathname pu) (fetchRobots net startUrl) = true
           /\ axiosInstance_get net u = Resolved status data
           /\ (200 <= status < 300)%Z.
Proof.
  intros Hr.
  destruct (crawlWebsite_final net _ _ _ _ Hr)
    as (u0 & st & Hu0 & Hreach & Ev & _).
  pose proof (audit_inv_reachable net startUrl _ _ _ _ _ Hreach)
    as (_ & _ & _ & _ & Hvf).
  exists u0. split; [exact Hu0|]. intros n Hn. rewrite Ev in Hn.
  destruct (Hvf n Hn) as (u & pu & s & d & A1 & A2 & A3 & A4 & A5 & A6 & A7 & _).
  exists u, pu, s, d. apply truthy_Some in A2. destruct A2 as [A2 _].
  repeat (split; [assumption|]). assumption.
Qed.

(** X4. Two different pages of the result's [visited] list were fetched
    with contents of different hashes: each visited page has a fetched
    URL whose response hashes to a value that belongs to that page
    alone. *)
Theorem visited_pages_distinct_content {P : Platform} (net : Network)
    (startUrl : str) (maxPages : nat) (dbg : option bool) (r : CrawlResult)
    (n1 n2 : str) :
  crawlWebsite net startUrl maxPages dbg = Some r ->
  In n1 (r_visited r) -> In n2 (r_visited r) ->
  exists u1 s1 d1 u2 s2 d2,
    normalizeUrl u1 = Some n1
    /\ axiosInstance_get net u1 = Resolved s1 d1
    /\ normalizeUrl u2 = Some n2
    /\ axiosInstance_get net u2 = Resolved s2 d2
    /\ (sha256_hex d1 = sha256_hex d2 -> n1 = n2).
Proof.
  intros Hr H1 H2.
  destruct (crawlWebsite_final net _ _ _ _ Hr)
    as (u0 & st & Hu0 & Hreach & Ev & _).
  pose proof (audit_inv_reachable net startUrl _ _ _ _ _ Hreach)
    as (_ & _ & _ & _ & Hvf).
  rewrite Ev in H1, H2.
  destruct (Hvf n1 H1) as (u1 & _ & s1 & d1 & _ & A2 & _ & _ & _ & A6 & _ & A8).
  destruct (Hvf n2 H2) as (u2 & _ & s2 & d2 & _ & B2 & _ & _ & _ & B6 & _ & B8).
  exists u1, s1, d1, u2, s2, d2.
  apply truthy_Some in A2. apply truthy_Some in B2.
  split; [tauto|]. split; [exact A6|]. split; [tauto|]. split; [exact B6|].
  intros E. rewrite E in A8. congruence.
Qed.

(* ------------------------------------------------------------------ *)
(** ** The crawl does not depend on [includeDebug] *)
(* ------------------------------------------------------------------ *)

(** The state without its debug records. *)
Definition erase_debug (st : CrawlState) : CrawlState :=
  mkState (visited st) (discovered st) (queue st) [] (contentHashes st).

Section DebugErasure.
Context {P : Platform} (net : Network).
Variables (startHost : str) (robots : Robots) (maxPages : nat) (b : bool).

Lemma erase_trace u n a st :
  erase_debug (trace b u n a st) = erase_debug st.
Proof. unfold trace. destruct b; reflexivity. Qed.

Lemma extract_link_erase current nc st href :
  erase_debug (extract_link startHost b current nc st href)
  = extract_link startHost false current nc (erase_debug st) href.
Proof.
  unfold extract_link. cbn [erase_debug discovered].
  destruct (truthy (resolveLink href current)) as [resolved|]; [|reflexivity].
  destruct (negb (isInternalLink resolved startHost)); [reflexivity|].
  destruct (isSkippableResource resolved); [reflexivity|].
  destruct (truthy (normalizeUrl resolved)) as [n|]; [|reflexivity].
  destruct (negb (set_has n (discovered st))); [|reflexivity].
  rewrite erase_trace. reflexivity.
Qed.

Lemma extract_links_erase current nc hrefs st :
  erase_debug (fold_left (extract_link startHost b current nc) hrefs st)
  = fold_left (extract_link startHost false current nc) hrefs (erase_debug st).
Proof.
  revert st. induction hrefs as [|h hrefs IH]; intros st; cbn [fold_left].
  - reflexivity.
  - rewrite IH, extract_link_erase. reflexivity.
Qed.

Lemma process_erase current st :
  erase_debug (process net startHost robots b current st)
  = process net startHost robots false current (erase_debug st).
Proof.
  unfold process. cbn [erase_debug visited].
  destruct (truthy (normalizeUrl current)) as [nc|]; [|reflexivity].
  destruct (set_has nc (visited st)); [reflexivity|].
  destruct (isSkippableResource current); [rewrite erase_trace; reflexivity|].
  destruct (new_URL current) as [pu|]; [|rewrite erase_trace; reflexivity].
  destruct (negb (isPathAllowed (url_pathname pu) robots));
    [rewrite erase_trace; reflexivity|].
  assert (D : forall a,
             erase_debug (trace b current nc a
                            (discover nc (trace b current nc fetching st)))
             = trace false current nc a
                 (discover nc (trace false current nc fetching
                                 (erase_debug st)))).
  { intros a. unfold trace. destruct b; reflexivity. }
  destruct (axiosInstance_get net current) as [status data|]; [|apply D].
  destruct ((status <? 200)%Z || (300 <=? status)%Z); [apply D|].
  rewrite !trace_contentHashes. cbn [erase_debug contentHashes].
  destruct (map_has (sha256_hex data) (contentHashes st)); [apply D|].
  change (erase_debug (visit nc ?s)) with (visit nc (erase_debug s)).
  rewrite extract_links_erase, erase_trace. f_equal. f_equal.
  unfold trace. destruct b; reflexivity.
Qed.

Lemma loop_step_erase st :
  loop_step net startHost robots maxPages false (erase_debug st)
  = option_map erase_debug (loop_step net startHost robots maxPages b st).
Proof.
  unfold loop_step. cbn [erase_debug queue visited].
  destruct (queue st) as [|current rest]; [reflexivity|].
  destruct (length (visited st) <? maxPages); [|reflexivity].
  cbn [option_map]. rewrite process_erase. reflexivity.
Qed.

Lemma reachable_erase st0 st :
  reachable net startHost robots maxPages b st0 st ->
  reachable net startHost robots maxPages false (erase_debug st0)
            (erase_debug st).
Proof.
  induction 1 as [|a c Hab IH Hs]; [apply reach_start|].
  eapply reach_step; [exact IH|].
  rewrite loop_step_erase, Hs. reflexivity.
Qed.

End DebugErasure.

(** The loop gives the same result from every state it goes through. *)
Lemma crawl_loop_reach {P : Platform} (net : Network) startHost robots
    maxPages b st0 st :
  reachable net startHost robots maxPages b st0 st ->
  crawl_loop net startHost robots maxPages b st0
  = crawl_loop net startHost robots maxPages b st.
Proof.
  induction 1 as [|a c Hab IH Hs]; [reflexivity|].
  rewrite IH. apply loop_continue. exact Hs.
Qed.

Lemma crawl_loop_erase {P : Platform} (net : Network) startHost robots
    maxPages b st :
  erase_debug (crawl_loop net startHost robots maxPages b st)
  = crawl_loop net startHost robots maxPages false (erase_debug st).
Proof.
  destruct (crawl_loop_spec net startHost robots maxPages b st) as [Hr Hn].
  apply (reachable_erase net) in Hr.
  rewrite (crawl_loop_reach net _ _ _ _ _ _ Hr).
  symmetry. apply loop_exit.
  rewrite (loop_step_erase net startHost robots maxPages b), Hn. reflexivity.
Qed.

(** The fields of the result that do not hold debug records. *)
Definition crawl_outcome (r : CrawlResult)
  : list str * list str * CrawlStats :=
  (r_discovered r, r_visited r, r_stats r).

Lemma crawl_outcome_debug {P : Platform} (net : Network) startUrl maxPages dbg :
  option_map crawl_outcome (crawlWebsite net startUrl maxPages dbg)
  = option_map crawl_outcome (crawlWebsite net startUrl maxPages None).
Proof.
  unfold crawlWebsite.
  destruct (new_URL startUrl) as [u|]; [|reflexivity].
  cbn [option_map]. unfold crawl_outcome.
  cbn [r_discovered r_visited r_stats].
  set (bb := match dbg with Some b => b | None => false end).
  pose proof (crawl_loop_erase net (url_hostname u)
                (fetchRobots net startUrl) maxPages bb
                (initial_state startUrl)) as E.
  change (erase_debug (initial_state startUrl))
    with (initial_state startUrl) in E.
  rewrite <- E. reflexivity.
Qed.

(** X5. The lists and the statistics of a crawl are the same whether
    debug records are asked for or not. *)
Theorem debug_does_not_change_crawl {P : Platform} (net : Network)
    (startUrl : str) (maxPages : nat) (dbg1 dbg2 : option bool) :
  option_map crawl_outcome (crawlWebsite net startUrl maxPages dbg1)
  = option_map crawl_outcome (crawlWebsite net startUrl maxPages dbg2).
Proof.
  rewrite (crawl_outcome_debug net startUrl maxPages dbg1),
          (crawl_outcome_debug net startUrl maxPages dbg2).
  reflexivity.
Qed.

(** X6. For the same request and the same network, POST
    /api/download-sitemap sends the sitemap and the statistics that POST
    /api/generate-sitemap sends, and the same error otherwise; only the
    debug records are left out. *)
Theorem download_matches_generate {P : Platform} (net : Network) (body : JSON) :
  download_sitemap net body
  = match generate_sitemap net body with
    | Ok200 xml stats _ => Ok200 xml stats None
    | other => other
    end.
Proof.
  unfold download_sitemap, generate_sitemap.
  destruct (validateSitemapRequest body) as [data|]; [|reflexivity].
  destruct (new_URL (q_url data)) as [u|]; [|reflexivity].
  pose proof (crawl_outcome_debug net (url_toString u) 50
                (q_includeDebug data)) as E.
  destruct (crawlWebsite net (url_toString u) 50 (q_includeDebug data))
    as [r1|];
    destruct (crawlWebsite net (url_toString u) 50 None) as [r2|];
    try discriminate E; [|reflexivity].
  injection E as E1 E2 E3. rewrite E2, E3. reflexivity.
Qed.

(** The crawl of the small site. *)
Lemma demo_crawl :
  exists r,
    crawlWebsite (P := Demo.runtime) Demo.site "https://example.com/" 50 None
    = Some r
    /\ r_visited r
       = [ "https://example.com/" : str; "https://example.com/a" : str ].
Proof.
  eexists. split.
  - eapply (crawlWebsite_run (P := Demo.runtime) Demo.site
              "https://example.com/" 50 None _ 2);
      [vm_compute; reflexivity|vm_compute; reflexivity].
  - vm_compute. reflexivity.
Qed.

(** X1, at the small site. *)
Lemma crawl_lists_distinct_witness :
  exists r,
    crawlWebsite (P := Demo.runtime) Demo.site "https://example.com/" 50 None
    = Some r
    /\ NoDup (r_visited r) /\ NoDup (r_discovered r).
Proof.
  destruct demo_crawl as (r & Hr & _). exists r. split; [exact Hr|].
  exact (crawl_lists_distinct (P := Demo.runtime) Demo.site _ _ _ _ Hr).
Defined.

(** X2, at the small site. *)
Lemma crawl_stats_consistent_witness :
  exists r,
    crawlWebsite (P := Demo.runtime) Demo.site "https://example.com/" 50 None
    = Some r
    /\ urlsInSitemap (r_stats r) <= urlsDiscovered (r_stats r).
Proof.
  destruct demo_crawl as (r & Hr & _). exists r. split; [exact Hr|].
  destruct (crawl_stats_consistent (P := Demo.runtime) Demo.site _ _ _ _ Hr)
    as (_ & _ & H).
  exact H.
Defined.

(** X3, at the small site. *)
Lemma visited_pages_passed_checks_witness :
  exists r u0,
    crawlWebsite (P := Demo.runtime) Demo.site "https://example.com/" 50 None
    = Some r
    /\ new_URL (Platform := Demo.runtime) "https://example.com/" = Some u0
    /\ forall n, In n (r_visited r) ->
         exists u pu status data,
           (u = ("https://example.com/" : str)
            \/ isInternalLink (P := Demo.runtime) u
                 (url_hostname (Platform := Demo.runtime) u0) = true)
           /\ normalizeUrl (P := Demo.runtime) u = Some n
           /\ isSkippableResource (P := Demo.runtime) u = false
           /\ new_URL (Platform := Demo.runtime) u = Some pu
           /\ isPathAllowed (url_pathname (Platform := Demo.runtime) pu)
                (fetchRobots (P := Demo.runtime) Demo.site
                   "https://example.com/") = true
           /\ axiosInstance_get Demo.site u = Resolved status data
           /\ (200 <= status < 300)%Z.
Proof.
  destruct demo_crawl as (r & Hr & _).
  destruct (visited_pages_passed_checks (P := Demo.runtime) Demo.site
              _ _ _ _ Hr) as (u0 & Hu0 & H).
  exists r, u0. split; [exact Hr|]. split; [exact Hu0|exact H].
Defined.

(** X4, at the small site, for the seed and the page [/a]. *)
Lemma visited_pages_distinct_content_witness :
  exists u1 s1 d1 u2 s2 d2,
    normalizeUrl (P := Demo.runtime) u1 = Some ("https://example.com/" : str)
    /\ axiosInstance_get Demo.site u1 = Resolved s1 d1
    /\ normalizeUrl (P := Demo.runtime) u2 = Some ("https://example.com/a" : str)
    /\ axiosInstance_get Demo.site u2 = Resolved s2 d2
    /\ (sha256_hex (Platform := Demo.runtime) d1
        = sha256_hex (Platform := Demo.runtime) d2 ->
        ("https://example.com/" : str) = ("https://example.com/a" : str)).
Proof.
  destruct demo_crawl as (r & Hr & Hv).
  apply (visited_pages_distinct_content (P := Demo.runtime) Demo.site
           _ _ _ r _ _ Hr).
  - rewrite Hv. left. reflexivity.
  - rewrite Hv. right. left. reflexivity.
Defined.

(* ------------------------------------------------------------------ *)
(** ** The URL model: printing and parsing again *)
(* ------------------------------------------------------------------ *)

Module WhatwgRoundTrip.
Import Whatwg WhatwgFacts.

Definition query_ok (q : option str) : Prop :=
  match q with Some q' => forallb hashless q' = true | None => True end.

Definition fragment_ok (f : option str) : Prop :=
  match f with Some f' => forallb url_char f' = true | None => True end.

(** A record as the parser leaves it, with its query and fragment. *)
Definition parsed (r : url) : Prop :=
  wf r /\ query_ok (query r) /\ params r = params_of (query r)
  /\ fragment_ok (fragment r).

Lemma forallb_app_l {A} (f : A -> bool) a b :
  forallb f (a ++ b) = true -> forallb f a = true.
Proof. rewrite forallb_app. intros H. apply andb_true_iff in H. tauto. Qed.

Lemma forallb_app_r {A} (f : A -> bool) a b :
  forallb f (a ++ b) = true -> forallb f b = true.
Proof. rewrite forallb_app. intros H. apply andb_true_iff in H. tauto. Qed.

Lemma forallb_tl {A} (f : A -> bool) l :
  forallb f l = true -> forallb f (tl l) = true.
Proof.
  destruct l; [auto|]. cbn [forallb tl]. intros H.
  apply andb_true_iff in H. tauto.
Qed.

Lemma parse_tail_ok rest q f :
  forallb url_char rest = true -> parse_tail rest = (q, f) ->
  query_ok q /\ fragment_ok f.
Proof.
  intros Hc. unfold parse_tail.
  assert (Hfr : forall f0 : str,
             forallb url_char f0 = true ->
             fragment_ok (match f0 with _ :: f' => Some f' | [] => None end)).
  { intros [|c f0]; [exact (fun _ => I)|]. apply (forallb_tl url_char (c :: f0)). }
  destruct rest as [|c r].
  - intros [= <- <-]. split; exact I.
  - destruct (Ascii.eqb c "?") eqn:Ec.
    + pose proof (break_spec (fun c => Ascii.eqb c "#") r) as B.
      destruct (break (fun c => Ascii.eqb c "#") r) as [q0 f0].
      destruct B as (E & Hq & _). intros [= <- <-].
      apply (forallb_tl url_char (c :: r)) in Hc. cbn [tl] in Hc.
      rewrite E in Hc. split.
      * cbn [query_ok]. apply forallb_forall. intros x Hx.
        unfold hashless. rewrite Forall_forall in Hq. rewrite (Hq x Hx).
        rewrite (forallb_In _ _ _ (forallb_app_l _ _ _ Hc) Hx). reflexivity.
      * apply Hfr. apply (forallb_app_r _ _ _ Hc).
    + intros [= <- <-]. split; [exact I|]. apply (Hfr (c :: r)). exact Hc.
Qed.

(** The path state from the segments [acc] of a base path. *)
Lemma parse_path_from_ok acc rp :
  nodots acc ->
  (forall p, In p acc -> ~ In "/"%char p
                         /\ forall x, In x p -> path_char x = true) ->
  forallb path_char rp = true ->
  path_ok (parse_path_from acc rp).
Proof.
  intros Hnd Hacc Hrp. unfold parse_path_from, path_of_segments.
  set (segs := split_on "/" rp).
  set (segs' := resolve_dots acc segs).
  assert (Hseg : forall p, In p segs' -> ~ In "/"%char p
                           /\ forall x, In x p -> path_char x = true).
  { intros p Hp. apply resolve_dots_In in Hp.
    destruct Hp as [Hp|[Hp| ->]]; [apply Hacc; exact Hp| |split; [intros []|intros x []]].
    split; [apply (split_on_no_sep "/" rp); exact Hp|].
    intros x Hx. apply (forallb_In _ _ _ Hrp).
    apply (split_on_chars "/" _ p); assumption. }
  exists (join "/" segs'). split; [reflexivity|]. split.
  - change (list_ascii_of_string "/") with ["/"%char].
    rewrite split_join.
    + apply resolve_dots_nodot. exact Hnd.
    + apply resolve_dots_nonempty. unfold segs.
      destruct (split_on_cons "/" rp) as (h & t & E).
      rewrite E. discriminate.
    + intros p Hp. apply Hseg. exact Hp.
  - apply forallb_forall. intros x [<-|Hx]; [reflexivity|].
    apply join_chars in Hx. destruct Hx as [[<-|[]]|(p & Hp & Hx)];
      [reflexivity|]. apply (Hseg p Hp). exact Hx.
Qed.

(** The raw path cut off an input of URL characters. *)
Lemma break_path_chars input rawpath rest :
  forallb url_char input = true ->
  break (one_of "?#") input = (rawpath, rest) ->
  forallb path_char rawpath = true /\ forallb url_char rest = true.
Proof.
  intros Hc Hb. pose proof (break_spec (one_of "?#") input) as B.
  rewrite Hb in B. destruct B as (E & Hraw & _). rewrite E in Hc. split.
  - apply forallb_forall. intros x Hx. unfold path_char.
    rewrite Forall_forall in Hraw. rewrite (Hraw x Hx).
    rewrite (forallb_In _ _ _ (forallb_app_l _ _ _ Hc) Hx). reflexivity.
  - apply (forallb_app_r _ _ _ Hc).
Qed.

Lemma parse_parsed u r : parse u = Some r -> parsed r.
Proof.
  intros Hp. split; [apply (parse_wf u); exact Hp|].
  revert Hp. unfold parse.
  destruct (forallb url_char u) eqn:Hu; cbn [negb]; [|discriminate].
  pose proof (break_spec (fun c => Ascii.eqb c ":") u) as B0.
  destruct (break (fun c => Ascii.eqb c ":") u) as [sch rest0].
  destruct B0 as (Eu & _ & _).
  destruct (special_scheme (toLowerCase sch)); cbn [negb]; [|discriminate].
  destruct rest0 as [|c0 rest1]; [discriminate|].
  unfold parse_after_scheme.
  destruct rest1 as [|c1 [|c2 rest2]]; try discriminate.
  destruct (negb (Ascii.eqb c1 "/" && Ascii.eqb c2 "/")); [discriminate|].
  pose proof (break_spec (one_of "/?#") rest2) as B1.
  destruct (break (one_of "/?#") rest2) as [auth rest3].
  destruct B1 as (E2 & _ & _).
  destruct (existsb (fun c => Ascii.eqb c "@") auth); [discriminate|].
  destruct (break (fun c => Ascii.eqb c ":") auth) as [h p].
  destruct (valid_host (toLowerCase h)); cbn [negb]; [|discriminate].
  destruct (parse_port (toLowerCase sch) (tl p)) as [prt|]; [|discriminate].
  destruct (break (one_of "?#") rest3) as [rawpath rest4] eqn:B2.
  destruct (parse_tail rest4) as [q f] eqn:Ht. intros [= <-].
  cbn [query params fragment].
  assert (H3 : forallb url_char rest3 = true).
  { rewrite Eu in Hu. apply forallb_app_r in Hu.
    apply (forallb_tl url_char) in Hu. cbn [tl] in Hu.
    apply (forallb_tl url_char) in Hu. cbn [tl] in Hu.
    apply (forallb_tl url_char) in Hu. cbn [tl] in Hu.
    rewrite E2 in Hu. apply (forallb_app_r _ _ _ Hu). }
  destruct (break_path_chars _ _ _ H3 B2) as [_ H4].
  destruct (parse_tail_ok _ _ _ H4 Ht) as [Hq Hf].
  split; [exact Hq|]. split; [reflexivity|exact Hf].
Qed.

(** Printing a parsed record and parsing the text gives the record
    back. *)
Lemma parse_href_parsed r : parsed r -> parse (href r) = Some r.
Proof.
  intros (Hwf & Hqc & Hps & Hfc).
  destruct r as [s h p pa q ps f].
  destruct Hwf as (Hs & Hh & Hp & Hpa).
  cbn [scheme host port path query params fragment] in *. subst ps.
  assert (Hlow : toLowerCase s = s
                 /\ Forall (fun c => Ascii.eqb c ":" = false) s
                 /\ forallb url_char s = true).
  { destruct (special_scheme_cases s Hs) as [-> | ->];
      (split; [reflexivity|split; [repeat constructor|reflexivity]]). }
  destruct Hlow as (Hlow & Hsc & Hsu).
  unfold href. cbn [scheme host port path query params fragment].
  set (pt := if nonEmpty p then ":" ++ p else []).
  set (qt := match q with Some q' => "?" ++ q' | None => [] end).
  set (ft := match f with Some f' => "#" ++ f' | None => [] end).
  change ("://" ++ h ++ pt ++ pa ++ qt ++ ft)
    with (":"%char :: "/"%char :: "/"%char :: h ++ pt ++ pa ++ qt ++ ft).
  assert (Hhc : forall c, In c h ->
            url_char c = true /\ one_of "/?#" c = false
            /\ Ascii.eqb c ":" = false /\ Ascii.eqb c "@" = false).
  { intros c Hc. apply host_char_props. apply (valid_host_chars h); assumption. }
  assert (Hptc : forall c, In c pt ->
            url_char c = true /\ one_of "/?#" c = false
            /\ Ascii.eqb c "@" = false).
  { intros c Hc. unfold pt in Hc. destruct (nonEmpty p); [|destruct Hc].
    destruct Hc as [<-|Hc]; [repeat split; reflexivity|].
    apply digit_props.
    eapply forallb_In; [apply (port_ok_digits s); exact Hp|exact Hc]. }
  assert (Hpac : forall c, In c pa ->
            url_char c = true /\ one_of "?#" c = false).
  { intros c Hc. destruct Hpa as (t & _ & _ & Hall).
    destruct (path_char_props c (forallb_In _ _ _ Hall Hc)) as (? & ? & _).
    tauto. }
  assert (Hqtc : forall c, In c qt -> url_char c = true).
  { intros c Hc. unfold qt in Hc. destruct q as [q'|]; [|destruct Hc].
    destruct Hc as [<-|Hc]; [reflexivity|].
    apply hashless_props. exact (forallb_In _ _ _ Hqc Hc). }
  assert (Hftc : forall c, In c ft -> url_char c = true).
  { intros c Hc. unfold ft in Hc. destruct f as [f'|]; [|destruct Hc].
    destruct Hc as [<-|Hc]; [reflexivity|].
    exact (forallb_In _ _ _ Hfc Hc). }
  assert (Hft : ft = [] \/ exists c b', ft = c :: b' /\ Ascii.eqb c "#" = true).
  { unfold ft. destruct f as [f'|]; [right|left; reflexivity].
    exists "#"%char, f'. split; reflexivity. }
  unfold parse.
  assert (Hu : forallb url_char
                 (s ++ ":"%char :: "/"%char :: "/"%char
                    :: h ++ pt ++ pa ++ qt ++ ft)
               = true).
  { apply forallb_forall. intros c Hc. apply in_app_iff in Hc.
    destruct Hc as [Hc|[<-|[<-|[<-|Hc]]]]; try reflexivity.
    - eapply forallb_In; eassumption.
    - apply in_app_iff in Hc. destruct Hc as [Hc|Hc]; [apply Hhc; exact Hc|].
      apply in_app_iff in Hc. destruct Hc as [Hc|Hc]; [apply Hptc; exact Hc|].
      apply in_app_iff in Hc. destruct Hc as [Hc|Hc]; [apply Hpac; exact Hc|].
      apply in_app_iff in Hc. destruct Hc as [Hc|Hc]; [apply Hqtc; exact Hc|].
      apply Hftc; exact Hc. }
  rewrite Hu. cbn [negb].
  rewrite (break_app (fun c => Ascii.eqb c ":") s _ Hsc)
    by (right; eexists _, _; split; reflexivity).
  rewrite Hlow, Hs. cbn [negb].
  unfold parse_after_scheme.
  change (Ascii.eqb "/" "/") with true. cbn [andb negb].
  rewrite (app_assoc h pt).
  rewrite (break_app (one_of "/?#") (h ++ pt) (pa ++ qt ++ ft)).
  2:{ apply Forall_forall. intros c Hc. apply in_app_iff in Hc.
      destruct Hc as [Hc|Hc]; [apply Hhc|apply Hptc]; exact Hc. }
  2:{ right. destruct Hpa as (t & -> & _). exists "/"%char, (t ++ qt ++ ft).
      split; reflexivity. }
  assert (Hat : existsb (fun c => Ascii.eqb c "@") (h ++ pt) = false).
  { apply not_true_iff_false. intros H. apply existsb_exists in H.
    destruct H as (c & Hc & Hc'). apply in_app_iff in Hc.
    destruct Hc as [Hc|Hc]; [apply Hhc in Hc|apply Hptc in Hc];
      intuition congruence. }
  rewrite Hat.
  rewrite (break_app (fun c => Ascii.eqb c ":") h pt).
  2:{ apply Forall_forall. intros c Hc. apply Hhc. exact Hc. }
  2:{ unfold pt. destruct (nonEmpty p);
        [right; exists ":"%char, p; split; reflexivity|left; reflexivity]. }
  rewrite (valid_host_lower h Hh), Hh. cbn [negb].
  assert (Hpp : parse_port s (tl pt) = Some p).
  { unfold pt. destruct Hp as [-> | [Hne Hp]]; [reflexivity|].
    rewrite Hne. exact Hp. }
  rewrite Hpp.
  rewrite (break_app (one_of "?#") pa (qt ++ ft)).
  2:{ apply Forall_forall. intros c Hc. apply Hpac. exact Hc. }
  2:{ unfold qt. destruct q as [q'|].
      - right. exists "?"%char, (q' ++ ft). split; reflexivity.
      - cbn [app]. destruct Hft as [->|(c & b' & -> & Hc)];
          [left; reflexivity|right].
        exists c, b'. split; [reflexivity|].
        apply Ascii.eqb_eq in Hc. subst c. reflexivity. }
  assert (Hpt : parse_tail (qt ++ ft) = (q, f)).
  { unfold qt, parse_tail. destruct q as [q'|].
    - change (("?" ++ q') ++ ft) with ("?"%char :: q' ++ ft).
      change (Ascii.eqb "?" "?") with true. cbv iota.
      rewrite (break_app (fun c => Ascii.eqb c "#") q' ft).
      + unfold ft. destruct f; reflexivity.
      + apply Forall_forall. intros c Hc. apply hashless_props.
        exact (forallb_In _ _ _ Hqc Hc).
      + exact Hft.
    - cbn [app]. unfold ft. destruct f as [f'|]; reflexivity. }
  rewrite Hpt, (parse_path_id pa Hpa). reflexivity.
Qed.

(** [new URL(input, base)] gives a record as the parser leaves it. *)
Lemma parse_with_base_parsed input base r :
  parse_with_base input base = Some r -> parsed r.
Proof.
  unfold parse_with_base.
  destruct (parse base) as [b|] eqn:Hb; [|discriminate].
  pose proof (parse_parsed _ _ Hb) as ((Hs & Hh & Hp & Hpa) & Hq & Hps & Hf).
  destruct (forallb url_char input) eqn:Hin; cbn [negb]; [|discriminate].
  destruct (has_scheme input); [apply parse_parsed|].
  destruct input as [|c rest].
  { intros [= <-]. unfold parsed, wf.
    cbn [scheme host port path query params fragment].
    repeat split; try assumption. }
  destruct (Ascii.eqb c "/") eqn:Ec.
  { destruct (startsWith rest "/"); [apply parse_parsed|].
    destruct (break (one_of "?#") (c :: rest)) as [rawpath rest'] eqn:B.
    destruct (break_path_chars _ _ _ Hin B) as [Hraw Hrest].
    destruct (parse_tail rest') as [q f] eqn:Ht.
    destruct (parse_tail_ok _ _ _ Hrest Ht) as [Hq' Hf'].
    intros [= <-]. unfold parsed, wf.
    cbn [scheme host port path query params fragment].
    repeat split; try assumption. apply parse_path_ok. exact Hraw. }
  destruct (Ascii.eqb c "?") eqn:Eq.
  { destruct (parse_tail (c :: rest)) as [q f] eqn:Ht.
    destruct (parse_tail_ok _ _ _ Hin Ht) as [Hq' Hf'].
    intros [= <-]. unfold parsed, wf.
    cbn [scheme host port path query params fragment].
    repeat split; assumption. }
  destruct (Ascii.eqb c "#") eqn:Eh.
  { intros [= <-]. unfold parsed, wf.
    cbn [scheme host port path query params fragment].
    repeat split; try assumption.
    apply (forallb_tl url_char (c :: rest)). exact Hin. }
  destruct (break (one_of "?#") (c :: rest)) as [rawpath rest'] eqn:B.
  destruct (break_path_chars _ _ _ Hin B) as [Hraw Hrest].
  destruct (parse_tail rest') as [q f] eqn:Ht.
  destruct (parse_tail_ok _ _ _ Hrest Ht) as [Hq' Hf'].
  intros [= <-]. unfold parsed, wf.
  cbn [scheme host port path query params fragment].
  repeat split; try assumption.
  destruct Hpa as (t & Et & Hnd & Hc). rewrite Et.
  cbn [drop_slash]. change (Ascii.eqb "/" "/") with true. cbv iota.
  apply parse_path_from_ok; [apply Forall_removelast; exact Hnd| |exact Hraw].
  intros p0 Hp0. apply In_removelast in Hp0. split.
  - apply (split_on_no_sep "/" t). exact Hp0.
  - intros x Hx. apply (forallb_In _ _ _ Hc). rewrite Et. right.
    apply (split_on_chars "/" t p0); assumption.
Qed.

End WhatwgRoundTrip.

(* ------------------------------------------------------------------ *)
(** ** normalizeUrl and resolveLink on the URL model *)
(* ------------------------------------------------------------------ *)

Module NormalForm.
Import Whatwg WhatwgFacts WhatwgRoundTrip.

(** A fixed path of the two path steps is collapsed and has no trailing
    slash unless it is the root. *)
Lemma norm_path_fixed_shape x :
  path_ok x -> norm_path x = x ->
  collapse_slashes x = x /\ (x = "/" :> str \/ endsWith x "/" = false).
Proof.
  intros Hx Hfix. pose proof (collapse_ok x Hx) as Hq.
  unfold norm_path in Hfix. cbv zeta in Hfix.
  rewrite (set_path_id _ Hq) in Hfix.
  pose proof (collapse_length x) as Hlen.
  destruct ((1 <? length (collapse_slashes x))
            && endsWith (collapse_slashes x) "/") eqn:Hcond.
  - exfalso. apply andb_true_iff in Hcond. destruct Hcond as [Hl He].
    apply Nat.ltb_lt in Hl.
    destruct (endsWith_slash _ He) as (y & Ey).
    unfold slice_0_m1 in Hfix. rewrite Ey, removelast_last in Hfix.
    assert (Hy : path_ok y).
    { apply strip_ok; [rewrite <- Ey; exact Hq|].
      intros ->. rewrite Ey in Hl. simpl in Hl. lia. }
    rewrite (set_path_id _ Hy) in Hfix. subst y.
    rewrite Ey, length_app in Hlen. simpl in Hlen. lia.
  - split; [exact Hfix|]. rewrite Hfix in Hcond.
    apply andb_false_iff in Hcond. destruct Hcond as [Hl|He]; [|right; exact He].
    left. apply Nat.ltb_ge in Hl. destruct Hx as (t & -> & _).
    destruct t; [reflexivity|simpl in Hl; lia].
Qed.

Lemma href_no_hash n : normalized n -> ~ In "#"%char (href n).
Proof.
  intros ((Hs & Hh & Hp & Hpa) & _ & Hf & _ & _ & Hq).
  destruct n as [s h p pa q ps f].
  cbn [scheme host port path query params fragment] in *. subst f q.
  unfold href. cbn [scheme host port path query params fragment].
  rewrite app_nil_r. intros Hin.
  apply in_app_iff in Hin. destruct Hin as [Hin|Hin].
  { destruct (special_scheme_cases s Hs) as [-> | ->];
      cbn in Hin; intuition discriminate. }
  apply in_app_iff in Hin. destruct Hin as [Hin|Hin].
  { cbn in Hin. intuition discriminate. }
  apply in_app_iff in Hin. destruct Hin as [Hin|Hin].
  { pose proof (valid_host_chars h _ Hh Hin) as Hc.
    apply host_char_props in Hc. destruct Hc as (_ & Hc & _).
    discriminate Hc. }
  apply in_app_iff in Hin. destruct Hin as [Hin|Hin].
  { destruct (nonEmpty p); [|destruct Hin].
    destruct Hin as [Hin|Hin]; [discriminate Hin|].
    pose proof (forallb_In _ _ _ (port_ok_digits s p Hp) Hin) as Hc.
    apply digit_props in Hc. destruct Hc as (_ & Hc & _). discriminate Hc. }
  apply in_app_iff in Hin. destruct Hin as [Hin|Hin].
  { destruct Hpa as (t & _ & _ & Hall).
    pose proof (forallb_In _ _ _ Hall Hin) as Hc.
    apply path_char_props in Hc. destruct Hc as (_ & Hc & _).
    discriminate Hc. }
  destruct ps as [|kv ps]; [destruct Hin|]. cbn [query_of] in Hin.
  destruct Hin as [Hin|Hin]; [discriminate Hin|].
  pose proof (forallb_In _ _ _ (serialize_chars (kv :: ps)) Hin) as Hc.
  apply hashless_props in Hc. destruct Hc as [_ Hc]. discriminate Hc.
Qed.

Section OnTheModel.
Variables (hash : str -> str) (hrefs : str -> list str) (num : Q -> str)
          (num_ok : forall q, ~ In "<"%char (num q)).

Local Instance model : Platform := platform hash hrefs num num_ok.

(** What [normalizeUrl] returns: the text of the normal form of the
    parsed record, which parses to that normal form again. *)
Lemma normalizeUrl_shape u n :
  normalizeUrl u = Some n ->
  exists r,
    parse u = Some r
    /\ n = href (normal r)
    /\ normalized (normal r)
    /\ parse n = Some (normal r)
    /\ host (normal r) = host r.
Proof.
  unfold model. rewrite normalizeUrl_normal.
  destruct (parse u) as [r|] eqn:E; [|discriminate].
  cbn [option_map]. intros [= <-]. exists r.
  pose proof (parse_wf u r E) as Hwf.
  pose proof (normal_normalized r Hwf) as Hn.
  split; [reflexivity|]. split; [reflexivity|]. split; [exact Hn|].
  split; [apply parse_href; exact Hn|].
  unfold normal. rewrite finish_spec, (prep_wf r Hwf). reflexivity.
Qed.


End OnTheModel.
End NormalForm.

(** X7. The string returned by [normalizeUrl] holds no [#]: the
    fragment is gone and nothing else brings the character in. *)
Theorem normalizeUrl_drops_fragment hash hrefs num num_ok (u n : str) :
  normalizeUrl (P := Whatwg.platform hash hrefs num num_ok) u = Some n ->
  ~ In "#"%char n.
Proof.
  intros H.
  destruct (NormalForm.normalizeUrl_shape hash hrefs num num_ok u n H)
    as (r & _ & -> & Hn & _).
  apply NormalForm.href_no_hash. exact Hn.
Qed.

Lemma normalizeUrl_drops_fragment_witness :
  normalizeUrl (P := Demo.runtime) "https://example.com/a?x=1#top"
  = Some ("https://example.com/a?x=1" : str)
  /\ ~ In "#"%char ("https://example.com/a?x=1" : str).
Proof.
  assert (H : normalizeUrl (P := Demo.runtime) "https://example.com/a?x=1#top"
              = Some ("https://example.com/a?x=1" : str))
    by (vm_compute; reflexivity).
  split; [exact H|].
  exact (normalizeUrl_drops_fragment _ _ _ _ _ _ H).
Defined.

(** X8. [normalizeUrl] keeps the host: the normalised string is internal
    to a host exactly when the original URL is. *)
Theorem normalizeUrl_keeps_host hash hrefs num num_ok (u n startHost : str) :
  normalizeUrl (P := Whatwg.platform hash hrefs num num_ok) u = Some n ->
  isInternalLink (P := Whatwg.platform hash hrefs num num_ok) n startHost
  = isInternalLink (P := Whatwg.platform hash hrefs num num_ok) u startHost.
Proof.
  intros H.
  destruct (NormalForm.normalizeUrl_shape hash hrefs num num_ok u n H)
    as (r & Hu & _ & _ & Hp & Hh).
  unfold isInternalLink. cbn [new_URL url_hostname Whatwg.platform].
  rewrite Hp, Hu, Hh. reflexivity.
Qed.

Lemma normalizeUrl_keeps_host_witness :
  isInternalLink (P := Demo.runtime) "https://example.com/a" "example.com"
  = isInternalLink (P := Demo.runtime) "HTTPS://Example.COM:443/a/#x"
      "example.com".
Proof.
  apply (normalizeUrl_keeps_host (fun s => s) Demo.hrefs Demo.printNumber
           Demo.printNumber_no_lt "HTTPS://Example.COM:443/a/#x").
  vm_compute. reflexivity.
Defined.



(** X10. The normalised string parses to a URL whose pathname has no two
    slashes in a row and no trailing slash, unless it is the root. *)
Theorem normalizeUrl_path_shape hash hrefs num num_ok (u n : str) :
  normalizeUrl (P := Whatwg.platform hash hrefs num num_ok) u = Some n ->
  exists parsed,
    Whatwg.parse n = Some parsed
    /\ collapse_slashes (Whatwg.path parsed) = Whatwg.path parsed
    /\ (Whatwg.path parsed = "/" :> str
        \/ endsWith (Whatwg.path parsed) "/" = false).
Proof.
  intros H.
  destruct (NormalForm.normalizeUrl_shape hash hrefs num num_ok u n H)
    as (r & _ & _ & ((_ & _ & _ & Hpa) & Hfix & _) & Hp & _).
  eexists. split; [exact Hp|].
  apply NormalForm.norm_path_fixed_shape; assumption.
Qed.

Lemma normalizeUrl_path_shape_witness :
  exists parsed,
    Whatwg.parse "https://example.com/a/b" = Some parsed
    /\ collapse_slashes (Whatwg.path parsed) = Whatwg.path parsed
    /\ (Whatwg.path parsed = "/" :> str
        \/ endsWith (Whatwg.path parsed) "/" = false).
Proof.
  apply (normalizeUrl_path_shape (fun s => s) Demo.hrefs Demo.printNumber
           Demo.printNumber_no_lt "https://example.com//a///b/").
  vm_compute. reflexivity.
Defined.

(** X11. A link that [resolveLink] resolves is a URL that [new URL]
    accepts and that [normalizeUrl] normalises to a non-empty string:
    the guards [if (!n) return] and the [catch] branches of the helpers
    are not taken for it. *)
Theorem resolveLink_is_parseable hash hrefs num num_ok (href base l : str) :
  resolveLink (P := Whatwg.platform hash hrefs num num_ok) href base = Some l ->
  exists parsed n,
    Whatwg.parse l = Some parsed
    /\ normalizeUrl (P := Whatwg.platform hash hrefs num num_ok) l = Some n
    /\ n <> [].
Proof.
  unfold resolveLink.
  destruct (negb (nonEmpty href)); [discriminate|].
  destruct (_ || _); [discriminate|].
  cbn [new_URL_base url_toString Whatwg.platform].
  destruct (Whatwg.parse_with_base (trim href) base) as [r|] eqn:E;
    [|discriminate].
  intros [= <-].
  pose proof (WhatwgRoundTrip.parse_with_base_parsed _ _ _ E) as Hr.
  pose proof (WhatwgRoundTrip.parse_href_parsed r Hr) as Hp.
  exists r. eexists. split; [exact Hp|].
  rewrite WhatwgFacts.normalizeUrl_normal, Hp. cbn [option_map].
  split; [reflexivity|].
  pose proof (WhatwgFacts.normal_normalized r (proj1 Hr))
    as ((Hs & _) & _).
  unfold Whatwg.href.
  destruct (WhatwgFacts.special_scheme_cases _ Hs) as [-> | ->]; discriminate.
Qed.

Lemma resolveLink_is_parseable_witness :
  exists parsed n,
    Whatwg.parse "https://example.com/docs/b?x=1" = Some parsed
    /\ normalizeUrl (P := Demo.runtime) "https://example.com/docs/b?x=1"
       = Some n
    /\ n <> [].
Proof.
  apply (resolveLink_is_parseable (fun s => s) Demo.hrefs Demo.printNumber
           Demo.printNumber_no_lt " ../docs/./b?x=1 "
           "https://example.com/a/index.html").
  vm_compute. reflexivity.
Defined.



(* ------------------------------------------------------------------ *)
(** ** Validation and the routes *)
(* ------------------------------------------------------------------ *)

Section ValidationFacts.
Context {P : Platform}.

(** [inner.default(d).optional()]: an absent property stays absent, a
    present one goes through [inner]. *)
Lemma z_optional_default_spec {A} (inner : ZodType A) d input out :
  z_optional (z_default inner d) input = Some out ->
  match input with
  | None => out = None
  | Some v => exists a, inner (Some v) = Some a /\ out = Some a
  end.
Proof.
  unfold z_optional, z_default. destruct input as [v|].
  - destruct (inner (Some v)) as [a|]; [|discriminate].
    intros [= <-]. exists a. split; reflexivity.
  - intros [= <-]. reflexivity.
Qed.

(** What validation accepts, field by field. *)
Lemma validate_fields body data :
  validateSitemapRequest body = Some data ->
  exists fields,
    body = JObj fields
    /\ forallb (includes schemaKeys) (map_keys fields) = true
    /\ map_get "url" fields = Some (JStr (q_url data))
    /\ url_checks (q_url data) = true
    /\ map_get "changeFreq" fields = option_map JStr (q_changeFreq data)
    /\ (forall c, q_changeFreq data = Some c ->
                  includes changeFreqValues c = true)
    /\ map_get "priority" fields = option_map JNum (q_priority data)
    /\ (forall q, q_priority data = Some q -> priority_checks q = true)
    /\ map_get "includeLastMod" fields
       = option_map JBool (q_includeLastMod data)
    /\ map_get "includeDebug" fields
       = option_map JBool (q_includeDebug data).
Proof.
  unfold validateSitemapRequest, SitemapRequestSchema.
  destruct body as [| | | | |fields]; try discriminate.
  destruct (forallb (includes schemaKeys) (map_keys fields)) eqn:Hk;
    cbn [negb]; [|discriminate].
  destruct (z_string url_checks (map_get "url" fields)) as [url|] eqn:Eu;
    [|discriminate].
  destruct (z_optional _ (map_get "changeFreq" fields)) as [cf|] eqn:Ecf;
    [|discriminate].
  destruct (z_optional _ (map_get "priority" fields)) as [pr|] eqn:Epr;
    [|discriminate].
  destruct (z_optional _ (map_get "includeLastMod" fields)) as [lm|] eqn:Elm;
    [|discriminate].
  destruct (z_optional _ (map_get "includeDebug" fields)) as [db|] eqn:Edb;
    [|discriminate].
  intros [= <-]. exists fields.
  cbn [q_url q_changeFreq q_priority q_includeLastMod q_includeDebug].
  split; [reflexivity|]. split; [exact Hk|].
  assert (Hu : map_get "url" fields = Some (JStr url)
               /\ url_checks url = true).
  { unfold z_string in Eu.
    destruct (map_get "url" fields) as [[| | |s| |]|]; try discriminate.
    destruct (url_checks s) eqn:Hs; [|discriminate].
    injection Eu as <-. split; [reflexivity|exact Hs]. }
  destruct Hu as [Hu1 Hu2]. split; [exact Hu1|]. split; [exact Hu2|].
  apply z_optional_default_spec in Ecf, Epr, Elm, Edb.
  assert (Hcf : map_get "changeFreq" fields = option_map JStr cf
                /\ forall c, cf = Some c -> includes changeFreqValues c = true).
  { destruct (map_get "changeFreq" fields) as [v|].
    - destruct Ecf as (a & Ha & ->). unfold z_enum in Ha.
      destruct v; try discriminate.
      destruct (includes changeFreqValues s) eqn:Hs; [|discriminate].
      injection Ha as <-. split; [reflexivity|].
      intros c [= <-]. exact Hs.
    - subst cf. split; [reflexivity|discriminate]. }
  assert (Hpr : map_get "priority" fields = option_map JNum pr
                /\ forall q, pr = Some q -> priority_checks q = true).
  { destruct (map_get "priority" fields) as [v|].
    - destruct Epr as (a & Ha & ->). unfold z_number in Ha.
      destruct v; try discriminate.
      destruct (priority_checks q) eqn:Hs; [|discriminate].
      injection Ha as <-. split; [reflexivity|].
      intros c [= <-]. exact Hs.
    - subst pr. split; [reflexivity|discriminate]. }
  assert (Hb : forall (i : option JSON) (o : option bool),
             match i with
             | Some v => exists a, z_boolean (Some v) = Some a /\ o = Some a
             | None => o = None
             end -> i = option_map JBool o).
  { intros [v|] o Ho.
    - destruct Ho as (a & Ha & ->). unfold z_boolean in Ha.
      destruct v; try discriminate. injection Ha as <-. reflexivity.
    - subst o. reflexivity. }
  destruct Hcf as [Hcf1 Hcf2]. destruct Hpr as [Hpr1 Hpr2].
  split; [exact Hcf1|]. split; [exact Hcf2|].
  split; [exact Hpr1|]. split; [exact Hpr2|].
  split; [apply Hb; exact Elm|apply Hb; exact Edb].
Qed.

End ValidationFacts.

(** X13. A validated request names a URL of 1 to 2048 characters that
    [new URL] accepts, whose protocol is none of [javascript:], [data:],
    [vbscript:] and whose host name, in lower case, starts with none of
    the private prefixes ([localhost], [127.0.0.1], [192.168.], [10.],
    [172.16] to [172.31]). *)
Theorem validated_url_is_public {P : Platform} (body : JSON)
    (data : SitemapRequest) :
  validateSitemapRequest body = Some data ->
  1 <= length (q_url data) <= 2048
  /\ exists parsed,
       new_URL (q_url data) = Some parsed
       /\ ~ In (url_protocol parsed)
               [ "javascript:" : str; "data:" : str; "vbscript:" : str ]
       /\ forall p, In p privateHostPrefixes ->
                    startsWith (toLowerCase (url_hostname parsed)) p = false.
Proof.
  intros H. destruct (validate_fields _ _ H) as (fields & _ & _ & _ & Hc & _).
  unfold url_checks in Hc.
  apply andb_true_iff in Hc. destruct Hc as [Hc Href].
  apply andb_true_iff in Hc. destruct Hc as [Hc _].
  apply andb_true_iff in Hc. destruct Hc as [Hlo Hhi].
  apply Nat.leb_le in Hlo. apply Nat.leb_le in Hhi.
  split; [lia|]. unfold url_refine in Href.
  destruct (new_URL (q_url data)) as [parsed|]; [|discriminate].
  exists parsed. split; [reflexivity|].
  destruct (includes _ (url_protocol parsed)) eqn:Hp; [discriminate|].
  destruct (existsb _ privateHostPrefixes) eqn:Hh; [discriminate|].
  split.
  - intros Hin.
    assert (includes [ "javascript:" : str; "data:" : str; "vbscript:" : str ]
                     (url_protocol parsed) = true); [|congruence].
    unfold includes. apply existsb_exists. exists (url_protocol parsed).
    split; [exact Hin|]. apply str_eqb_eq. reflexivity.
  - intros p Hin.
    destruct (startsWith (toLowerCase (url_hostname parsed)) p) eqn:E;
      [|reflexivity].
    assert (existsb (startsWith (toLowerCase (url_hostname parsed)))
                    privateHostPrefixes = true); [|congruence].
    apply existsb_exists. exists p. split; assumption.
Qed.

Lemma validated_url_is_public_witness :
  exists parsed,
    new_URL (Platform := Demo.runtime) "https://example.com" = Some parsed
    /\ forall p, In p privateHostPrefixes ->
         startsWith (toLowerCase (url_hostname (Platform := Demo.runtime)
                                    parsed)) p = false.
Proof.
  destruct (validated_url_is_public (P := Demo.runtime)
              (JObj [("url" : str, JStr "https://example.com")])
              {| q_url := "https://example.com"; q_changeFreq := None;
                 q_priority := None; q_includeLastMod := None;
                 q_includeDebug := None |})
    as (_ & parsed & Hp & _ & Hh).
  - vm_compute. reflexivity.
  - exists parsed. split; [exact Hp|exact Hh].
Defined.





Lemma validated_url_is_public_parse {P : Platform} body data :
  validateSitemapRequest body = Some data ->
  exists parsed, new_URL (q_url data) = Some parsed.
Proof.
  intros H. destruct (validate_fields _ _ H) as (fields & _ & _ & _ & Hc & _).
  unfold url_checks in Hc.
  apply andb_true_iff in Hc. destruct Hc as [Hc _].
  apply andb_true_iff in Hc. destruct Hc as [_ Hc].
  destruct (new_URL (q_url data)) as [parsed|]; [|discriminate].
  exists parsed. reflexivity.
Qed.

(** X16. On the URL model, a request that passes validation is always
    answered with a sitemap: the URL that validation accepted parses
    again in the handler and in [crawlWebsite], so neither route reaches
    its [catch] branch. *)
Theorem valid_request_gets_sitemap hash hrefs num num_ok (net : Network)
    (body : JSON) (data : SitemapRequest) :
  validateSitemapRequest (P := Whatwg.platform hash hrefs num num_ok) body
  = Some data ->
  (exists xml stats dbg,
      generate_sitemap (P := Whatwg.platform hash hrefs num num_ok) net body
      = Ok200 xml stats dbg)
  /\ (exists xml stats,
      download_sitemap (P := Whatwg.platform hash hrefs num num_ok) net body
      = Ok200 xml stats None).
Proof.
  intros Hv.
  destruct (validated_url_is_public_parse
              (P := Whatwg.platform hash hrefs num num_ok) _ _ Hv)
    as (parsed & Hp).
  cbn [new_URL Whatwg.platform] in Hp.
  pose proof (WhatwgRoundTrip.parse_href_parsed parsed
                (WhatwgRoundTrip.parse_parsed _ _ Hp)) as Hrt.
  unfold generate_sitemap, download_sitemap. rewrite Hv.
  cbn [new_URL url_toString Whatwg.platform]. rewrite Hp.
  unfold crawlWebsite. cbn [new_URL url_toString Whatwg.platform].
  rewrite Hrt. split; repeat eexists.
Qed.

Lemma valid_request_gets_sitemap_witness :
  exists xml stats dbg,
    generate_sitemap (P := Demo.runtime) Demo.site
      (JObj [("url" : str, JStr "https://example.com")])
    = Ok200 xml stats dbg.
Proof.
  destruct (valid_request_gets_sitemap (fun s => s) Demo.hrefs
              Demo.printNumber Demo.printNumber_no_lt Demo.site
              (JObj [("url" : str, JStr "https://example.com")])
              {| q_url := "https://example.com"; q_changeFreq := None;
                 q_priority := None; q_includeLastMod := None;
                 q_includeDebug := None |}) as [H _].
  - vm_compute. reflexivity.
  - exact H.
Defined.

(* ------------------------------------------------------------------ *)
(** ** isPathAllowed *)
(* ------------------------------------------------------------------ *)

Lemma startsWith_app_l s t p : startsWith s p = true -> startsWith (s ++ t) p = true.
Proof.
  revert s. induction p as [|c p IH]; intros s; [reflexivity|].
  destruct s as [|d s]; [discriminate|]. cbn [startsWith app].
  intros H. apply andb_true_iff in H. destruct H as [H1 H2].
  rewrite H1, (IH _ H2). reflexivity.
Qed.

(** X17. A path is refused exactly when some non-empty pattern of the
    disallow set is a prefix of it; an empty pattern, as an empty
    [Disallow:] line leaves it, refuses nothing. *)
Theorem isPathAllowed_false_iff (path : str) (robots : Robots) :
  isPathAllowed path robots = false
  <-> exists pattern,
        In pattern (disallow robots) /\ pattern <> []
        /\ startsWith path pattern = true.
Proof.
  unfold isPathAllowed. generalize (disallow robots) as patterns.
  induction patterns as [|p patterns IH]; cbn [path_allowed_loop].
  - split; [discriminate|intros (x & [] & _)].
  - destruct p as [|c p]; cbn [nonEmpty negb].
    + rewrite IH. split.
      * intros (x & Hin & Hne & Hs). exists x. split; [right; exact Hin|tauto].
      * intros (x & [<-|Hin] & Hne & Hs); [congruence|]. exists x. tauto.
    + destruct (startsWith path (c :: p)) eqn:Hs.
      * split; [intros _|reflexivity]. exists (c :: p).
        split; [left; reflexivity|]. split; [discriminate|exact Hs].
      * rewrite IH. split.
        -- intros (x & Hin & Hne & Hx). exists x. split; [right; exact Hin|tauto].
        -- intros (x & [<-|Hin] & Hne & Hx); [congruence|]. exists x. tauto.
Qed.

(** X18. The rules are prefixes: when a path is refused, every path
    that extends it is refused as well. *)
Theorem disallowed_extends (path more : str) (robots : Robots) :
  isPathAllowed path robots = false ->
  isPathAllowed (path ++ more) robots = false.
Proof.
  unfold isPathAllowed. generalize (disallow robots) as patterns.
  induction patterns as [|p patterns IH]; cbn [path_allowed_loop];
    [discriminate|].
  destruct (negb (nonEmpty p)); [exact IH|].
  destruct (startsWith path p) eqn:Hs.
  - intros _. rewrite (startsWith_app_l _ more _ Hs). reflexivity.
  - intros H. destruct (startsWith (path ++ more) p); [reflexivity|].
    apply IH. exact H.
Qed.

Lemma disallowed_extends_witness :
  isPathAllowed ("/admin" ++ "/users") {| disallow := ["/admin" : str] |}
  = false.
Proof. apply disallowed_extends. reflexivity. Defined.

(* ------------------------------------------------------------------ *)
(** ** escapeXml and the document *)
(* ------------------------------------------------------------------ *)

(** The five characters that [escapeXml] replaces. *)
Definition xmlSpecials : list ascii :=
  [ "<"%char; ">"%char; "&"%char; "034"%char; "'"%char ].

Lemma escape_char_spec c :
  (c = "<"%char /\ escape_char c = "&lt;" :> str)
  \/ (c = ">"%char /\ escape_char c = "&gt;" :> str)
  \/ (c = "&"%char /\ escape_char c = "&amp;" :> str)
  \/ (c = "034"%char /\ escape_char c = "&quot;" :> str)
  \/ (c = "'"%char /\ escape_char c = "&apos;" :> str)
  \/ (escape_char c = [c] /\ ~ In c xmlSpecials).
Proof.
  unfold escape_char.
  destruct (Ascii.eqb c "<") eqn:E1;
    [apply Ascii.eqb_eq in E1; subst; tauto|].
  destruct (Ascii.eqb c ">") eqn:E2;
    [apply Ascii.eqb_eq in E2; subst; tauto|].
  destruct (Ascii.eqb c "&") eqn:E3;
    [apply Ascii.eqb_eq in E3; subst; tauto|].
  destruct (Ascii.eqb c "034") eqn:E4;
    [apply Ascii.eqb_eq in E4; subst; tauto|].
  destruct (Ascii.eqb c "'") eqn:E5;
    [apply Ascii.eqb_eq in E5; subst; tauto|].
  do 5 right. split; [reflexivity|].
  apply Ascii.eqb_neq in E1, E2, E3, E4, E5.
  intros [H|[H|[H|[H|[H|[]]]]]]; congruence.
Qed.

Lemma escape_char_cancel c d x y :
  escape_char c ++ x = escape_char d ++ y -> c = d /\ x = y.
Proof.
  destruct (escape_char_spec c) as [[-> Ec]|[[-> Ec]|[[-> Ec]|[[-> Ec]|[[-> Ec]|[Ec Hc]]]]]];
    destruct (escape_char_spec d) as [[-> Ed]|[[-> Ed]|[[-> Ed]|[[-> Ed]|[[-> Ed]|[Ed Hd]]]]]];
    rewrite ?Ec, ?Ed; cbn [app list_ascii_of_string]; intros H;
    try discriminate H;
    try (injection H as H; split; [reflexivity|exact H]);
    try (injection H as H1 H2; exfalso;
         first [apply Hc; rewrite H1|apply Hd; rewrite <- H1];
         cbn; tauto).
  injection H as H1 H2. split; assumption.
Qed.

(** X19. [escapeXml] loses nothing: two texts with the same escaped
    form are the same text. *)
Theorem escapeXml_injective (a b : str) :
  escapeXml a = escapeXml b -> a = b.
Proof.
  revert b. induction a as [|c a IH]; intros b.
  - destruct b as [|d b]; [reflexivity|]. unfold escapeXml. cbn [flat_map].
    destruct (escape_char_spec d) as [[_ E]|[[_ E]|[[_ E]|[[_ E]|[[_ E]|[E _]]]]]];
      rewrite E; discriminate.
  - destruct b as [|d b].
    + unfold escapeXml. cbn [flat_map].
      destruct (escape_char_spec c) as [[_ E]|[[_ E]|[[_ E]|[[_ E]|[[_ E]|[E _]]]]]];
        rewrite E; discriminate.
    + unfold escapeXml. cbn [flat_map]. intros H.
      apply escape_char_cancel in H. destruct H as [-> H].
      f_equal. apply IH. exact H.
Qed.

Lemma escapeXml_injective_witness :
  ("a<b" : str) = ("a<b" : str).
Proof. apply escapeXml_injective. reflexivity. Defined.

Lemma escapeXml_length s : length s <= length (escapeXml s).
Proof.
  induction s as [|c s IH]; [apply Nat.le_refl|].
  unfold escapeXml in *. cbn [flat_map]. rewrite length_app.
  destruct (escape_char_spec c) as [[_ E]|[[_ E]|[[_ E]|[[_ E]|[[_ E]|[E _]]]]]];
    rewrite E; simpl; lia.
Qed.

(** X20. The escaped text holds none of [<], [>], the double quote and
    the apostrophe, and [escapeXml] leaves a text unchanged exactly when
    the text holds none of the five characters it replaces. *)
Theorem escapeXml_markup_free (s : str) :
  (forall c, In c (escapeXml s) ->
             ~ In c [ "<"%char; ">"%char; "034"%char; "'"%char ])
  /\ (escapeXml s = s <-> forall c, In c s -> ~ In c xmlSpecials).
Proof.
  split.
  - induction s as [|d s IH]; [intros c []|].
    unfold escapeXml in *. cbn [flat_map]. intros c Hc.
    apply in_app_iff in Hc. destruct Hc as [Hc|Hc]; [|apply IH; exact Hc].
    destruct (escape_char_spec d) as [[_ E]|[[_ E]|[[_ E]|[[_ E]|[[_ E]|[E Hd]]]]]];
      rewrite E in Hc; cbn in Hc;
      try (intros [H|[H|[H|[H|[]]]]]; subst c; intuition discriminate).
    destruct Hc as [<-|[]]. intros H. apply Hd. cbn in H |- *. tauto.
  - induction s as [|d s IH]; [split; [intros _ c []|reflexivity]|].
    unfold escapeXml in *. cbn [flat_map]. split.
    + intros H c Hc.
      destruct (escape_char_spec d) as [[-> E]|[[-> E]|[[-> E]|[[-> E]|[[-> E]|[E Hd]]]]]];
        rewrite E in H; cbn [app list_ascii_of_string] in H;
        try discriminate H.
      * exfalso. injection H as H. pose proof (escapeXml_length s) as Hl.
        unfold escapeXml in Hl. rewrite <- H in Hl at 1. simpl in Hl. lia.
      * injection H as H. destruct Hc as [<-|Hc]; [exact Hd|].
        apply (proj1 IH H). exact Hc.
    + intros H.
      destruct (escape_char_spec d) as [[-> E]|[[-> E]|[[-> E]|[[-> E]|[[-> E]|[E Hd]]]]]];
        try (exfalso; apply (H _ (or_introl eq_refl)); cbn; tauto).
      rewrite E. cbn [app]. f_equal. apply (proj2 IH).
      intros c Hc. apply H. right. exact Hc.
Qed.

Lemma join_In_split sep (l : list str) e :
  In e l -> exists a b, join sep l = a ++ e ++ b.
Proof.
  induction l as [|x l IH]; [intros []|].
  intros [->|Hin].
  - destruct l as [|y l].
    + exists [], []. cbn [join app]. rewrite app_nil_r. reflexivity.
    + exists [], (sep ++ join sep (y :: l)). reflexivity.
  - destruct l as [|y l]; [destruct Hin|].
    destruct (IH Hin) as (a & b & E).
    exists (x ++ sep ++ a), b.
    change (join sep (x :: y :: l)) with (x ++ sep ++ join sep (y :: l)).
    rewrite E, <- !app_assoc. reflexivity.
Qed.

(** [pat] occurs in [s]. *)
Definition occurs_in (pat s : str) : Prop :=
  exists before after, s = before ++ pat ++ after.

Lemma occurs_in_app_r pat x s : occurs_in pat s -> occurs_in pat (x ++ s).
Proof.
  intros (a & b & ->). exists (x ++ a), b. rewrite <- app_assoc. reflexivity.
Qed.

Lemma occurs_in_app_l pat x s : occurs_in pat s -> occurs_in pat (s ++ x).
Proof.
  intros (a & b & ->). exists a, (b ++ x). rewrite <- !app_assoc. reflexivity.
Qed.

Lemma url_entry_loc {P : Platform} cf pr ilm lastmod loc :
  occurs_in ("<loc>" ++ escapeXml loc ++ "</loc>")
            (url_entry cf pr ilm lastmod loc).
Proof.
  assert (H : forall rest,
             occurs_in ("<loc>" ++ escapeXml loc ++ "</loc>")
                       (("  <url>" ++ nl)
                          ++ "    <loc>" ++ escapeXml loc ++ "</loc>" ++ rest)).
  { intros rest. exists ("  <url>" ++ nl ++ "    "), rest.
    rewrite <- !app_assoc. reflexivity. }
  unfold url_entry.
  destruct lastmod as [d|]; [destruct (ilm && nonEmpty d)|];
    destruct (nonEmpty cf);
    rewrite <- ?app_assoc; apply H.
Qed.

(** X21. Every URL given to [generateSitemapXML] is in the document, as
    a [loc] element that holds its escaped text. *)
Theorem sitemap_lists_every_url {P : Platform} (net : Network)
    (urls : list str) (options : SitemapOptions) (u : str) :
  In u urls ->
  exists before after,
    generateSitemapXML net urls options
    = before ++ ("<loc>" ++ escapeXml u ++ "</loc>") ++ after.
Proof.
  intros Hin. unfold generateSitemapXML.
  do 16 apply occurs_in_app_r. apply occurs_in_app_l.
  match goal with
  | |- context [map ?f urls] =>
      destruct (join_In_split nl (map f urls) (f u) (in_map f urls u Hin))
        as (a & b & E); rewrite E; clear E
  end.
  apply occurs_in_app_r, occurs_in_app_l, url_entry_loc.
Qed.

Lemma sitemap_lists_every_url_witness :
  exists before after,
    generateSitemapXML (P := Demo.runtime) Demo.site
      [ "https://example.com/?a=1&b=2" : str ]
      {| changeFreq := None; priority := None; includeLastMod := None |}
    = before ++ ("<loc>" ++ "https://example.com/?a=1&amp;b=2" ++ "</loc>")
      ++ after.
Proof.
  exact (sitemap_lists_every_url (P := Demo.runtime) Demo.site
           [ "https://example.com/?a=1&b=2" : str ]
           {| changeFreq := None; priority := None; includeLastMod := None |}
           "https://example.com/?a=1&b=2" (or_introl eq_refl)).
Defined.

(* ------------------------------------------------------------------ *)
(** ** Sanitization *)
(* ------------------------------------------------------------------ *)

Lemma remove_all_In p s c : In c (remove_all p s) <-> In c s /\ p c = false.
Proof.
  unfold remove_all. rewrite filter_In, negb_true_iff. tauto.
Qed.

Lemma remove_all_id p s :
  (forall c, In c s -> p c = false) -> remove_all p s = s.
Proof.
  unfold remove_all. induction s as [|c s IH]; intros H; [reflexivity|].
  cbn [filter]. rewrite (H c (or_introl eq_refl)). cbn [negb].
  f_equal. apply IH. intros x Hx. apply H. right. exact Hx.
Qed.

Lemma remove_all_length p s : length (remove_all p s) <= length s.
Proof. apply filter_length_le. Qed.

Lemma remove_all_fixed p s :
  remove_all p s = s -> forall c, In c s -> p c = false.
Proof.
  unfold remove_all. induction s as [|d s IH]; [intros _ c []|].
  cbn [filter]. destruct (p d) eqn:Hd; cbn [negb].
  - intros H. exfalso.
    pose proof (filter_length_le (fun c => negb (p c)) s) as Hl.
    rewrite H in Hl. simpl in Hl. lia.
  - intros [= H] c [<-|Hc]; [exact Hd|]. apply IH; assumption.
Qed.

(** The code of a character is below 32: the NUL character and the
    control characters, TAB, LF and CR among them. *)
Definition below_space (c : ascii) : bool := (N_of_ascii c <? 32)%N.

Lemma below_space_split c : below_space c = is_nul c || is_control c.
Proof.
  unfold below_space, is_nul, is_control. cbv zeta.
  destruct (N_of_ascii c <? 32)%N eqn:E1;
    destruct (N_of_ascii c =? 0)%N eqn:E2;
    destruct (1 <=? N_of_ascii c)%N eqn:E3;
    destruct (N_of_ascii c <=? 31)%N eqn:E4; cbn; try reflexivity;
    rewrite ?N.ltb_lt, ?N.ltb_ge, ?N.eqb_eq, ?N.eqb_neq, ?N.leb_le, ?N.leb_gt
      in *; lia.
Qed.

Lemma sanitizeString_In s c :
  In c (sanitizeString (JStr s)) <-> In c s /\ below_space c = false.
Proof.
  cbn [sanitizeString]. rewrite !remove_all_In, below_space_split.
  rewrite orb_false_iff. tauto.
Qed.

Lemma sanitizeString_id s :
  (forall c, In c s -> below_space c = false) ->
  sanitizeString (JStr s) = s.
Proof.
  intros H. cbn [sanitizeString].
  assert (H' : forall c, In c s -> is_nul c = false /\ is_control c = false).
  { intros c Hc. specialize (H c Hc). rewrite below_space_split in H.
    apply orb_false_iff. exact H. }
  rewrite (remove_all_id is_nul s) by (intros c Hc; apply H'; exact Hc).
  apply remove_all_id. intros c Hc. apply H'. exact Hc.
Qed.

(** X22. [sanitizeString] removes every character whose code is below
    32, TAB, LF and CR included, and nothing else: the result holds no
    such character, a second pass changes nothing, and a text is kept
    as it is exactly when it holds none. *)
Theorem sanitizeString_strips_controls (s : str) :
  (forall c, In c (sanitizeString (JStr s)) <->
             In c s /\ below_space c = false)
  /\ sanitizeString (JStr (sanitizeString (JStr s))) = sanitizeString (JStr s)
  /\ (sanitizeString (JStr s) = s <->
      forall c, In c s -> below_space c = false).
Proof.
  split; [intros c; apply sanitizeString_In|]. split.
  - apply sanitizeString_id. intros c Hc. apply sanitizeString_In in Hc. tauto.
  - split; [|apply sanitizeString_id].
    intros H c Hc. rewrite <- H in Hc. apply sanitizeString_In in Hc. tauto.
Qed.

(** X23. A string that is an element of an array is not sanitized:
    [sanitizeObject] hands an array of strings back as it is, control
    characters included. *)
Theorem sanitizeObject_keeps_array_strings (l : list str) :
  sanitizeObject (JArr (map JStr l)) = JArr (map JStr l).
Proof.
  cbn [sanitizeObject]. f_equal. rewrite map_map.
  apply map_ext. intros s. reflexivity.
Qed.

(** *** Objects *)

(** The value stored for a property. *)
Definition sanitizeValue (value : JSON) : JSON :=
  match value with
  | JStr _ => JStr (sanitizeString value)
  | _ => sanitizeObject value
  end.

Definition sanitize_step (sanitized : list (str * JSON)) (kv : str * JSON)
  : list (str * JSON) :=
  obj_assign (fst kv) (sanitizeValue (snd kv)) sanitized.

Lemma sanitizeObject_obj fields :
  sanitizeObject (JObj fields) = JObj (fold_left sanitize_step fields []).
Proof. reflexivity. Qed.

Lemma sanitizeObject_not_string v s :
  sanitizeObject v = JStr s -> v = JStr s.
Proof. destruct v; cbn [sanitizeObject]; intros H; try discriminate H; exact H. Qed.

(** A string among the stored values is clean. *)
Definition clean_value (v : JSON) : Prop :=
  forall s, v = JStr s -> forall c, In c s -> below_space c = false.

Lemma sanitizeValue_clean v : clean_value (sanitizeValue v).
Proof.
  intros s Hs c Hc. destruct v as [| | |t| |]; cbn [sanitizeValue] in Hs;
    try discriminate Hs.
  injection Hs as <-. apply sanitizeString_In in Hc. tauto.
Qed.

Lemma map_get_set_cases {V} k k' (v : V) m w :
  map_get k (map_set k' v m) = Some w -> w = v \/ map_get k m = Some w.
Proof.
  destruct (str_eq_dec k k') as [->|Hne].
  - rewrite map_get_set_eq. intros [= <-]. left. reflexivity.
  - rewrite map_get_set_ne by exact Hne. tauto.
Qed.

Lemma sanitize_fold_clean fields acc :
  (forall k w, map_get k acc = Some w -> clean_value w) ->
  forall k w, map_get k (fold_left sanitize_step fields acc) = Some w ->
              clean_value w.
Proof.
  revert acc. induction fields as [|kv fields IH]; intros acc Hacc;
    cbn [fold_left]; [exact Hacc|].
  apply IH. intros k w. unfold sanitize_step, obj_assign.
  destruct (str_eqb (fst kv) "__proto__"); [apply Hacc|].
  intros H. apply map_get_set_cases in H. destruct H as [->|H].
  - apply sanitizeValue_clean.
  - apply (Hacc k). exact H.
Qed.

(** X24. In the object that [sanitizeObject] returns for an object,
    every property whose value is a string holds no character below
    32. *)
Theorem sanitizeObject_cleans_properties (fields out : list (str * JSON))
    (key s : str) (c : ascii) :
  sanitizeObject (JObj fields) = JObj out ->
  map_get key out = Some (JStr s) ->
  In c s -> below_space c = false.
Proof.
  rewrite sanitizeObject_obj. intros [= <-] Hget Hc.
  assert (Hnil : forall k w, map_get k ([] : list (str * JSON)) = Some w ->
                             clean_value w)
    by (intros k w H; discriminate H).
  exact (sanitize_fold_clean fields [] Hnil key (JStr s) Hget s eq_refl c Hc).
Qed.

Lemma sanitizeObject_cleans_properties_witness :
  sanitizeObject
    (JObj [("url" : str, JStr ("https://exa" ++ nl ++ "mple.com"))])
  = JObj [("url" : str, JStr "https://example.com")]
  /\ below_space "e"%char = false.
Proof.
  assert (H : sanitizeObject
                (JObj [("url" : str, JStr ("https://exa" ++ nl ++ "mple.com"))])
              = JObj [("url" : str, JStr "https://example.com")])
    by reflexivity.
  split; [exact H|].
  apply (sanitizeObject_cleans_properties _ _ "url" "https://example.com"
           "e"%char H); [reflexivity|].
  right. right. right. right. right. right. right. right. left. reflexivity.
Defined.

(** *** A second pass *)

Section JSONInduction.
Variable Q : JSON -> Prop.
Hypothesis HNull : Q JNull.
Hypothesis HBool : forall b, Q (JBool b).
Hypothesis HNum : forall q, Q (JNum q).
Hypothesis HStr : forall s, Q (JStr s).
Hypothesis HArr : forall items, Forall Q items -> Q (JArr items).
Hypothesis HObj :
  forall fields, Forall (fun kv => Q (snd kv)) fields -> Q (JObj fields).


End JSONInduction.









(* ------------------------------------------------------------------ *)
(** ** CORS origins *)
(* ------------------------------------------------------------------ *)

Lemma trimStart_head s :
  trimStart s = [] \/ exists c t, trimStart s = c :: t /\ is_space c = false.
Proof.
  induction s as [|c s IH]; [left; reflexivity|]. cbn [trimStart].
  destruct (is_space c) eqn:E; [exact IH|]. right. exists c, s. tauto.
Qed.

Lemma trimStart_fixed c t : is_space c = false -> trimStart (c :: t) = c :: t.
Proof. intros H. cbn [trimStart]. rewrite H. reflexivity. Qed.

Lemma trimStart_idem s : trimStart (trimStart s) = trimStart s.
Proof.
  destruct (trimStart_head s) as [->|(c & t & -> & H)]; [reflexivity|].
  apply trimStart_fixed. exact H.
Qed.

Lemma trimStart_In s x : In x (trimStart s) -> In x s.
Proof.
  induction s as [|c s IH]; [intros []|]. cbn [trimStart].
  destruct (is_space c); [right; apply IH; assumption|tauto].
Qed.

Lemma trimStart_snoc x c :
  is_space c = false -> exists y, trimStart (x ++ [c]) = y ++ [c].
Proof.
  intros Hc. induction x as [|d x IH]; cbn [app trimStart].
  - rewrite Hc. exists []. reflexivity.
  - destruct (is_space d); [exact IH|]. exists (d :: x). reflexivity.
Qed.

Lemma trimEnd_head c t :
  is_space c = false -> exists t', trimEnd (c :: t) = c :: t'.
Proof.
  intros Hc. unfold trimEnd. cbn [rev].
  destruct (trimStart_snoc (rev t) c Hc) as (y & ->).
  exists (rev y). rewrite rev_app_distr. reflexivity.
Qed.

Lemma trimEnd_idem s : trimEnd (trimEnd s) = trimEnd s.
Proof. unfold trimEnd. rewrite rev_involutive, trimStart_idem. reflexivity. Qed.

Lemma trim_idem s : trim (trim s) = trim s.
Proof.
  unfold trim.
  destruct (trimStart_head s) as [->|(c & t & -> & H)]; [reflexivity|].
  destruct (trimEnd_head c t H) as (t' & E). rewrite E.
  rewrite (trimStart_fixed c t' H), <- E. apply trimEnd_idem.
Qed.

Lemma trim_In s x : In x (trim s) -> In x s.
Proof.
  unfold trim, trimEnd. intros H. apply in_rev in H.
  apply trimStart_In in H. apply in_rev in H.
  apply trimStart_In in H. exact H.
Qed.

(** X26. The entries of [ALLOWED_ORIGINS] are non-empty, have no white
    space around them and hold no comma, whatever the environment
    variable is. *)
Theorem allowedOrigins_entries (env : option str) (o : str) :
  In o (allowedOrigins env) ->
  o <> [] /\ trim o = o /\ ~ In ","%char o.
Proof.
  unfold allowedOrigins. intros H. apply filter_In in H.
  destruct H as [H Hne]. apply in_map_iff in H.
  destruct H as (piece & <- & Hp).
  split; [intros E; rewrite E in Hne; discriminate Hne|].
  split; [apply trim_idem|].
  intros Hin. apply trim_In in Hin.
  exact (split_on_no_sep "," _ piece Hp Hin).
Qed.

Lemma allowedOrigins_entries_witness :
  ("https://ranktri.com" : str) <> []
  /\ trim "https://ranktri.com" = ("https://ranktri.com" : str)
  /\ ~ In ","%char ("https://ranktri.com" : str).
Proof.
  apply (allowedOrigins_entries
           (Some (" https://ranktri.com , ,https://www.ranktri.com" : str))).
  left. reflexivity.
Defined.



Lemma span_label_spec s :
  let (label, rest) := span_label s in
  s = label ++ rest /\ forallb origin_label_char label = true.
Proof.
  induction s as [|c s IH]; cbn [span_label]; [split; reflexivity|].
  destruct (origin_label_char c) eqn:E; [|split; reflexivity].
  destruct (span_label s) as [label rest]. destruct IH as [-> Hl].
  split; [reflexivity|]. cbn [forallb]. rewrite E, Hl. reflexivity.
Qed.

(** X28. An origin that is allowed without being in the list has the
    shape of a Vercel preview deployment: up to the case of letters it
    is [https://], one non-empty label of letters, digits and hyphens,
    and [.vercel.app], with nothing before or after. *)
Theorem unlisted_origin_is_preview (allowed : list str) (o : str) :
  isAllowedOrigin allowed (Some o) = true ->
  o <> [] -> ~ In o allowed ->
  exists label,
    toLowerCase o = "https://" ++ toLowerCase label ++ ".vercel.app"
    /\ label <> []
    /\ forallb origin_label_char label = true.
Proof.
  intros H Hne Hnot. unfold isAllowedOrigin in H.
  destruct o as [|c o]; [congruence|]. cbn [truthy] in H.
  destruct (includes allowed (c :: o)) eqn:Hinc;
    [apply includes_In in Hinc; contradiction|].
  destruct (vercel_preview_test (c :: o)) eqn:Hv; [|discriminate].
  unfold vercel_preview_test in Hv.
  apply andb_true_iff in Hv. destruct Hv as [Hpre Hrest].
  pose proof (span_label_spec (skipn 8 (c :: o))) as Hs.
  destruct (span_label (skipn 8 (c :: o))) as [label rest].
  destruct Hs as [Hs Hl].
  apply andb_true_iff in Hrest. destruct Hrest as [Hlab Htail].
  apply str_eqb_eq in Hpre. apply str_eqb_eq in Htail.
  exists label. split; [|split; [|exact Hl]].
  - rewrite <- (firstn_skipn 8 (c :: o)) at 1. rewrite Hs.
    unfold toLowerCase in *. rewrite !map_app, Hpre, Htail. reflexivity.
  - intros ->. discriminate Hlab.
Qed.

Lemma unlisted_origin_is_preview_witness :
  exists label,
    toLowerCase "https://My-App-42.Vercel.app"
    = "https://" ++ toLowerCase label ++ ".vercel.app"
    /\ label <> []
    /\ forallb origin_label_char label = true.
Proof.
  apply (unlisted_origin_is_preview []).
  - reflexivity.
  - discriminate.
  - intros [].
Defined.

(* ------------------------------------------------------------------ *)
(** ** isSkippableResource *)
(* ------------------------------------------------------------------ *)

(** The end of a match of the regular expression: the end of the text
    or a question mark. *)
Definition ends_or_query (after : str) : Prop :=
  after = [] \/ exists r, after = "?"%char :: r.

Lemma ext_here_spec ext s :
  ext_here ext s = true
  <-> exists x after,
        s = x ++ after /\ toLowerCase x = ext /\ ends_or_query after.
Proof.
  revert s. induction ext as [|e ext IH]; intros s.
  - destruct s as [|c s]; cbn [ext_here].
    + split; [intros _|reflexivity]. exists [], [].
      split; [reflexivity|]. split; [reflexivity|left; reflexivity].
    + split.
      * intros H. apply Ascii.eqb_eq in H. subst c. exists [], ("?"%char :: s).
        split; [reflexivity|]. split; [reflexivity|right; eauto].
      * intros (x & after & E & Hx & Ha).
        destruct x; [|discriminate Hx]. cbn [app] in E. subst after.
        destruct Ha as [Ha|(r & Ha)]; [discriminate Ha|].
        injection Ha as -> _. reflexivity.
  - destruct s as [|c s]; cbn [ext_here].
    + split; [discriminate|]. intros (x & after & E & Hx & _).
      destruct x; [discriminate Hx|discriminate E].
    + rewrite andb_true_iff, IH. split.
      * intros [He (x & after & -> & Hx & Ha)].
        apply Ascii.eqb_eq in He. exists (c :: x), after.
        split; [reflexivity|]. split; [|exact Ha].
        cbn [toLowerCase map]. rewrite <- He. f_equal. exact Hx.
      * intros (x & after & E & Hx & Ha).
        destruct x as [|d x]; [discriminate Hx|].
        cbn [app] in E. injection E as -> ->.
        cbn [toLowerCase map] in Hx. injection Hx as He Hx.
        split; [apply Ascii.eqb_eq; symmetry; exact He|].
        exists x, after. split; [reflexivity|]. split; [exact Hx|exact Ha].
Qed.

Lemma resource_regex_test_spec s :
  resource_regex_test s = true
  <-> exists before ext after,
        s = before ++ "."%char :: ext ++ after
        /\ In (toLowerCase ext) resourceExtensions
        /\ ends_or_query after.
Proof.
  induction s as [|c s IH]; cbn [resource_regex_test].
  - split; [discriminate|]. intros (b & e & a & E & _).
    destruct b; discriminate E.
  - rewrite orb_true_iff, andb_true_iff, IH. split.
    + intros [[Hc He]|(b & e & a & -> & Hin & Ha)].
      * apply Ascii.eqb_eq in Hc. subst c. apply existsb_exists in He.
        destruct He as (ext & Hin & He). apply ext_here_spec in He.
        destruct He as (x & after & -> & <- & Ha).
        exists [], x, after. split; [reflexivity|]. split; assumption.
      * exists (c :: b), e, a. split; [reflexivity|]. split; assumption.
    + intros (b & e & a & E & Hin & Ha). destruct b as [|d b].
      * cbn [app] in E. injection E as -> ->. left.
        split; [reflexivity|]. apply existsb_exists.
        exists (toLowerCase e). split; [exact Hin|].
        apply ext_here_spec. exists e, a.
        split; [reflexivity|]. split; [reflexivity|exact Ha].
      * cbn [app] in E. injection E as -> ->. right.
        exists b, e, a. split; [reflexivity|]. tauto.
Qed.

(** X29. A URL is skipped as a resource exactly when [new URL] refuses
    it, or when its pathname followed by its search holds a dot, one of
    the listed extensions in any case, and then ends or goes on with a
    question mark; the extension may sit in the query as well as in the
    path. *)
Theorem isSkippableResource_iff {P : Platform} (url : str) :
  isSkippableResource url = true
  <-> new_URL url = None
      \/ exists u before ext after,
           new_URL url = Some u
           /\ url_pathname u ++ url_search u
              = before ++ "."%char :: ext ++ after
           /\ In (toLowerCase ext) resourceExtensions
           /\ (after = [] \/ exists r, after = "?"%char :: r).
Proof.
  unfold isSkippableResource. destruct (new_URL url) as [u|].
  - rewrite resource_regex_test_spec. split.
    + intros (b & e & a & E & Hin & Ha). right. exists u, b, e, a.
      split; [reflexivity|]. split; [exact E|]. split; [exact Hin|exact Ha].
    + intros [H|(u' & b & e & a & [= <-] & E & Hin & Ha)]; [discriminate H|].
      exists b, e, a. split; [exact E|]. split; [exact Hin|exact Ha].
  - split; [intros _; left; reflexivity|reflexivity].
Qed.

(* ------------------------------------------------------------------ *)
(** ** From the sanitized body to the validated request *)
(* ------------------------------------------------------------------ *)


